(** * ss_config.common: the configuration tree and the manager client

    A shallow embedding of [src/ss_config/common.py].

    - Python strings are [string]; [str.split(sep, 1)], [str.split(sep)]
      and [sep.join] are written out.
    - A Python [dict] is insertion ordered; [keys()] and [diff] walk it in
      that order, so it is an association list whose assignment replaces
      the binding in place or appends it.
    - The classes [ConfigString], [ConfigInt], [ConfigFloat], [ConfigList]
      (subclasses of the built-ins that add a [parental_path] attribute)
      and [Config] (a [dict] subclass) are the constructors of
      [ConfigValue]; [None], which [ConfigValue.get] returns for any other
      shape, is [NoneValue].
    - Methods that mutate [self] return the new [self]; a method that can
      raise returns the state it leaves behind together with the
      exception.
    - [__getitem__] and [__setitem__] recurse on the key; [getitem] and
      [setitem] run the recursion to its end, [getitem_within] and
      [setitem_within] run it with a given number of nested calls left
      and raise [RecursionError] when these are used up.
    - [float] is a binary floating point number ([spec_float]); the JSON
      codec and the clock, environment, file system and socket are
      parameters of the client. *)

From Stdlib Require Import String Ascii List ZArith Bool Arith Lia.
From Stdlib Require Import Floats.SpecFloat DecimalString.
Import ListNotations.

Local Open Scope string_scope.
Local Open Scope list_scope.

#[local] Set Warnings "-register-all".

(** ** Strings *)

Module Str.

(** [s.split(sep, 1)]: the text before the first [sep] and, when there
    is one, the text after it ([key_parts[0]] and
    [key_parts[1] if len(key_parts) > 1 else None]). *)
Fixpoint split1 (sep : ascii) (s : string) : string * option string :=
  match s with
  | EmptyString => (EmptyString, None)
  | String c s' =>
      if Ascii.eqb c sep then (EmptyString, Some s')
      else let (h, t) := split1 sep s' in (String c h, t)
  end.

(** [s.split(sep)]: every field, never an empty list. *)
Fixpoint split (sep : ascii) (s : string) : list string :=
  match s with
  | EmptyString => [EmptyString]
  | String c s' =>
      if Ascii.eqb c sep then EmptyString :: split sep s'
      else match split sep s' with
           | h :: t => String c h :: t
           | [] => [String c EmptyString]
           end
  end.

(** [sep.join(parts)]. *)
Fixpoint join (sep : string) (parts : list string) : string :=
  match parts with
  | [] => EmptyString
  | [p] => p
  | p :: rest => (p ++ sep ++ join sep rest)%string
  end.

(** [c in s]. *)
Fixpoint contains (c : ascii) (s : string) : bool :=
  match s with
  | EmptyString => false
  | String c' s' => Ascii.eqb c' c || contains c s'
  end.

(** Truth value of a string: non-empty. *)
Definition truthy (s : string) : bool :=
  match s with EmptyString => false | String _ _ => true end.

(** Truth value of [s or None]. *)
Definition truthy_opt (o : option string) : bool :=
  match o with Some s => truthy s | None => false end.

(** [f"{o}"] for a string or [None]. *)
Definition format_opt (o : option string) : string :=
  match o with Some s => s | None => "None" end.

End Str.

Definition slash : ascii := "/"%char.
Definition colon : ascii := ":"%char.

(** ** Dictionaries *)

Module Dict.
Section Ops.
Context {V : Type}.

Definition t := list (string * V).

(** [dict.get(d, k)] *)
Fixpoint get (d : list (string * V)) (k : string) : option V :=
  match d with
  | [] => None
  | (k', v) :: d' => if String.eqb k' k then Some v else get d' k
  end.

(** [k in d] *)
Definition mem (d : list (string * V)) (k : string) : bool :=
  match get d k with Some _ => true | None => false end.

(** [dict.__setitem__(d, k, v)]: an existing key keeps its place. *)
Fixpoint set (d : list (string * V)) (k : string) (v : V) : list (string * V) :=
  match d with
  | [] => [(k, v)]
  | (k', v') :: d' =>
      if String.eqb k' k then (k', v) :: d' else (k', v') :: set d' k v
  end.

Definition keys (d : list (string * V)) : list string := map fst d.
End Ops.
End Dict.

(** ** Values *)

(** What the caller hands in and what [json.loads] produces: [None],
    strings, integers, floats, lists and string-keyed mappings. *)
Inductive raw : Type :=
| RNone
| RStr (s : string)
| RInt (z : Z)
| RFloat (f : spec_float)
| RList (l : list raw)
| RDict (d : list (string * raw)).

(** The stored values. [Subtree] is a [Config] held as a value. *)
Inductive ConfigValue : Type :=
| NoneValue
| ConfigString (s : string) (parental_path : option string)
| ConfigInt (z : Z) (parental_path : option string)
| ConfigFloat (f : spec_float) (parental_path : option string)
| ConfigList (l : list raw) (parental_path : option string)
| Subtree (c : Config)
with Config : Type :=
| MkConfig (parental_path : option string) (items : list (string * ConfigValue)).

Definition parental_path (c : Config) : option string :=
  match c with MkConfig p _ => p end.

Definition items (c : Config) : list (string * ConfigValue) :=
  match c with MkConfig _ d => d end.

(** [Config()] *)
Definition Config_empty (pp : option string) : Config := MkConfig pp [].

(** [dict.__setitem__(self, key, val)] on a [Config]. *)
Definition store (self : Config) (key : string) (val : ConfigValue) : Config :=
  MkConfig (parental_path self) (Dict.set (items self) key val).

Definition is_config (v : ConfigValue) : bool :=
  match v with Subtree _ => true | _ => false end.

(** The [parental_path] attribute of a stored value ([None] has none). *)
Definition value_path (v : ConfigValue) : option (option string) :=
  match v with
  | NoneValue => None
  | ConfigString _ p | ConfigInt _ p | ConfigFloat _ p | ConfigList _ p => Some p
  | Subtree c => Some (parental_path c)
  end.

(** A stored value as Python's [isinstance], [json.dumps] and [==] see it:
    the built-in value underneath the subclass. *)
Fixpoint plain (v : ConfigValue) : raw :=
  match v with
  | NoneValue => RNone
  | ConfigString s _ => RStr s
  | ConfigInt z _ => RInt z
  | ConfigFloat f _ => RFloat f
  | ConfigList l _ => RList l
  | Subtree c => plain_config c
  end
with plain_config (c : Config) : raw :=
  match c with
  | MkConfig _ d =>
      RDict ((fix go (d : list (string * ConfigValue)) : list (string * raw) :=
                match d with
                | [] => []
                | (k, v) :: d' => (k, plain v) :: go d'
                end) d)
  end.

(** ** Exceptions *)

Inductive exn : Type :=
| KeyError (key : string)
| TypeError
| ValueError
| JSONDecodeError
| IndexError
| RecursionError
| TimeoutError (msg : string)
| AttributeError (attr : string)
| NameError (name : string)
| PlainException (msg : string)
| ConfigNotFoundError (config : Config) (path : string) (key : string).

(** [ConfigNotFoundError.__init__] keeps its three arguments only inside
    [self.message]; [config_str] is [str(config)]. *)
Definition dquote : string := String (Ascii.ascii_of_nat 34) EmptyString.

Definition ConfigNotFoundError_message (config_str path key : string) : string :=
  ("Mandatory entry for path " ++ dquote ++ path ++ dquote
     ++ " was not found in config " ++ config_str
     ++ ". Failed at key " ++ dquote ++ key ++ dquote)%string.

Inductive result (A : Type) : Type :=
| Ok (a : A)
| Raise (e : exn).
Arguments Ok {A} a.
Arguments Raise {A} e.

Definition bind {A B : Type} (r : result A) (k : A -> result B) : result B :=
  match r with Ok a => k a | Raise e => Raise e end.

Notation "x <- r ;; k" := (bind r (fun x => k))
  (at level 61, r at next level, right associativity).

(** ** Building and addressing the tree *)

(** [f"{self.parental_path}/{key}" if self.parental_path else key] *)
Definition child_path (self : Config) (key : string) : string :=
  match parental_path self with
  | Some p => if Str.truthy p then (p ++ "/" ++ key)%string else key
  | None => key
  end.

(** The text of [key_tail] where the code uses it as a string. *)
Definition tail_text (key_tail : option string) : string :=
  match key_tail with Some s => s | None => EmptyString end.

(** [Config.__setitem__], with [wrap path] standing for
    [ConfigValue.get(value, path)]. The recursion is on [key_tail], a
    proper suffix of [raw_key]; [fuel] bounds it by the length of the
    key. The result is [self] as the call leaves it and the exception it
    raised, if any. *)
Fixpoint setitem_rec (wrap : option string -> result ConfigValue)
    (fuel : nat) (self : Config) (raw_key : string) {struct fuel}
    : Config * option exn :=
  match fuel with
  | O => (self, Some RecursionError)
  | S fuel' =>
      let (key, key_tail) := Str.split1 slash raw_key in
      if negb (Str.truthy key) && Str.truthy_opt key_tail then
        setitem_rec wrap fuel' self (tail_text key_tail)
      else if negb (Str.truthy_opt key_tail) then
        match wrap (Some (child_path self key)) with
        | Ok val => (store self key val, None)
        | Raise e => (self, Some e)
        end
      else
        let self1 :=
          if Dict.mem (items self) key then self
          else store self key (Subtree (Config_empty None)) in
        match Dict.get (items self1) key with
        | Some (Subtree child) =>
            let (child', r) := setitem_rec wrap fuel' child (tail_text key_tail) in
            (store self1 key (Subtree child'), r)
        | Some _ => (self1, Some TypeError)
        | None => (self1, Some (KeyError key))
        end
  end.

Definition setitem_with (wrap : option string -> result ConfigValue)
    (self : Config) (raw_key : string) : Config * option exn :=
  setitem_rec wrap (S (String.length raw_key)) self raw_key.

(** [Config.__init__(contents, parental_path)] for [contents] a mapping:
    [for key, val in contents.items(): self[key] = val]. An exception
    leaves no object. *)
Fixpoint init_loop (wrap : raw -> option string -> result ConfigValue)
    (contents : list (string * raw)) (self : Config) : result Config :=
  match contents with
  | [] => Ok self
  | (key, val) :: rest =>
      match setitem_with (wrap val) self key with
      | (self', None) => init_loop wrap rest self'
      | (_, Some e) => Raise e
      end
  end.

(** [ConfigValue.get(value, parental_path)] *)
Fixpoint ConfigValue_get (value : raw) (pp : option string) {struct value}
    : result ConfigValue :=
  match value with
  | RDict contents =>
      c <- (fix loop (contents : list (string * raw)) (self : Config)
              : result Config :=
              match contents with
              | [] => Ok self
              | (key, val) :: rest =>
                  match setitem_with (ConfigValue_get val) self key with
                  | (self', None) => loop rest self'
                  | (_, Some e) => Raise e
                  end
              end) contents (Config_empty pp) ;;
      Ok (Subtree c)
  | RStr s => Ok (ConfigString s pp)
  | RInt z => Ok (ConfigInt z pp)
  | RFloat f => Ok (ConfigFloat f pp)
  | RList l => Ok (ConfigList l pp)
  | RNone => Ok NoneValue
  end.

(** [Config(contents, parental_path)] for [contents] [None] or a [dict],
    the first two branches of the constructor. The third branch hands any
    other [contents] (a sequence of pairs, say) to [dict.__init__], which
    stores keys and values as they are given, unsplit and unwrapped; no
    function of the module calls the constructor so, and the trees it
    would make are not trees of this model, whose stored values are the
    wrapped ones. *)
Definition Config_init (contents : option (list (string * raw)))
    (pp : option string) : result Config :=
  match contents with
  | None => Ok (Config_empty pp)
  | Some d => init_loop ConfigValue_get d (Config_empty pp)
  end.

(** [self[raw_key] = value], with the limit on nested calls out of
    reach. *)
Definition setitem (self : Config) (raw_key : string) (value : raw)
    : Config * option exn :=
  setitem_with (ConfigValue_get value) self raw_key.

(** [Config.__getitem__]. Subscripting a stored string, number, list or
    [None] with a string raises [TypeError]. Every recursive call takes
    one unit of [fuel]; a call without any raises [RecursionError]. *)
Fixpoint getitem_rec (fuel : nat) (self : Config) (raw_key : string)
    {struct fuel} : result ConfigValue :=
  match fuel with
  | O => Raise RecursionError
  | S fuel' =>
      let (key, key_tail) := Str.split1 slash raw_key in
      if negb (Str.truthy key) && Str.truthy_opt key_tail then
        getitem_rec fuel' self (tail_text key_tail)
      else
        match Dict.get (items self) key with
        | None => Raise (KeyError key)
        | Some val =>
            if Str.truthy_opt key_tail then
              match val with
              | Subtree child => getitem_rec fuel' child (tail_text key_tail)
              | _ => Raise TypeError
              end
            else Ok val
        end
  end.

(** [self[raw_key]] with the limit on nested calls out of reach: the fuel
    is more than the calls the key can take. *)
Definition getitem (self : Config) (raw_key : string) : result ConfigValue :=
  getitem_rec (S (String.length raw_key)) self raw_key.

(** [Config.keys] *)
Fixpoint keys (self : Config) : list string :=
  match self with
  | MkConfig _ d =>
      (fix loop (d : list (string * ConfigValue)) : list string :=
         match d with
         | [] => []
         | (k, Subtree v) :: d' => map (fun sub => (k ++ "/" ++ sub)%string) (keys v) ++ loop d'
         | (k, _) :: d' => k :: loop d'
         end) d
  end.

(** [Config.deep_items]: the inner comprehension runs over [v.items()],
    the direct entries of the child. *)
Fixpoint deep_items_loop (d : list (string * ConfigValue))
    : list (string * ConfigValue) :=
  match d with
  | [] => []
  | (k, Subtree v) :: d' =>
      map (fun kv => ((k ++ "/" ++ fst kv)%string, snd kv)) (items v) ++ deep_items_loop d'
  | (k, v) :: d' => (k, v) :: deep_items_loop d'
  end.

Definition deep_items (self : Config) : list (string * ConfigValue) :=
  deep_items_loop (items self).

(** [Config.must_get] for a string [path]. [current.get(element)] is
    [dict.get]; a stored [None] is taken for a missing entry. *)
Fixpoint must_get_loop (self : Config) (path : list string)
    (current : ConfigValue) (todo : list string) : result ConfigValue :=
  match todo with
  | [] => Ok current
  | element :: todo' =>
      match current with
      | Subtree c =>
          match Dict.get (items c) element with
          | None | Some NoneValue =>
              Raise (ConfigNotFoundError self (Str.join "/" path) element)
          | Some next => must_get_loop self path next todo'
          end
      | _ => Raise (ConfigNotFoundError self (Str.join "/" path) element)
      end
  end.

Definition must_get (self : Config) (path : string) : result ConfigValue :=
  let path := Str.split slash path in
  must_get_loop self path (Subtree self) path.

(** [Config.from_kvlist] *)
Definition from_kvlist (kv_list : list (string * raw)) : result Config :=
  init_loop ConfigValue_get kv_list (Config_empty None).

(** ** The limit on nested calls

    The interpreter raises [RecursionError] at a call that would nest
    deeper than its limit allows. In the definitions of this section
    [depth] is the number of nested calls the interpreter still allows
    where the operation is called, and every call of a function or method
    of the module takes one of them for as long as it runs. The
    definitions above are the same operations with the limit out of reach:
    [getitem] and [setitem_with] start the recursion with more fuel than
    the key has characters. *)

(** [self[raw_key]] with [depth] calls left: one call of [__getitem__]
    for every segment of the key it goes through, the empty ones
    included. *)
Definition getitem_within (depth : nat) (self : Config) (raw_key : string)
    : result ConfigValue :=
  getitem_rec depth self raw_key.

(** [Config.__setitem__] with [depth] calls left, [wrap d path] standing
    for [ConfigValue.get(value, path)] called with [d] calls left. Going
    down a level calls [Config()] for a new node, [__getitem__] for
    [self[key]] and [__setitem__] on the node found: with no call left the
    first of them raises before anything is stored. *)
Fixpoint setitem_rec_within (wrap : nat -> option string -> result ConfigValue)
    (depth : nat) (self : Config) (raw_key : string) {struct depth}
    : Config * option exn :=
  match depth with
  | O => (self, Some RecursionError)
  | S depth' =>
      let (key, key_tail) := Str.split1 slash raw_key in
      if negb (Str.truthy key) && Str.truthy_opt key_tail then
        setitem_rec_within wrap depth' self (tail_text key_tail)
      else if negb (Str.truthy_opt key_tail) then
        match wrap depth' (Some (child_path self key)) with
        | Ok val => (store self key val, None)
        | Raise e => (self, Some e)
        end
      else
        match depth' with
        | O => (self, Some RecursionError)
        | S _ =>
            let self1 :=
              if Dict.mem (items self) key then self
              else store self key (Subtree (Config_empty None)) in
            match Dict.get (items self1) key with
            | Some (Subtree child) =>
                let (child', r) :=
                  setitem_rec_within wrap depth' child (tail_text key_tail) in
                (store self1 key (Subtree child'), r)
            | Some _ => (self1, Some TypeError)
            | None => (self1, Some (KeyError key))
            end
        end
  end.

(** The call of the [__new__] or [__init__] of a leaf class. *)
Definition construct (depth : nat) (v : ConfigValue) : result ConfigValue :=
  match depth with
  | O => Raise RecursionError
  | S _ => Ok v
  end.

Fixpoint init_loop_within (wrap : raw -> nat -> option string -> result ConfigValue)
    (depth : nat) (contents : list (string * raw)) (self : Config)
    : result Config :=
  match contents with
  | [] => Ok self
  | (key, val) :: rest =>
      match setitem_rec_within (wrap val) depth self key with
      | (self', None) => init_loop_within wrap depth rest self'
      | (_, Some e) => Raise e
      end
  end.

(** [ConfigValue.get(value, parental_path)] with [depth] calls left: the
    call itself, the call of the constructor and, for a mapping, the
    assignments the constructor makes. *)
Fixpoint ConfigValue_get_within (value : raw) (depth : nat) (pp : option string)
    {struct value} : result ConfigValue :=
  match depth with
  | O => Raise RecursionError
  | S depth1 =>
      match value with
      | RDict contents =>
          match depth1 with
          | O => Raise RecursionError
          | S depth2 =>
              c <- (fix loop (contents : list (string * raw)) (self : Config)
                      : result Config :=
                      match contents with
                      | [] => Ok self
                      | (key, val) :: rest =>
                          match setitem_rec_within (ConfigValue_get_within val)
                                  depth2 self key with
                          | (self', None) => loop rest self'
                          | (_, Some e) => Raise e
                          end
                      end) contents (Config_empty pp) ;;
              Ok (Subtree c)
          end
      | RStr s => construct depth1 (ConfigString s pp)
      | RInt z => construct depth1 (ConfigInt z pp)
      | RFloat f => construct depth1 (ConfigFloat f pp)
      | RList l => construct depth1 (ConfigList l pp)
      | RNone => Ok NoneValue
      end
  end.

(** [self[raw_key] = value] with [depth] calls left. *)
Definition setitem_within (depth : nat) (self : Config) (raw_key : string)
    (value : raw) : Config * option exn :=
  setitem_rec_within (ConfigValue_get_within value) depth self raw_key.

(** [Config(contents, parental_path)] with [depth] calls left. *)
Definition Config_init_within (depth : nat)
    (contents : option (list (string * raw))) (pp : option string)
    : result Config :=
  match depth with
  | O => Raise RecursionError
  | S depth' =>
      match contents with
      | None => Ok (Config_empty pp)
      | Some d => init_loop_within ConfigValue_get_within depth' d (Config_empty pp)
      end
  end.

(** [Config.from_kvlist(kv_list)] with [depth] calls left: the call of the
    class method, inside it the call [cls()], then the assignments. *)
Definition from_kvlist_within (depth : nat) (kv_list : list (string * raw))
    : result Config :=
  match depth with
  | O => Raise RecursionError
  | S depth' =>
      conf <- Config_init_within depth' None None ;;
      init_loop_within ConfigValue_get_within depth' kv_list conf
  end.

(** Calls that are enough for a key: one for every piece of
    [raw_key.split('/')]. *)
Definition key_calls (raw_key : string) : nat :=
  length (Str.split slash raw_key).

(** Calls that are enough for [ConfigValue.get(value)]: its own, the
    constructor's and, for a mapping, those of the entry that needs
    most. *)
Fixpoint value_calls (value : raw) : nat :=
  match value with
  | RNone => 1
  | RDict contents =>
      2 + (fix most (contents : list (string * raw)) : nat :=
             match contents with
             | [] => 0
             | (key, val) :: rest =>
                 Nat.max (key_calls key + value_calls val) (most rest)
             end) contents
  | _ => 2
  end.

Fixpoint contents_calls (contents : list (string * raw)) : nat :=
  match contents with
  | [] => 0
  | (key, val) :: rest =>
      Nat.max (key_calls key + value_calls val) (contents_calls rest)
  end.

(** [n] slashes. *)
Fixpoint slashes (n : nat) : string :=
  match n with
  | O => EmptyString
  | S n' => String slash (slashes n')
  end.

(** ** Comparing and merging trees *)

(** [int == float]: the two are compared exactly. *)
Definition int_float_eqb (z : Z) (f : spec_float) : bool :=
  match f with
  | S754_zero _ => Z.eqb z 0
  | S754_finite sign m e =>
      let mz := if sign then Z.neg m else Z.pos m in
      if Z.leb 0 e then Z.eqb z (mz * 2 ^ e) else Z.eqb (z * 2 ^ (- e)) mz
  | S754_infinity _ | S754_nan => false
  end.

(** Python's [==] on the built-in values: numbers by value, [nan] equal to
    nothing, lists element by element, mappings key by key whatever the
    order, values of different kinds unequal. (The shortcut by which a
    container compares an element equal to itself when both sides hold
    the very same object is not modelled.) *)
Fixpoint py_eq (a b : raw) {struct a} : bool :=
  match a, b with
  | RNone, RNone => true
  | RStr s, RStr t => String.eqb s t
  | RInt x, RInt y => Z.eqb x y
  | RInt x, RFloat f => int_float_eqb x f
  | RFloat f, RInt x => int_float_eqb x f
  | RFloat f, RFloat g => SFeqb f g
  | RList l, RList m =>
      (fix each (l m : list raw) : bool :=
         match l, m with
         | [], [] => true
         | x :: l', y :: m' => py_eq x y && each l' m'
         | _, _ => false
         end) l m
  | RDict d, RDict e =>
      Nat.eqb (length d) (length e) &&
      (fix each (d : list (string * raw)) : bool :=
         match d with
         | [] => true
         | (k, v) :: d' =>
             match Dict.get e k with
             | Some w => py_eq v w && each d'
             | None => false
             end
         end) d
  | _, _ => false
  end.

(** [new_value != old_value] *)
Definition py_ne (a b : ConfigValue) : bool := negb (py_eq (plain a) (plain b)).

Definition diff_entry : Type := string * ConfigValue * ConfigValue.

(** [Config.diff]: the [try] catches [KeyError] and nothing else. *)
Fixpoint diff_loop (self updated_config : Config) (ks : list string)
    (diffs : list diff_entry) : result (list diff_entry) :=
  match ks with
  | [] => Ok diffs
  | k :: ks' =>
      match getitem updated_config k with
      | Raise (KeyError _) => diff_loop self updated_config ks' diffs
      | Raise e => Raise e
      | Ok new_value =>
          match getitem self k with
          | Raise (KeyError _) => diff_loop self updated_config ks' diffs
          | Raise e => Raise e
          | Ok old_value =>
              if py_ne new_value old_value
              then diff_loop self updated_config ks' (diffs ++ [(k, old_value, new_value)])
              else diff_loop self updated_config ks' diffs
          end
      end
  end.

Definition diff (self updated_config : Config) : result (list diff_entry) :=
  diff_loop self updated_config (keys self) [].

(** The entries [Config.apply_diff] accepts: a pair, a triple, or a
    sequence of another length, which it ignores. *)
Inductive diff_item : Type :=
| Item2 (key : string) (new : raw)
| Item3 (key : string) (old new : raw)
| ItemOther.

(** [Config.apply_diff]: an entry whose key is empty is skipped by
    [if key:]. *)
Fixpoint apply_diff (self : Config) (entries : list diff_item)
    : Config * option exn :=
  match entries with
  | [] => (self, None)
  | item :: rest =>
      let key_new :=
        match item with
        | Item2 key new => Some (key, new)
        | Item3 key _ new => Some (key, new)
        | ItemOther => None
        end in
      match key_new with
      | Some (key, new) =>
          if Str.truthy key then
            match setitem self key new with
            | (self', None) => apply_diff self' rest
            | (self', Some e) => (self', Some e)
            end
          else apply_diff self rest
      | None => apply_diff self rest
      end
  end.

(** An entry produced by [diff], as [apply_diff] receives it. *)
Definition entry_item (e : diff_entry) : diff_item :=
  let '(k, old, new) := e in Item3 k (plain old) (plain new).

(** ** Serialisation *)

Section Codec.

(** [json.dumps] and [json.loads]; [None] is a [JSONDecodeError]. *)
Variable json_dumps : raw -> string.
Variable json_loads : string -> option raw.

(** [Config.serialise] *)
Definition serialise (self : Config) : string :=
  (Str.format_opt (parental_path self) ++ ":" ++ json_dumps (plain_config self))%string.

(** [Config.deserialise]: unpacking [raw_string.split(':', 1)] into two
    names raises [ValueError] when there is no colon. *)
Definition deserialise (raw_string : string) : result ConfigValue :=
  match Str.split1 colon raw_string with
  | (pp, Some content_string) =>
      match json_loads content_string with
      | Some decoded_contents => ConfigValue_get decoded_contents (Some pp)
      | None => Raise JSONDecodeError
      end
  | (_, None) => Raise ValueError
  end.

End Codec.

(** ** The manager client *)

(** What the client sees of the outside: the environment variable
    [SS_CONFIG_MANAGER_ENDPOINT] and the file
    [/tmp/ss_config_manager_endpoint] at each polling attempt ([None]: the
    variable is unset, the file cannot be opened), the successive values
    of [time.time()], and what the socket delivers. *)
Record World : Type := {
  environ : nat -> option string;
  endpoint_file : nat -> option string;
  clock : nat -> Z;
  poll_events : Z;
  reply : list string
}.

Inductive event : Type :=
| ReadEnviron
| OpenFile
| Sleep
| Connect (ep : string)
| Send (frames : list string).

(** The methods of [logging.Logger] and the names bound at module level. *)
Definition logger_methods : list string :=
  ["debug"; "info"; "warning"; "warn"; "error"; "exception"; "critical";
   "fatal"; "log"].

Definition module_names : list string :=
  ["time"; "json"; "os"; "zmq"; "logging"; "logger"; "ConfigNotFoundError";
   "ConfigManagerClient"; "Config"; "ConfigValue"; "ConfigString";
   "ConfigInt"; "ConfigFloat"; "ConfigList"].

(** [logger.<method>(...)] *)
Definition logger_call (method : string) : result unit :=
  if existsb (String.eqb method) logger_methods then Ok tt
  else Raise (AttributeError method).

(** Evaluating a global [name] of the module. *)
Definition global_name (name : string) : result unit :=
  if existsb (String.eqb name) module_names then Ok tt
  else Raise (NameError name).

(** The [while] loop of [__get_manager_endpoint], entered with
    [endpoint is None]: [attempt] counts the passes and [reads] the calls
    of [time.time()] so far. [None] when [fuel] passes were not enough. *)
Fixpoint discover (fuel : nat) (w : World) (timeout : option Z)
    (timestamp : Z) (attempt reads : nat) (trace : list event)
    : option (option string * list event) :=
  match fuel with
  | O => None
  | S fuel' =>
      let go_on :=
        match timeout with
        | None => true
        | Some t => Z.ltb (clock w reads) (timestamp + t)
        end in
      let reads' := match timeout with None => reads | Some _ => S reads end in
      if go_on then
        let (endpoint, trace1) :=
          match environ w attempt with
          | Some e => (Some e, trace ++ [ReadEnviron])
          | None => (endpoint_file w attempt, trace ++ [ReadEnviron; OpenFile])
          end in
        let trace2 := trace1 ++ [Sleep] in
        match endpoint with
        | Some e => Some (Some e, trace2)
        | None => discover fuel' w timeout timestamp (S attempt) reads' trace2
        end
      else Some (None, trace)
  end.

(** [ConfigManagerClient.__get_manager_endpoint]: the new [self.endpoint],
    what was done, and the result. *)
Definition get_manager_endpoint (fuel : nat) (self_endpoint : option string)
    (w : World) (timeout : option Z)
    : option (option string * list event * result string) :=
  if Str.truthy_opt self_endpoint then
    Some (self_endpoint, [], Ok (tail_text self_endpoint))
  else
    let timestamp := clock w 0 in
    match discover fuel w timeout timestamp 0 1 [] with
    | None => None
    | Some (None, trace) =>
        Some (self_endpoint, trace,
              Raise (TimeoutError "Timed out while trying to find config manager endpoint"))
    | Some (Some endpoint, trace) => Some (Some endpoint, trace, Ok endpoint)
    end.

(** [msg[-2]] and [msg[-1]] *)
Definition last_two (msg : list string) : result (string * string) :=
  match rev msg with
  | payload :: status :: _ => Ok (status, payload)
  | _ => Raise IndexError
  end.

Section Client.

Variable json_loads : string -> option raw.

(** [get_config] from [res = sock.poll(timeout, zmq.POLLIN)] on. *)
Definition get_config_reply (self_endpoint : option string) (w : World)
    : option string * result ConfigValue :=
  if Z.eqb (poll_events w) 0 then
    (None,
     _ <- logger_call "warning" ;;
     Raise (TimeoutError
              "Timed out while waiting for response from config manager at None"))
  else
    (self_endpoint,
     sp <- last_two (reply w) ;;
     if String.eqb (fst sp) "0" then
       _ <- global_name "config" ;;
       result <- deserialise json_loads (snd sp) ;;
       _ <- logger_call "info" ;;
       Ok result
     else
       _ <- logger_call "error" ;;
       Raise (PlainException (snd sp))).

(** [ConfigManagerClient.get_config]: the new [self.endpoint], what was
    done, and the result. *)
Definition get_config (fuel : nat) (self_endpoint : option string)
    (w : World) (path : string) (timeout : option Z)
    : option (option string * list event * result ConfigValue) :=
  match get_manager_endpoint fuel self_endpoint w timeout with
  | None => None
  | Some (cache, trace, Raise e) => Some (cache, trace, Raise e)
  | Some (cache, trace, Ok ep) =>
      match logger_call "debug" with
      | Raise e => Some (cache, trace, Raise e)
      | Ok _ =>
          let trace1 := trace ++ [Connect ep] in
          match logger_call "debug" with
          | Raise e => Some (cache, trace1, Raise e)
          | Ok _ =>
              let trace2 := trace1 ++ [Send [path]] in
              match logger_call "debuf" with
              | Raise e => Some (cache, trace2, Raise e)
              | Ok _ =>
                  let (cache', r) := get_config_reply cache w in
                  Some (cache', trace2, r)
              end
          end
      end
  end.

End Client.

(** [serialise] of a stored value: the method of [ConfigString],
    [ConfigInt], [ConfigFloat] and [ConfigList] is the one of [Config];
    [None] has none. *)
Definition ConfigValue_serialise (json_dumps : raw -> string) (v : ConfigValue)
    : result string :=
  match v with
  | NoneValue => Raise (AttributeError "serialise")
  | ConfigString _ p | ConfigInt _ p | ConfigFloat _ p | ConfigList _ p =>
      Ok (Str.format_opt p ++ ":" ++ json_dumps (plain v))%string
  | Subtree c => Ok (serialise json_dumps c)
  end.

(** ** Notions the statements use *)

(** A path segment as callers write it: not empty and free of slashes. *)
Definition clean_segment (s : string) : Prop :=
  Str.truthy s = true /\ Str.contains slash s = false.

(** The path made of the segments [segs]. *)
Definition path_of (segs : list string) : string := Str.join "/" segs.

(** One step of the loop of [must_get], [current.get(element)]: the entry
    [element] of [current], when [current] is a [Config] that holds one
    other than [None]. *)
Definition step (current : ConfigValue) (element : string) : option ConfigValue :=
  match current with
  | Subtree c =>
      match Dict.get (items c) element with
      | Some NoneValue => None
      | found => found
      end
  | _ => None
  end.

(** The loop of [must_get] along the segments [path], as long as every
    step finds something. It takes an empty segment for a key like any
    other, which the lookup [self[path]] does not. *)
Fixpoint walk (current : ConfigValue) (path : list string) : option ConfigValue :=
  match path with
  | [] => Some current
  | element :: path' =>
      match step current element with
      | Some next => walk next path'
      | None => None
      end
  end.

(** C8 as the specification words it, for a lookup that fails on a
    missing key: whenever [self[path]] raises [KeyError] for a segment,
    [must_get(path)] raises [ConfigNotFoundError] with the tree, the path
    and that segment. *)
Definition must_get_reports_failed_lookup : Prop :=
  forall (self : Config) (path key : string),
    getitem self path = Raise (KeyError key) ->
    must_get self path = Raise (ConfigNotFoundError self path key).

(** A world for examples: the variable and the file as given at every
    attempt, a clock that shows [now] at every reading, one reply. *)
Definition still_world (env file : option string) (now : Z)
    (events : Z) (frames : list string) : World :=
  {| environ := fun _ => env;
     endpoint_file := fun _ => file;
     clock := fun _ => now;
     poll_events := events;
     reply := frames |}.

(** C10 as the specification words it, for a client with or without a
    cached endpoint and any timeout: with the variable set, the call
    returns the variable's value and does not open the file. *)
Definition locate_returns_environ_always : Prop :=
  forall (fuel : nat) (cache : option string) (w : World)
         (timeout : option Z) (e : string),
    environ w 0 = Some e ->
    exists cache' trace,
      get_manager_endpoint (S fuel) cache w timeout = Some (cache', trace, Ok e) /\
      ~ In OpenFile trace.

(** The entries of a mapping as [json.dumps] sees them. *)
Definition plain_items (d : list (string * ConfigValue)) : list (string * raw) :=
  map (fun kv => (fst kv, plain (snd kv))) d.

(** The leaves of a tree with their full paths: every [Config], at every
    depth, replaced by what is below it. *)
Fixpoint leaves (self : Config) : list (string * ConfigValue) :=
  match self with
  | MkConfig _ d =>
      (fix loop (d : list (string * ConfigValue)) : list (string * ConfigValue) :=
         match d with
         | [] => []
         | (k, Subtree v) :: d' =>
             map (fun kv => ((k ++ "/" ++ fst kv)%string, snd kv)) (leaves v) ++ loop d'
         | (k, v) :: d' => (k, v) :: loop d'
         end) d
  end.

(** A node all of whose entries are leaves, and a tree whose nodes below
    the root are such. *)
Definition flat (c : Config) : bool :=
  forallb (fun kv => negb (is_config (snd kv))) (items c).

Definition two_levels (c : Config) : bool :=
  forallb (fun kv => match snd kv with Subtree v => flat v | _ => true end)
          (items c).

(** Two leaves at the same path holding the same built-in value. *)
Definition same_leaf (a b : string * ConfigValue) : Prop :=
  fst a = fst b /\ plain (snd a) = plain (snd b).

(** The shape of the trees the assignments make: in every node the keys
    are free of slashes and pairwise different. With [strict] they are
    not empty either. *)
Definition key_ok (strict : bool) (k : string) : bool :=
  negb (Str.contains slash k) && (negb strict || Str.truthy k).

Fixpoint value_ok (strict : bool) (v : ConfigValue) : bool :=
  match v with
  | Subtree c => config_ok strict c
  | _ => true
  end
with config_ok (strict : bool) (c : Config) : bool :=
  match c with
  | MkConfig _ d =>
      (fix each (d : list (string * ConfigValue)) : bool :=
         match d with
         | [] => true
         | (k, v) :: d' =>
             key_ok strict k && negb (Dict.mem d' k) && value_ok strict v && each d'
         end) d
  end.

Fixpoint entries_ok (strict : bool) (d : list (string * ConfigValue)) : bool :=
  match d with
  | [] => true
  | (k, v) :: d' =>
      key_ok strict k && negb (Dict.mem d' k) && value_ok strict v
      && entries_ok strict d'
  end.

(** Parental paths as the constructor computes them from the root down:
    every value stored under [key] in a node carries the path of the node,
    a slash and [key] (the key alone under a node without a path). *)
Definition opt_eqb (a b : option string) : bool :=
  match a, b with
  | Some x, Some y => String.eqb x y
  | None, None => true
  | _, _ => false
  end.

Fixpoint value_paths_ok (expected : option string) (v : ConfigValue) : bool :=
  match v with
  | NoneValue => true
  | ConfigString _ p | ConfigInt _ p | ConfigFloat _ p | ConfigList _ p =>
      opt_eqb p expected
  | Subtree c => opt_eqb (parental_path c) expected && config_paths_ok c
  end
with config_paths_ok (c : Config) : bool :=
  match c with
  | MkConfig pp d =>
      (fix each (d : list (string * ConfigValue)) : bool :=
         match d with
         | [] => true
         | (k, v) :: d' =>
             value_paths_ok (Some (child_path (MkConfig pp []) k)) v && each d'
         end) d
  end.

Fixpoint entries_paths_ok (pp : option string) (d : list (string * ConfigValue))
    : bool :=
  match d with
  | [] => true
  | (k, v) :: d' =>
      value_paths_ok (Some (child_path (MkConfig pp []) k)) v
      && entries_paths_ok pp d'
  end.

(** A raw mapping whose keys, at every depth of nested mappings, have no
    slash in them. *)
Fixpoint raw_keys_ok (r : raw) : bool :=
  match r with
  | RDict d =>
      (fix each (d : list (string * raw)) : bool :=
         match d with
         | [] => true
         | (k, v) :: d' => negb (Str.contains slash k) && raw_keys_ok v && each d'
         end) d
  | _ => true
  end.

(** A built-in value that [==] finds equal to itself: no nan in it, and
    no key twice in a mapping. *)
Fixpoint raw_regular (r : raw) : bool :=
  match r with
  | RFloat f => SFeqb f f
  | RList l =>
      (fix each (l : list raw) : bool :=
         match l with
         | [] => true
         | x :: l' => raw_regular x && each l'
         end) l
  | RDict d =>
      (fix each (d : list (string * raw)) : bool :=
         match d with
         | [] => true
         | (k, v) :: d' => negb (Dict.mem d' k) && raw_regular v && each d'
         end) d
  | _ => true
  end.

(** What a polling pass number [i] finds and does: the variable first,
    the file only when the variable is unset, then one sleep. *)
Definition found_at (w : World) (i : nat) : option string :=
  match environ w i with
  | Some e => Some e
  | None => endpoint_file w i
  end.

Definition pass_events (w : World) (i : nat) : list event :=
  match environ w i with
  | Some _ => [ReadEnviron; Sleep]
  | None => [ReadEnviron; OpenFile; Sleep]
  end.

(** The test of the timeout before pass number [i]: the reading number
    [i + 1] of the clock against the first one. *)
Definition in_time (w : World) (timeout : option Z) (i : nat) : bool :=
  match timeout with
  | None => true
  | Some t => Z.ltb (clock w (S i)) (clock w 0 + t)
  end.

(** The events of the passes [0 .. n - 1]. *)
Definition passes (w : World) (n : nat) : list event :=
  concat (map (pass_events w) (seq 0 n)).

(** ** A JSON codec for the examples

    [Json.dumps] writes JSON text the way [json.dumps] lays it out;
    [Json.loads] reads back [None], strings, integers, lists and mappings
    and, of the floats, nan, the infinities and the zeros (a float with a
    fraction is written exactly, in decimal, and not read back). Only the
    quote and the backslash are escaped in strings. *)

Module Json.

Definition quote_char : ascii := Ascii.ascii_of_nat 34.
Definition backslash : ascii := Ascii.ascii_of_nat 92.

Fixpoint escape (s : string) : string :=
  match s with
  | EmptyString => EmptyString
  | String c s' =>
      if Ascii.eqb c quote_char || Ascii.eqb c backslash
      then String backslash (String c (escape s'))
      else String c (escape s')
  end.

Definition quoted (s : string) : string :=
  String quote_char (escape s ++ String quote_char EmptyString).

Definition int_text (z : Z) : string :=
  DecimalString.NilZero.string_of_int (Z.to_int z).

Fixpoint zeros (n : nat) : string :=
  match n with O => EmptyString | S n' => String "0" (zeros n') end.

Definition finite_text (sign : bool) (m : positive) (e : Z) : string :=
  let minus := if sign then "-"%string else EmptyString in
  if Z.leb 0 e then (minus ++ int_text (Z.pos m * 2 ^ e) ++ ".0")%string
  else
    let k := Z.to_nat (- e) in
    let ds := int_text (Z.pos m * 5 ^ (- e)) in
    let ds := (zeros (S k - String.length ds) ++ ds)%string in
    let n := String.length ds - k in
    (minus ++ String.substring 0 n ds ++ "." ++ String.substring n k ds)%string.

Definition float_text (f : spec_float) : string :=
  match f with
  | S754_nan => "NaN"
  | S754_infinity false => "Infinity"
  | S754_infinity true => "-Infinity"
  | S754_zero false => "0.0"
  | S754_zero true => "-0.0"
  | S754_finite sign m e => finite_text sign m e
  end.

Fixpoint dumps (v : raw) : string :=
  match v with
  | RNone => "null"
  | RStr s => quoted s
  | RInt z => int_text z
  | RFloat f => float_text f
  | RList l =>
      ("[" ++ (fix each (l : list raw) : string :=
                 match l with
                 | [] => EmptyString
                 | x :: l' =>
                     match l' with
                     | [] => dumps x
                     | _ :: _ => dumps x ++ ", " ++ each l'
                     end
                 end) l ++ "]")%string
  | RDict d =>
      ("{" ++ (fix each (d : list (string * raw)) : string :=
                 match d with
                 | [] => EmptyString
                 | (k, x) :: d' =>
                     match d' with
                     | [] => quoted k ++ ": " ++ dumps x
                     | _ :: _ => quoted k ++ ": " ++ dumps x ++ ", " ++ each d'
                     end
                 end) d ++ "}")%string
  end.

Definition is_space (c : ascii) : bool :=
  Ascii.eqb c " " || Ascii.eqb c (Ascii.ascii_of_nat 10)
  || Ascii.eqb c (Ascii.ascii_of_nat 13) || Ascii.eqb c (Ascii.ascii_of_nat 9).

Fixpoint skip_space (s : string) : string :=
  match s with
  | String c s' => if is_space c then skip_space s' else s
  | EmptyString => s
  end.

(** The rest of [s] after the literal [lit]. *)
Fixpoint expect (lit s : string) : option string :=
  match lit, s with
  | EmptyString, _ => Some s
  | String a lit', String b s' => if Ascii.eqb a b then expect lit' s' else None
  | String _ _, EmptyString => None
  end.

(** A string literal from after its opening quote. *)
Fixpoint string_body (s : string) : option (string * string) :=
  match s with
  | EmptyString => None
  | String c s' =>
      if Ascii.eqb c quote_char then Some (EmptyString, s')
      else if Ascii.eqb c backslash then
        match s' with
        | String d s'' =>
            if Ascii.eqb d quote_char || Ascii.eqb d backslash then
              match string_body s'' with
              | Some (t, r) => Some (String d t, r)
              | None => None
              end
            else None
        | EmptyString => None
        end
      else
        match string_body s' with
        | Some (t, r) => Some (String c t, r)
        | None => None
        end
  end.

Definition is_number_char (c : ascii) : bool :=
  Ascii.eqb c "-" || Ascii.eqb c "." ||
  (Nat.leb 48 (Ascii.nat_of_ascii c) && Nat.leb (Ascii.nat_of_ascii c) 57).

Fixpoint number_text (s : string) : string * string :=
  match s with
  | String c s' =>
      if is_number_char c then let (t, r) := number_text s' in (String c t, r)
      else (EmptyString, s)
  | EmptyString => (EmptyString, EmptyString)
  end.

Definition number (s : string) : option (raw * string) :=
  let (t, r) := number_text s in
  if String.eqb t "0.0" then Some (RFloat (S754_zero false), r)
  else if String.eqb t "-0.0" then Some (RFloat (S754_zero true), r)
  else match DecimalString.NilZero.int_of_string t with
       | Some i => Some (RInt (Z.of_int i), r)
       | None => None
       end.

Fixpoint value (fuel : nat) (s : string) : option (raw * string) :=
  match fuel with
  | O => None
  | S fuel' =>
      match skip_space s with
      | EmptyString => None
      | String c s' as s0 =>
          if Ascii.eqb c "n" then
            option_map (pair RNone) (expect "null" s0)
          else if Ascii.eqb c "N" then
            option_map (pair (RFloat S754_nan)) (expect "NaN" s0)
          else if Ascii.eqb c "I" then
            option_map (pair (RFloat (S754_infinity false))) (expect "Infinity" s0)
          else if Ascii.eqb c quote_char then
            match string_body s' with
            | Some (t, r) => Some (RStr t, r)
            | None => None
            end
          else if Ascii.eqb c "[" then
            match skip_space s' with
            | String "]" r => Some (RList [], r)
            | _ =>
                match elements fuel' s' with
                | Some (l, r) => Some (RList l, r)
                | None => None
                end
            end
          else if Ascii.eqb c "{" then
            match skip_space s' with
            | String "}" r => Some (RDict [], r)
            | _ =>
                match members fuel' s' with
                | Some (d, r) => Some (RDict d, r)
                | None => None
                end
            end
          else
            match expect "-Infinity" s0 with
            | Some r => Some (RFloat (S754_infinity true), r)
            | None => number s0
            end
      end
  end
with elements (fuel : nat) (s : string) : option (list raw * string) :=
  match fuel with
  | O => None
  | S fuel' =>
      match value fuel' s with
      | Some (x, r) =>
          match skip_space r with
          | String "," r' =>
              match elements fuel' r' with
              | Some (l, r'') => Some (x :: l, r'')
              | None => None
              end
          | String "]" r' => Some ([x], r')
          | _ => None
          end
      | None => None
      end
  end
with members (fuel : nat) (s : string) : option (list (string * raw) * string) :=
  match fuel with
  | O => None
  | S fuel' =>
      match skip_space s with
      | String c s' =>
          if Ascii.eqb c quote_char then
            match string_body s' with
            | Some (k, r) =>
                match skip_space r with
                | String ":" r' =>
                    match value fuel' r' with
                    | Some (x, r2) =>
                        match skip_space r2 with
                        | String "," r3 =>
                            match members fuel' r3 with
                            | Some (d, r4) => Some ((k, x) :: d, r4)
                            | None => None
                            end
                        | String "}" r3 => Some ([(k, x)], r3)
                        | _ => None
                        end
                    | None => None
                    end
                | _ => None
                end
            | None => None
            end
          else None
      | EmptyString => None
      end
  end.

(** [json.loads]: one value and nothing but white space after it. *)
Definition loads (s : string) : option raw :=
  match value (2 * String.length s + 2) s with
  | Some (v, r) =>
      match skip_space r with
      | EmptyString => Some v
      | String _ _ => None
      end
  | None => None
  end.

End Json.

(** ** Paths as lists of segments *)

(** The lookup of [self[path_of segs]] for clean segments, segment by
    segment. *)
Fixpoint lookup (self : Config) (segs : list string) : result ConfigValue :=
  match segs with
  | [] => Ok (Subtree self)
  | seg :: rest =>
      match Dict.get (items self) seg with
      | None => Raise (KeyError seg)
      | Some val =>
          match rest with
          | [] => Ok val
          | _ :: _ =>
              match val with
              | Subtree child => lookup child rest
              | _ => Raise TypeError
              end
          end
      end
  end.

(** The paths of the leaves, as lists of segments, in the order of
    [keys]. *)
Fixpoint leaf_paths (self : Config) : list (list string) :=
  match self with
  | MkConfig _ d =>
      (fix loop (d : list (string * ConfigValue)) : list (list string) :=
         match d with
         | [] => []
         | (k, Subtree v) :: d' => map (cons k) (leaf_paths v) ++ loop d'
         | (k, _) :: d' => [k] :: loop d'
         end) d
  end.

(** One path is a prefix of the other (or they are the same path). *)
Fixpoint comparable (p q : list string) : bool :=
  match p, q with
  | a :: p', b :: q' => String.eqb a b && comparable p' q'
  | _, _ => true
  end.

(** An entry of [diff] with its key as a list of segments. *)
Definition pentry : Type := list string * ConfigValue * ConfigValue.

Definition epath (e : pentry) : list string := fst (fst e).
Definition enew (e : pentry) : ConfigValue := snd e.

(** The entry [diff] emits for the leaf path [p] of [self], if any. *)
Definition diff_at (self updated_config : Config) (p : list string)
    : list pentry :=
  match lookup updated_config p, lookup self p with
  | Ok new_value, Ok old_value =>
      if py_ne new_value old_value then [(p, old_value, new_value)] else []
  | _, _ => []
  end.

Definition entry_of (e : pentry) : diff_entry :=
  let '(p, old, new) := e in (path_of p, old, new).

(** [updated_config] restricted to the keys [ks]: the tree made of those
    of its leaves whose path is among [ks]. *)
Definition restricted (updated_config : Config) (ks : list string) : result Config :=
  from_kvlist
    (map (fun kv => (fst kv, plain (snd kv)))
         (filter (fun kv => existsb (String.eqb (fst kv)) ks) (leaves updated_config))).

(** C7 as the specification words it: applying [A.diff(B)] to [A] gives
    the tree [B] restricted to the keys of [A]. *)
Definition apply_diff_gives_restriction : Prop :=
  forall (A B A' R : Config) (entries : list diff_entry),
    config_ok true A = true -> config_ok true B = true ->
    diff A B = Ok entries ->
    apply_diff A (map entry_item entries) = (A', None) ->
    restricted B (keys A) = Ok R ->
    plain_config A' = plain_config R.

(** No path of the list is a prefix of a later one. *)
Fixpoint prefix_free (l : list (list string)) : Prop :=
  match l with
  | [] => True
  | p :: l' => (forall q, In q l' -> comparable p q = false) /\ prefix_free l'
  end.

(** Trees for the examples. *)
Definition tree_of (contents : list (string * raw)) : Config :=
  match Config_init (Some contents) None with
  | Ok c => c
  | Raise _ => Config_empty None
  end.

Definition plant_old : Config :=
  tree_of [("x", RInt 5); ("y", RInt 1); ("s", RDict [("t", RStr "old")])].

Definition plant_new : Config :=
  tree_of [("x", RInt 6); ("s", RDict [("t", RStr "new"); ("u", RInt 0)]);
           ("z", RList [])].

(** ** Induction on values and trees *)

Section Induction.

Variable P : ConfigValue -> Prop.
Variable Q : Config -> Prop.
Hypothesis P_leaf : forall v, is_config v = false -> P v.
Hypothesis P_subtree : forall c, Q c -> P (Subtree c).
Hypothesis Q_config :
  forall pp d, Forall (fun kv => P (snd kv)) d -> Q (MkConfig pp d).

Fixpoint value_induction (v : ConfigValue) : P v :=
  match v as v0 return P v0 with
  | Subtree c => P_subtree c (config_induction c)
  | NoneValue => P_leaf NoneValue eq_refl
  | ConfigString s p => P_leaf (ConfigString s p) eq_refl
  | ConfigInt z p => P_leaf (ConfigInt z p) eq_refl
  | ConfigFloat f p => P_leaf (ConfigFloat f p) eq_refl
  | ConfigList l p => P_leaf (ConfigList l p) eq_refl
  end
with config_induction (c : Config) : Q c :=
  match c as c0 return Q c0 with
  | MkConfig pp d =>
      Q_config pp d
        ((fix each (d : list (string * ConfigValue))
            : Forall (fun kv => P (snd kv)) d :=
            match d with
            | [] => Forall_nil _
            | kv :: d' => Forall_cons kv (value_induction (snd kv)) (each d')
            end) d)
  end.

End Induction.

Section RawInduction.

Variable P : raw -> Prop.
Hypothesis P_none : P RNone.
Hypothesis P_str : forall s, P (RStr s).
Hypothesis P_int : forall z, P (RInt z).
Hypothesis P_float : forall f, P (RFloat f).
Hypothesis P_list : forall l, Forall P l -> P (RList l).
Hypothesis P_dict : forall d, Forall (fun kv => P (snd kv)) d -> P (RDict d).

Fixpoint raw_induction (r : raw) : P r :=
  match r as r0 return P r0 with
  | RNone => P_none
  | RStr s => P_str s
  | RInt z => P_int z
  | RFloat f => P_float f
  | RList l =>
      P_list l
        ((fix each (l : list raw) : Forall P l :=
            match l with
            | [] => Forall_nil _
            | x :: l' => Forall_cons x (raw_induction x) (each l')
            end) l)
  | RDict d =>
      P_dict d
        ((fix each (d : list (string * raw)) : Forall (fun kv => P (snd kv)) d :=
            match d with
            | [] => Forall_nil _
            | kv :: d' => Forall_cons kv (raw_induction (snd kv)) (each d')
            end) d)
  end.

End RawInduction.

(** * Properties *)

(** ** Strings and dictionaries *)

Lemma truthy_false (s : string) : Str.truthy s = false -> s = EmptyString.
Proof. destruct s; simpl; congruence. Qed.

Lemma truthy_opt_true (o : option string) :
  Str.truthy_opt o = true ->
  exists c t, o = Some (String c t).
Proof.
  destruct o as [[|c t]|]; simpl; try discriminate. intros _. eauto.
Qed.

Lemma split1_length (sep : ascii) (s h t : string) :
  Str.split1 sep s = (h, Some t) ->
  String.length s = S (String.length h + String.length t).
Proof.
  revert h t. induction s as [|c s IH]; simpl; intros h t E.
  - discriminate.
  - destruct (Ascii.eqb c sep).
    + inversion E; subst. reflexivity.
    + destruct (Str.split1 sep s) as [h' t'] eqn:E'.
      inversion E; subst. simpl. rewrite (IH h' t eq_refl). reflexivity.
Qed.

Lemma split1_head_clean (sep : ascii) (s h : string) (t : option string) :
  Str.split1 sep s = (h, t) -> Str.contains sep h = false.
Proof.
  revert h t. induction s as [|c s IH]; simpl; intros h t E.
  - inversion E. reflexivity.
  - destruct (Ascii.eqb c sep) eqn:Ec.
    + inversion E. reflexivity.
    + destruct (Str.split1 sep s) as [h' t'] eqn:E'.
      inversion E; subst. simpl. rewrite Ec. simpl. eapply IH. reflexivity.
Qed.

Lemma split1_clean (sep : ascii) (s : string) :
  Str.contains sep s = false -> Str.split1 sep s = (s, None).
Proof.
  induction s as [|c s IH]; simpl; intros H.
  - reflexivity.
  - apply orb_false_iff in H. destruct H as [Hc Hs].
    rewrite Hc, (IH Hs). reflexivity.
Qed.

Lemma split1_app (sep : ascii) (h t : string) :
  Str.contains sep h = false ->
  Str.split1 sep (h ++ String sep t)%string = (h, Some t).
Proof.
  induction h as [|c h IH]; simpl; intros H.
  - rewrite Ascii.eqb_refl. reflexivity.
  - apply orb_false_iff in H. destruct H as [Hc Hs].
    rewrite Hc, (IH Hs). reflexivity.
Qed.

Lemma split_not_nil (sep : ascii) (s : string) : Str.split sep s <> [].
Proof.
  destruct s as [|c s]; simpl.
  - discriminate.
  - destruct (Ascii.eqb c sep); [discriminate|].
    destruct (Str.split sep s); discriminate.
Qed.

Lemma join_cons (sep p : string) (q : string) (rest : list string) :
  Str.join sep (p :: q :: rest) = (p ++ sep ++ Str.join sep (q :: rest))%string.
Proof. reflexivity. Qed.

(** ['/'.join(path.split('/'))] is [path] again. *)
Lemma join_split (sep : ascii) (s : string) :
  Str.join (String sep EmptyString) (Str.split sep s) = s.
Proof.
  induction s as [|c s IH]; simpl.
  - reflexivity.
  - destruct (Ascii.eqb c sep) eqn:Ec.
    + apply Ascii.eqb_eq in Ec. subst c.
      destruct (Str.split sep s) as [|q rest] eqn:Es.
      * exfalso. eapply split_not_nil; eauto.
      * rewrite join_cons, IH. reflexivity.
    + destruct (Str.split sep s) as [|q rest] eqn:Es.
      * exfalso. eapply split_not_nil; eauto.
      * destruct rest as [|q' rest].
        -- simpl in *. congruence.
        -- change (Str.join (String sep EmptyString) (String c q :: q' :: rest))
             with (String c (Str.join (String sep EmptyString) (q :: q' :: rest))).
           rewrite IH. reflexivity.
Qed.

Lemma dict_get_set_same {V : Type} (d : list (string * V)) (k : string) (v : V) :
  Dict.get (Dict.set d k v) k = Some v.
Proof.
  induction d as [|[k' v'] d IH]; simpl.
  - rewrite String.eqb_refl. reflexivity.
  - destruct (String.eqb k' k) eqn:E; simpl; rewrite E; auto.
Qed.

Lemma dict_get_set_other {V : Type} (d : list (string * V)) (k k2 : string) (v : V) :
  k <> k2 -> Dict.get (Dict.set d k v) k2 = Dict.get d k2.
Proof.
  intros N. induction d as [|[k' v'] d IH]; simpl.
  - destruct (String.eqb_spec k k2); congruence.
  - destruct (String.eqb_spec k' k); simpl.
    + subst k'. destruct (String.eqb_spec k k2); congruence.
    + destruct (String.eqb_spec k' k2); auto.
Qed.

Lemma dict_mem_get {V : Type} (d : list (string * V)) (k : string) :
  Dict.mem d k = true -> exists v, Dict.get d k = Some v.
Proof. unfold Dict.mem. destruct (Dict.get d k); eauto; discriminate. Qed.

(** ** The recursion of [__getitem__] and [__setitem__]

    The fuel the definitions start from is always enough, so both satisfy
    the equations of the source, with the recursive call in place. *)

Lemma getitem_rec_fuel (n m : nat) (self : Config) (raw_key : string) :
  String.length raw_key < n -> String.length raw_key < m ->
  getitem_rec n self raw_key = getitem_rec m self raw_key.
Proof.
  revert m self raw_key.
  induction n as [|n IH]; intros m self raw_key Hn Hm; [lia|].
  destruct m as [|m]; [lia|]. simpl.
  destruct (Str.split1 slash raw_key) as [key key_tail] eqn:E.
  destruct key_tail as [t|]; simpl.
  - pose proof (split1_length _ _ _ _ E) as L.
    destruct (negb (Str.truthy key) && Str.truthy t).
    + apply IH; lia.
    + destruct (Dict.get (items self) key) as [val|]; [|reflexivity].
      destruct (Str.truthy t); [|reflexivity].
      destruct val; try reflexivity. apply IH; lia.
  - rewrite andb_false_r. reflexivity.
Qed.

Lemma getitem_eq (self : Config) (raw_key : string) :
  getitem self raw_key =
  let (key, key_tail) := Str.split1 slash raw_key in
  if negb (Str.truthy key) && Str.truthy_opt key_tail then
    getitem self (tail_text key_tail)
  else
    match Dict.get (items self) key with
    | None => Raise (KeyError key)
    | Some val =>
        if Str.truthy_opt key_tail then
          match val with
          | Subtree child => getitem child (tail_text key_tail)
          | _ => Raise TypeError
          end
        else Ok val
    end.
Proof.
  unfold getitem at 1. simpl.
  destruct (Str.split1 slash raw_key) as [key key_tail] eqn:E.
  destruct key_tail as [t|]; simpl.
  - pose proof (split1_length _ _ _ _ E) as L.
    destruct (negb (Str.truthy key) && Str.truthy t).
    + apply getitem_rec_fuel; lia.
    + destruct (Dict.get (items self) key) as [val|]; [|reflexivity].
      destruct (Str.truthy t); [|reflexivity].
      destruct val; try reflexivity. apply getitem_rec_fuel; lia.
  - rewrite andb_false_r. reflexivity.
Qed.

Lemma setitem_rec_fuel (wrap : option string -> result ConfigValue)
    (n m : nat) (self : Config) (raw_key : string) :
  String.length raw_key < n -> String.length raw_key < m ->
  setitem_rec wrap n self raw_key = setitem_rec wrap m self raw_key.
Proof.
  revert m self raw_key.
  induction n as [|n IH]; intros m self raw_key Hn Hm; [lia|].
  destruct m as [|m]; [lia|]. simpl.
  destruct (Str.split1 slash raw_key) as [key key_tail] eqn:E.
  destruct key_tail as [t|]; simpl.
  - pose proof (split1_length _ _ _ _ E) as L.
    destruct (negb (Str.truthy key) && Str.truthy t).
    + apply IH; lia.
    + destruct (Str.truthy t); simpl; [|reflexivity].
      match goal with |- match Dict.get ?d key with _ => _ end = _ =>
        destruct (Dict.get d key) as [val|]; [|reflexivity] end.
      destruct val; try reflexivity.
      rewrite (IH m c t) by lia. reflexivity.
  - rewrite andb_false_r. reflexivity.
Qed.

Lemma setitem_with_eq (wrap : option string -> result ConfigValue)
    (self : Config) (raw_key : string) :
  setitem_with wrap self raw_key =
  let (key, key_tail) := Str.split1 slash raw_key in
  if negb (Str.truthy key) && Str.truthy_opt key_tail then
    setitem_with wrap self (tail_text key_tail)
  else if negb (Str.truthy_opt key_tail) then
    match wrap (Some (child_path self key)) with
    | Ok val => (store self key val, None)
    | Raise e => (self, Some e)
    end
  else
    let self1 :=
      if Dict.mem (items self) key then self
      else store self key (Subtree (Config_empty None)) in
    match Dict.get (items self1) key with
    | Some (Subtree child) =>
        let (child', r) := setitem_with wrap child (tail_text key_tail) in
        (store self1 key (Subtree child'), r)
    | Some _ => (self1, Some TypeError)
    | None => (self1, Some (KeyError key))
    end.
Proof.
  unfold setitem_with at 1. simpl.
  destruct (Str.split1 slash raw_key) as [key key_tail] eqn:E.
  destruct key_tail as [t|]; simpl.
  - pose proof (split1_length _ _ _ _ E) as L.
    destruct (negb (Str.truthy key) && Str.truthy t).
    + apply setitem_rec_fuel; lia.
    + destruct (Str.truthy t); simpl; [|reflexivity].
      match goal with |- match Dict.get ?d key with _ => _ end = _ =>
        destruct (Dict.get d key) as [val|]; [|reflexivity] end.
      destruct val; try reflexivity.
      unfold setitem_with.
      rewrite (setitem_rec_fuel wrap _ (S (String.length t)) c t) by lia.
      reflexivity.
  - rewrite andb_false_r. reflexivity.
Qed.

(** ** Assignment followed by lookup *)

Lemma getitem_setitem_with (wrap : option string -> result ConfigValue) :
  forall (n : nat) (raw_key : string) (self self' : Config),
    String.length raw_key < n ->
    setitem_with wrap self raw_key = (self', None) ->
    exists path v, wrap path = Ok v /\ getitem self' raw_key = Ok v.
Proof.
  induction n as [|n IH]; intros raw_key self self' Hn; [lia|].
  rewrite setitem_with_eq, getitem_eq.
  destruct (Str.split1 slash raw_key) as [key key_tail] eqn:E.
  destruct (negb (Str.truthy key) && Str.truthy_opt key_tail) eqn:Eskip.
  - apply andb_true_iff in Eskip. destruct Eskip as [_ Ht].
    destruct (truthy_opt_true _ Ht) as (c & t & ->).
    pose proof (split1_length _ _ _ _ E) as L. simpl tail_text.
    intros H. apply (IH (String c t) self self'); [simpl in *; lia|exact H].
  - destruct (Str.truthy_opt key_tail) eqn:Ht; simpl negb; cbv iota.
    + destruct (truthy_opt_true _ Ht) as (c & t & ->).
      pose proof (split1_length _ _ _ _ E) as L. simpl tail_text.
      cbv zeta.
      set (self1 := if Dict.mem (items self) key then self
                    else store self key (Subtree (Config_empty None))).
      destruct (Dict.get (items self1) key) as [val|];
        [|intros H; discriminate H].
      destruct val; try (intros H; discriminate H).
      destruct (setitem_with wrap c0 (String c t)) as [child' r] eqn:Ec.
      intros H. inversion H; subst. simpl items.
      rewrite dict_get_set_same.
      apply (IH (String c t) c0 child'); [simpl in *; lia|exact Ec].
    + destruct (wrap (Some (child_path self key))) as [val|e] eqn:Ew;
        [|intros H; discriminate H].
      intros H. inversion H; subst. simpl items.
      rewrite dict_get_set_same. eauto.
Qed.

(** [self[raw_key] = value; self[raw_key]] gives the wrapped [value], for
    every key. *)
Lemma getitem_after_setitem (self self' : Config) (raw_key : string) (value : raw) :
  setitem self raw_key value = (self', None) ->
  exists path v, ConfigValue_get value path = Ok v /\ getitem self' raw_key = Ok v.
Proof.
  intros H. eapply getitem_setitem_with with (n := S (String.length raw_key)); eauto.
Qed.

Lemma clean_truthy (s : string) : clean_segment s -> Str.truthy s = true.
Proof. intros [H _]. exact H. Qed.

Lemma path_of_cons_truthy (seg : string) (rest : list string) :
  clean_segment seg -> Str.truthy (path_of (seg :: rest)) = true.
Proof.
  intros [H _]. unfold path_of. destruct rest; simpl.
  - exact H.
  - destruct seg; [discriminate|reflexivity].
Qed.

Lemma split1_path_single (seg : string) :
  clean_segment seg -> Str.split1 slash (path_of [seg]) = (seg, None).
Proof. intros [_ H]. apply split1_clean. exact H. Qed.

Lemma split1_path_cons (seg q : string) (rest : list string) :
  clean_segment seg ->
  Str.split1 slash (path_of (seg :: q :: rest)) = (seg, Some (path_of (q :: rest))).
Proof.
  intros [_ H]. unfold path_of. rewrite join_cons.
  change ("/" ++ Str.join "/" (q :: rest))%string
    with (String slash (Str.join "/" (q :: rest))).
  apply split1_app. exact H.
Qed.

(** The unfolding of an assignment and of a lookup at a path of two or
    more clean segments: both go down into the entry of the first. *)
Lemma setitem_with_path_cons (wrap : option string -> result ConfigValue)
    (self : Config) (seg q : string) (rest : list string) :
  clean_segment seg -> clean_segment q ->
  setitem_with wrap self (path_of (seg :: q :: rest)) =
  let self1 :=
    if Dict.mem (items self) seg then self
    else store self seg (Subtree (Config_empty None)) in
  match Dict.get (items self1) seg with
  | Some (Subtree child) =>
      let (child', r) := setitem_with wrap child (path_of (q :: rest)) in
      (store self1 seg (Subtree child'), r)
  | Some _ => (self1, Some TypeError)
  | None => (self1, Some (KeyError seg))
  end.
Proof.
  intros Hs Hq. rewrite setitem_with_eq, (split1_path_cons _ _ _ Hs).
  simpl Str.truthy_opt. rewrite (clean_truthy _ Hs), (path_of_cons_truthy _ _ Hq).
  reflexivity.
Qed.

Lemma setitem_with_path_single (wrap : option string -> result ConfigValue)
    (self : Config) (seg : string) :
  clean_segment seg ->
  setitem_with wrap self (path_of [seg]) =
  match wrap (Some (child_path self seg)) with
  | Ok val => (store self seg val, None)
  | Raise e => (self, Some e)
  end.
Proof.
  intros Hs. rewrite setitem_with_eq, (split1_path_single _ Hs).
  simpl Str.truthy_opt. rewrite andb_false_r. reflexivity.
Qed.

Lemma getitem_path_cons (self : Config) (seg q : string) (rest : list string) :
  clean_segment seg -> clean_segment q ->
  getitem self (path_of (seg :: q :: rest)) =
  match Dict.get (items self) seg with
  | None => Raise (KeyError seg)
  | Some (Subtree child) => getitem child (path_of (q :: rest))
  | Some _ => Raise TypeError
  end.
Proof.
  intros Hs Hq. rewrite getitem_eq, (split1_path_cons _ _ _ Hs).
  simpl Str.truthy_opt. rewrite (clean_truthy _ Hs), (path_of_cons_truthy _ _ Hq).
  simpl. destruct (Dict.get (items self) seg) as [[]|]; reflexivity.
Qed.

Lemma getitem_path_single (self : Config) (seg : string) :
  clean_segment seg ->
  getitem self (path_of [seg]) =
  match Dict.get (items self) seg with
  | None => Raise (KeyError seg)
  | Some val => Ok val
  end.
Proof.
  intros Hs. rewrite getitem_eq, (split1_path_single _ Hs).
  simpl Str.truthy_opt. rewrite andb_false_r. reflexivity.
Qed.

Lemma dict_set_same {V : Type} (d : list (string * V)) (k : string) (v : V) :
  Dict.get d k = Some v -> Dict.set d k v = d.
Proof.
  induction d as [|[k' v'] d IH]; simpl; [discriminate|].
  destruct (String.eqb k' k); intros H.
  - inversion H. reflexivity.
  - rewrite (IH H). reflexivity.
Qed.

Lemma store_same (self : Config) (k : string) (v : ConfigValue) :
  Dict.get (items self) k = Some v -> store self k v = self.
Proof.
  intros H. unfold store. rewrite (dict_set_same _ _ _ H).
  destruct self; reflexivity.
Qed.

(** After a successful assignment every proper prefix of the path holds
    a [Config]. *)
Lemma prefixes_are_subtrees (wrap : option string -> result ConfigValue) :
  forall (segs : list string) (self self' : Config),
    Forall clean_segment segs ->
    setitem_with wrap self (path_of segs) = (self', None) ->
    forall i, 0 < i < length segs ->
      exists c, getitem self' (path_of (firstn i segs)) = Ok (Subtree c).
Proof.
  induction segs as [|seg rest IH]; intros self self' Hc Hset i Hi;
    [simpl in Hi; lia|].
  destruct rest as [|q rest]; [simpl in Hi; lia|].
  inversion Hc as [|? ? Hseg Hrest]; subst.
  inversion Hrest as [|? ? Hq _]; subst.
  rewrite (setitem_with_path_cons _ _ _ _ _ Hseg Hq) in Hset. cbv zeta in Hset.
  set (self1 := if Dict.mem (items self) seg then self
                else store self seg (Subtree (Config_empty None))) in *.
  destruct (Dict.get (items self1) seg) as [val|]; [|discriminate].
  destruct val; try discriminate.
  destruct (setitem_with wrap c (path_of (q :: rest))) as [child' r] eqn:Ec.
  inversion Hset; subst.
  destruct i as [|[|j]]; [lia| |].
  - exists child'. change (firstn 1 (seg :: q :: rest)) with [seg].
    rewrite (getitem_path_single _ _ Hseg). simpl items.
    rewrite dict_get_set_same. reflexivity.
  - change (firstn (S (S j)) (seg :: q :: rest))
      with (seg :: q :: firstn j rest).
    rewrite (getitem_path_cons _ _ _ _ Hseg Hq). simpl items.
    rewrite dict_get_set_same.
    apply (IH c child' Hrest Ec (S j)). simpl in *. lia.
Qed.

(** An assignment whose first segment is absent cannot fail on the way
    down: every node it goes through is one it has just made. *)
Lemma setitem_fresh_succeeds (wrap : option string -> result ConfigValue) :
  (forall pp, exists v, wrap pp = Ok v) ->
  forall (segs : list string) (self : Config),
    Forall clean_segment segs -> segs <> [] ->
    Dict.mem (items self) (hd EmptyString segs) = false ->
    snd (setitem_with wrap self (path_of segs)) = None.
Proof.
  intros Hw. induction segs as [|seg rest IH]; intros self Hc Hne Habs;
    [congruence|].
  inversion Hc as [|? ? Hseg Hrest]; subst. simpl in Habs.
  destruct rest as [|q rest].
  - rewrite (setitem_with_path_single _ _ _ Hseg).
    destruct (Hw (Some (child_path self seg))) as [v ->]. reflexivity.
  - inversion Hrest as [|? ? Hq _]; subst.
    rewrite (setitem_with_path_cons _ _ _ _ _ Hseg Hq). cbv zeta.
    rewrite Habs. simpl items. rewrite dict_get_set_same.
    specialize (IH (Config_empty None) Hrest ltac:(discriminate) eq_refl).
    destruct (setitem_with wrap (Config_empty None) (path_of (q :: rest)))
      as [child' r]. exact IH.
Qed.

(** An assignment succeeds when no proper prefix of its path holds a
    leaf: the nodes on the way are there or are made. *)
Lemma setitem_succeeds_without_leaf (wrap : option string -> result ConfigValue) :
  (forall pp, exists v, wrap pp = Ok v) ->
  forall (segs : list string) (self : Config),
    Forall clean_segment segs -> segs <> [] ->
    (forall i leaf, 0 < i < length segs ->
       getitem self (path_of (firstn i segs)) = Ok leaf ->
       is_config leaf = true) ->
    snd (setitem_with wrap self (path_of segs)) = None.
Proof.
  intros Hw. induction segs as [|a rest IH]; intros self Hc Hne Hfree;
    [congruence|].
  inversion Hc as [|? ? Ha Hrest]; subst.
  destruct rest as [|c rest].
  - rewrite (setitem_with_path_single _ _ _ Ha).
    destruct (Hw (Some (child_path self a))) as [v ->]. reflexivity.
  - inversion Hrest as [|? ? Hcq _]; subst.
    destruct (Dict.mem (items self) a) eqn:Hm.
    + rewrite (setitem_with_path_cons _ _ _ _ _ Ha Hcq). cbv zeta. rewrite Hm.
      destruct (dict_mem_get _ _ Hm) as [val G]. rewrite G.
      assert (Hval : is_config val = true).
      { apply (Hfree 1 val); [simpl; lia|].
        change (firstn 1 (a :: c :: rest)) with [a].
        rewrite (getitem_path_single _ _ Ha), G. reflexivity. }
      destruct val; try discriminate Hval.
      specialize (IH c0 Hrest ltac:(discriminate)).
      destruct (setitem_with wrap c0 (path_of (c :: rest))) as [child' r].
      apply IH. intros i leaf Hi Hg.
      apply (Hfree (S i) leaf); [simpl in *; lia|].
      destruct i as [|i]; [lia|].
      change (firstn (S (S i)) (a :: c :: rest)) with (a :: c :: firstn i rest).
      rewrite (getitem_path_cons _ _ _ _ Ha Hcq), G. exact Hg.
    + apply (setitem_fresh_succeeds wrap Hw); [exact Hc|discriminate|exact Hm].
Qed.

(** C2. From the empty tree, [set("a/b/c", 5)] makes [get("a/b/c")] return
    5 and leaves a Subtree at [a] and at [a/b]. In general, after an
    assignment at a path of segments the lookup of the path returns the
    wrapped value and every proper prefix of the path holds a Subtree, and
    the assignment succeeds, making the intermediate nodes that are absent,
    unless a proper prefix of the path holds a leaf. *)
Theorem C2_set_creates_intermediate_subtrees :
  (exists t,
      setitem (Config_empty None) "a/b/c" (RInt 5) = (t, None) /\
      getitem t "a/b/c" = Ok (ConfigInt 5 (Some "c")) /\
      (exists a, getitem t "a" = Ok (Subtree a)) /\
      (exists b, getitem t "a/b" = Ok (Subtree b))) /\
  (forall (self self' : Config) (segs : list string) (value : raw),
      Forall clean_segment segs ->
      setitem self (path_of segs) value = (self', None) ->
      (exists path v,
          ConfigValue_get value path = Ok v /\
          getitem self' (path_of segs) = Ok v) /\
      (forall i, 0 < i < length segs ->
         exists c, getitem self' (path_of (firstn i segs)) = Ok (Subtree c))) /\
  (forall (self : Config) (segs : list string) (value : raw),
      Forall clean_segment segs -> segs <> [] ->
      (forall i leaf, 0 < i < length segs ->
         getitem self (path_of (firstn i segs)) = Ok leaf ->
         is_config leaf = true) ->
      (forall pp, exists v, ConfigValue_get value pp = Ok v) ->
      snd (setitem self (path_of segs) value) = None).
Proof.
  split; [|split].
  - eexists. split; [reflexivity|]. split; [reflexivity|].
    split; eexists; reflexivity.
  - intros self self' segs value Hc Hset. split.
    + apply (getitem_after_setitem _ _ _ _ Hset).
    + apply (prefixes_are_subtrees _ _ _ _ Hc Hset).
  - intros self segs value Hc Hne Hfree Hw.
    apply setitem_succeeds_without_leaf; assumption.
Qed.

(** Two instances: the Subtree at [x/y] after [set("x/y/z", "v")] on the
    empty tree, and the same assignment where [x] is there already. *)
Lemma C2_witness :
  (exists c,
      getitem (fst (setitem (Config_empty None) "x/y/z" (RStr "v")))
              (path_of (firstn 2 ["x"; "y"; "z"])) = Ok (Subtree c)) /\
  snd (setitem (MkConfig None [("x", Subtree (Config_empty (Some "x")))])
               (path_of ["x"; "y"; "z"]) (RStr "v")) = None.
Proof.
  destruct C2_set_creates_intermediate_subtrees as (_ & H & G). split.
  - refine (proj2 (H (Config_empty None) _ ["x"; "y"; "z"] (RStr "v") _ _) 2 _).
    + repeat constructor.
    + reflexivity.
    + simpl. lia.
  - apply G.
    + repeat constructor.
    + discriminate.
    + intros i leaf Hi Hg. simpl in Hi.
      destruct i as [|[|[|i]]]; try lia.
      * vm_compute in Hg. inversion Hg. reflexivity.
      * vm_compute in Hg. discriminate Hg.
    + intros pp. eexists. reflexivity.
Defined.

(** ** Assignment through a leaf *)

(** C3. When the lookup of a proper prefix of the path finds a value that
    is not a Subtree, an assignment at the path raises (a [TypeError]: the
    leaf does not support item assignment) and leaves the tree as it was. *)
Theorem C3_set_through_leaf_fails :
  forall (segs : list string) (self : Config) (i : nat) (leaf : ConfigValue)
         (value : raw),
    Forall clean_segment segs ->
    0 < i < length segs ->
    getitem self (path_of (firstn i segs)) = Ok leaf ->
    is_config leaf = false ->
    setitem self (path_of segs) value = (self, Some TypeError).
Proof.
  unfold setitem. intros segs self i leaf value. revert self i.
  induction segs as [|seg rest IH]; intros self i Hc Hi Hget Hleaf;
    [simpl in Hi; lia|].
  destruct rest as [|q rest]; [simpl in Hi; lia|].
  inversion Hc as [|? ? Hseg Hrest]; subst.
  inversion Hrest as [|? ? Hq _]; subst.
  rewrite (setitem_with_path_cons _ _ _ _ _ Hseg Hq). cbv zeta.
  destruct i as [|[|j]]; [lia| |].
  - change (firstn 1 (seg :: q :: rest)) with [seg] in Hget.
    rewrite (getitem_path_single _ _ Hseg) in Hget.
    destruct (Dict.get (items self) seg) as [val|] eqn:Eg; [|discriminate].
    inversion Hget; subst val.
    unfold Dict.mem. rewrite Eg, Eg.
    destruct leaf; try reflexivity. discriminate.
  - change (firstn (S (S j)) (seg :: q :: rest))
      with (seg :: q :: firstn j rest) in Hget.
    rewrite (getitem_path_cons _ _ _ _ Hseg Hq) in Hget.
    destruct (Dict.get (items self) seg) as [val|] eqn:Eg; [|discriminate].
    destruct val; try discriminate.
    unfold Dict.mem. rewrite Eg, Eg.
    rewrite (IH c (S j) Hrest ltac:(simpl in *; lia) Hget Hleaf).
    rewrite (store_same _ _ _ Eg). reflexivity.
Qed.

(** The example of the specification: [set("a", 1); set("a/b", 2)]. *)
Lemma C3_witness :
  setitem (fst (setitem (Config_empty None) "a" (RInt 1))) "a/b" (RInt 2)
  = (MkConfig None [("a", ConfigInt 1 (Some "a"))], Some TypeError).
Proof.
  refine (C3_set_through_leaf_fails ["a"; "b"] _ 1 (ConfigInt 1 (Some "a"))
            (RInt 2) _ _ _ _).
  - repeat constructor.
  - simpl. lia.
  - reflexivity.
  - reflexivity.
Defined.

(** ** [must_get] *)

Lemma must_get_loop_fails (self : Config) (path : list string) :
  forall (done : list string) (start current : ConfigValue)
         (element : string) (rest : list string),
    walk start done = Some current ->
    step current element = None ->
    must_get_loop self path start (done ++ element :: rest)
    = Raise (ConfigNotFoundError self (Str.join "/" path) element).
Proof.
  induction done as [|d done IH]; intros start current element rest Hw Hs.
  - simpl in Hw. inversion Hw; subst. simpl.
    unfold step in Hs. destruct current; try reflexivity.
    destruct (Dict.get (items c) element) as [[]|]; try discriminate; reflexivity.
  - simpl in Hw. destruct (step start d) as [next|] eqn:Es; [|discriminate].
    simpl. unfold step in Es. destruct start; try discriminate.
    destruct (Dict.get (items c) d) as [[]|]; try discriminate;
      inversion Es; subst; eapply IH; eauto.
Qed.

(** [must_get] on a path whose walk fails at [element]. *)
Lemma must_get_fails (self : Config) (path : string) (done : list string)
    (element : string) (rest : list string) (current : ConfigValue) :
  Str.split slash path = done ++ element :: rest ->
  walk (Subtree self) done = Some current ->
  step current element = None ->
  must_get self path = Raise (ConfigNotFoundError self path element).
Proof.
  intros Hsplit Hw Hs.
  unfold must_get. rewrite Hsplit at 2.
  rewrite (must_get_loop_fails self _ done _ current element rest Hw Hs).
  change "/" with (String slash EmptyString). rewrite join_split. reflexivity.
Qed.

(** ** The client *)

Lemma logger_debuf : logger_call "debuf" = Raise (AttributeError "debuf").
Proof. reflexivity. Qed.

(** C9. A call that finds the endpoint in the environment and has a reply
    with status 0 waiting raises [AttributeError] at [logger.debuf], after
    sending the request and before polling; and no call of [get_config]
    returns a value, whatever the reply. *)
Theorem C9_get_config_raises_before_reply :
  forall (json_loads : string -> option raw),
    get_config json_loads 1 None
      (still_world (Some "tcp://127.0.0.1:5555") None 0 1 ["0"; "None:{}"])
      "a" None
    = Some (Some "tcp://127.0.0.1:5555",
            [ReadEnviron; Sleep; Connect "tcp://127.0.0.1:5555"; Send ["a"]],
            Raise (AttributeError "debuf")) /\
    forall (fuel : nat) (cache : option string) (w : World) (path : string)
           (timeout : option Z),
      match get_config json_loads fuel cache w path timeout with
      | Some (_, _, Ok _) => False
      | _ => True
      end.
Proof.
  intros json_loads. split; [reflexivity|].
  intros fuel cache w path timeout. unfold get_config.
  destruct (get_manager_endpoint fuel cache w timeout) as [[[c tr] [ep|e]]|];
    exact I.
Qed.

(** Past [logger.debuf], the branch for status 0 evaluates the name
    [config], which the module does not bind; the other branch raises the
    payload. *)
Lemma get_config_reply_status_0 (json_loads : string -> option raw)
    (cache : option string) (w : World) (frames : list string) (payload : string) :
  poll_events w <> 0%Z ->
  reply w = frames ++ ["0"; payload] ->
  get_config_reply json_loads cache w = (cache, Raise (NameError "config")).
Proof.
  intros Hp Hr. unfold get_config_reply.
  destruct (Z.eqb_spec (poll_events w) 0) as [H|_]; [contradiction|].
  unfold last_two. rewrite Hr, rev_app_distr. reflexivity.
Qed.

Lemma get_config_reply_status_other (json_loads : string -> option raw)
    (cache : option string) (w : World) (frames : list string)
    (status payload : string) :
  poll_events w <> 0%Z ->
  reply w = frames ++ [status; payload] ->
  status <> "0" ->
  get_config_reply json_loads cache w = (cache, Raise (PlainException payload)).
Proof.
  intros Hp Hr Hs. unfold get_config_reply.
  destruct (Z.eqb_spec (poll_events w) 0) as [H|_]; [contradiction|].
  unfold last_two. rewrite Hr, rev_app_distr. simpl.
  destruct (String.eqb_spec status "0"); [contradiction|reflexivity].
Qed.

(** C10, counterexample: with the variable set and a timeout of 0 the
    loop is not entered and the call raises [TimeoutError]. *)
Lemma C10_counterexample : ~ locate_returns_environ_always.
Proof.
  intros H.
  destruct (H 0 None (still_world (Some "tcp://m:1") None 0 1 []) (Some 0%Z)
              "tcp://m:1" eq_refl) as (cache' & trace & E & _).
  discriminate E.
Qed.

(** C10, amended. Without a cached endpoint: if the variable is set and
    the timeout is absent or not over at the first test, the call returns
    the variable's value after one pass that does not open the file; if
    the timeout is 0 and the clock has not gone back, the call raises
    [TimeoutError] at once, before it looks at the variable or the file.
    With a cached endpoint the call returns it. *)
Theorem C10_locate :
  forall (fuel : nat) (cache : option string) (w : World),
    (Str.truthy_opt cache = false ->
     forall (timeout : option Z) (e : string),
       environ w 0 = Some e ->
       match timeout with
       | None => True
       | Some t => (clock w 1 < clock w 0 + t)%Z
       end ->
       get_manager_endpoint (S fuel) cache w timeout
       = Some (Some e, [ReadEnviron; Sleep], Ok e) /\
       ~ In OpenFile [ReadEnviron; Sleep]) /\
    (Str.truthy_opt cache = false ->
     (clock w 0 <= clock w 1)%Z ->
     get_manager_endpoint (S fuel) cache w (Some 0%Z)
     = Some (cache, [],
             Raise (TimeoutError
                      "Timed out while trying to find config manager endpoint"))) /\
    (forall (timeout : option Z) (ep : string),
       cache = Some ep -> Str.truthy ep = true ->
       get_manager_endpoint fuel cache w timeout = Some (cache, [], Ok ep)).
Proof.
  intros fuel cache w. split; [|split].
  - intros Hc timeout e He Ht. split.
    + unfold get_manager_endpoint. rewrite Hc. simpl.
      destruct timeout as [t|].
      * apply Z.ltb_lt in Ht. rewrite Ht, He. reflexivity.
      * rewrite He. reflexivity.
    + simpl. intros [H|[H|[]]]; discriminate H.
  - intros Hc Hm. unfold get_manager_endpoint. rewrite Hc. simpl.
    replace (clock w 1 <? clock w 0 + 0)%Z with false; [reflexivity|].
    symmetry. apply Z.ltb_ge. lia.
  - intros timeout ep -> Ht. unfold get_manager_endpoint. simpl.
    rewrite Ht. reflexivity.
Qed.

(** A timeout of 0 with nothing published, and the variable found with
    the timeout still running. *)
Lemma C10_witness :
  get_manager_endpoint 1 None
    (still_world None None 7 0 []) (Some 0%Z)
  = Some (None, [],
          Raise (TimeoutError
                   "Timed out while trying to find config manager endpoint")) /\
  get_manager_endpoint 1 None
    (still_world (Some "tcp://m:1") (Some "tcp://file:2") 7 0 []) (Some 5%Z)
  = Some (Some "tcp://m:1", [ReadEnviron; Sleep], Ok "tcp://m:1").
Proof.
  split.
  - refine (proj1 (proj2 (C10_locate 0 None (still_world None None 7 0 []))) _ _).
    + reflexivity.
    + simpl. lia.
  - refine (proj1 (proj1 (C10_locate 0 None
              (still_world (Some "tcp://m:1") (Some "tcp://file:2") 7 0 []))
              _ (Some 5%Z) "tcp://m:1" _ _)).
    + reflexivity.
    + reflexivity.
    + simpl. lia.
Defined.

(** ** The definitions by nested recursion, entry by entry *)

Lemma plain_config_eq (pp : option string) (d : list (string * ConfigValue)) :
  plain_config (MkConfig pp d) = RDict (plain_items d).
Proof.
  simpl. f_equal. induction d as [|[k v] d IH]; simpl; [reflexivity|].
  rewrite IH. reflexivity.
Qed.

Lemma keys_nil (pp : option string) : keys (MkConfig pp []) = [].
Proof. reflexivity. Qed.

Lemma keys_cons (pp : option string) (k : string) (v : ConfigValue)
    (d : list (string * ConfigValue)) :
  keys (MkConfig pp ((k, v) :: d)) =
  match v with
  | Subtree c => map (fun sub => (k ++ "/" ++ sub)%string) (keys c)
  | _ => [k]
  end ++ keys (MkConfig pp d).
Proof. destruct v; reflexivity. Qed.

Lemma leaves_nil (pp : option string) : leaves (MkConfig pp []) = [].
Proof. reflexivity. Qed.

Lemma leaves_cons (pp : option string) (k : string) (v : ConfigValue)
    (d : list (string * ConfigValue)) :
  leaves (MkConfig pp ((k, v) :: d)) =
  match v with
  | Subtree c => map (fun kv => ((k ++ "/" ++ fst kv)%string, snd kv)) (leaves c)
  | _ => [(k, v)]
  end ++ leaves (MkConfig pp d).
Proof. destruct v; reflexivity. Qed.

Lemma config_ok_eq (strict : bool) (pp : option string)
    (d : list (string * ConfigValue)) :
  config_ok strict (MkConfig pp d) = entries_ok strict d.
Proof.
  simpl. induction d as [|[k v] d IH]; simpl; [reflexivity|].
  rewrite IH. reflexivity.
Qed.

Lemma ConfigValue_get_dict (d : list (string * raw)) (pp : option string) :
  ConfigValue_get (RDict d) pp =
  (c <- init_loop ConfigValue_get d (Config_empty pp) ;; Ok (Subtree c)).
Proof.
  simpl. f_equal. generalize (Config_empty pp).
  induction d as [|[k v] d IH]; intros self; simpl; [reflexivity|].
  destruct (setitem_with (ConfigValue_get v) self k) as [self' [e|]];
    [reflexivity|apply IH].
Qed.

(** The keys are the paths of the leaves. *)
Lemma keys_leaves : forall c, keys c = map fst (leaves c).
Proof.
  apply (config_induction (fun v => forall c, v = Subtree c -> keys c = map fst (leaves c))
           (fun c => keys c = map fst (leaves c))).
  - intros v Hv c ->. discriminate Hv.
  - intros c H c' E. inversion E; subst. exact H.
  - intros pp d H. induction H as [|[k v] d Hv _ IH].
    + reflexivity.
    + rewrite keys_cons, leaves_cons, map_app, IH. f_equal.
      destruct v; try reflexivity.
      simpl in Hv. rewrite (Hv c eq_refl), !map_map. reflexivity.
Qed.

(** ** The shape of the trees *)

Lemma dict_mem_set {V : Type} (d : list (string * V)) (k k2 : string) (v : V) :
  Dict.mem (Dict.set d k v) k2 = String.eqb k k2 || Dict.mem d k2.
Proof.
  unfold Dict.mem. destruct (String.eqb_spec k k2) as [->|N].
  - rewrite dict_get_set_same. reflexivity.
  - rewrite (dict_get_set_other _ _ _ _ N). reflexivity.
Qed.

Lemma dict_set_fresh {V : Type} (d : list (string * V)) (k : string) (v : V) :
  Dict.mem d k = false -> Dict.set d k v = d ++ [(k, v)].
Proof.
  unfold Dict.mem. induction d as [|[k' v'] d IH]; simpl; [reflexivity|].
  destruct (String.eqb k' k); [discriminate|].
  intros H. rewrite (IH H). reflexivity.
Qed.

Lemma dict_mem_app {V : Type} (d e : list (string * V)) (k : string) :
  Dict.mem (d ++ e) k = Dict.mem d k || Dict.mem e k.
Proof.
  unfold Dict.mem. induction d as [|[k' v'] d IH]; simpl; [reflexivity|].
  destruct (String.eqb k' k); [reflexivity|exact IH].
Qed.

Lemma dict_mem_in {V : Type} (d : list (string * V)) (k : string) :
  In k (map fst d) -> Dict.mem d k = true.
Proof.
  unfold Dict.mem. induction d as [|[k' v'] d IH]; simpl; [tauto|].
  intros [->|H].
  - rewrite String.eqb_refl. reflexivity.
  - destruct (String.eqb k' k); [reflexivity|exact (IH H)].
Qed.

Lemma entries_ok_cons (strict : bool) (k : string) (v : ConfigValue)
    (d : list (string * ConfigValue)) :
  entries_ok strict ((k, v) :: d) = true ->
  key_ok strict k = true /\ Dict.mem d k = false /\
  value_ok strict v = true /\ entries_ok strict d = true.
Proof.
  simpl. intros H.
  apply andb_true_iff in H. destruct H as [H H4].
  apply andb_true_iff in H. destruct H as [H H3].
  apply andb_true_iff in H. destruct H as [H1 H2].
  apply negb_true_iff in H2. auto.
Qed.

Lemma entries_ok_intro (strict : bool) (k : string) (v : ConfigValue)
    (d : list (string * ConfigValue)) :
  key_ok strict k = true -> Dict.mem d k = false ->
  value_ok strict v = true -> entries_ok strict d = true ->
  entries_ok strict ((k, v) :: d) = true.
Proof. simpl. intros -> -> -> ->. reflexivity. Qed.

Lemma entries_ok_get (strict : bool) (d : list (string * ConfigValue))
    (k : string) (v : ConfigValue) :
  entries_ok strict d = true -> Dict.get d k = Some v -> value_ok strict v = true.
Proof.
  induction d as [|[k' v'] d IH]; [discriminate|].
  intros H G. apply entries_ok_cons in H. destruct H as (_ & _ & Hv & Hd).
  simpl in G. destruct (String.eqb k' k).
  - inversion G; subst. exact Hv.
  - exact (IH Hd G).
Qed.

Lemma entries_ok_set (strict : bool) (d : list (string * ConfigValue))
    (k : string) (v : ConfigValue) :
  entries_ok strict d = true -> key_ok strict k = true ->
  value_ok strict v = true -> entries_ok strict (Dict.set d k v) = true.
Proof.
  intros Hd Hk Hv. induction d as [|[k' v'] d IH].
  - simpl. rewrite Hk, Hv. reflexivity.
  - apply entries_ok_cons in Hd. destruct Hd as (Hk' & Hm & Hv' & Hd).
    simpl Dict.set. destruct (String.eqb_spec k' k) as [->|N].
    + apply entries_ok_intro; assumption.
    + apply entries_ok_intro; auto.
      rewrite dict_mem_set, Hm.
      destruct (String.eqb_spec k k'); [congruence|reflexivity].
Qed.

Lemma store_ok (strict : bool) (self : Config) (k : string) (v : ConfigValue) :
  config_ok strict self = true -> key_ok strict k = true ->
  value_ok strict v = true -> config_ok strict (store self k v) = true.
Proof.
  destruct self as [pp d]. unfold store. rewrite !config_ok_eq. simpl.
  apply entries_ok_set.
Qed.

Lemma config_ok_get (strict : bool) (self : Config) (k : string) (v : ConfigValue) :
  config_ok strict self = true -> Dict.get (items self) k = Some v ->
  value_ok strict v = true.
Proof.
  destruct self as [pp d]. rewrite config_ok_eq. simpl. apply entries_ok_get.
Qed.

Lemma split1_key_ok (raw_key key : string) (key_tail : option string) :
  Str.split1 slash raw_key = (key, key_tail) -> key_ok false key = true.
Proof.
  intros E. unfold key_ok. rewrite (split1_head_clean _ _ _ _ E). reflexivity.
Qed.

(** An assignment, also one that raises, leaves a tree of this shape. *)
Lemma setitem_with_ok (wrap : option string -> result ConfigValue) :
  (forall pp v, wrap pp = Ok v -> value_ok false v = true) ->
  forall (n : nat) (raw_key : string) (self self' : Config) (r : option exn),
    String.length raw_key < n ->
    config_ok false self = true ->
    setitem_with wrap self raw_key = (self', r) ->
    config_ok false self' = true.
Proof.
  intros Hw. induction n as [|n IH]; intros raw_key self self' r Hn Hok; [lia|].
  rewrite setitem_with_eq.
  destruct (Str.split1 slash raw_key) as [key key_tail] eqn:E.
  pose proof (split1_key_ok _ _ _ E) as Hkey.
  destruct (negb (Str.truthy key) && Str.truthy_opt key_tail) eqn:Eskip.
  - apply andb_true_iff in Eskip. destruct Eskip as [_ Ht].
    destruct (truthy_opt_true _ Ht) as (c & t & ->).
    pose proof (split1_length _ _ _ _ E) as L. simpl tail_text.
    intros H. apply (IH (String c t) self self' r); [simpl in *; lia|exact Hok|exact H].
  - destruct (Str.truthy_opt key_tail) eqn:Ht; simpl negb; cbv iota.
    + destruct (truthy_opt_true _ Ht) as (c & t & ->).
      pose proof (split1_length _ _ _ _ E) as L. simpl tail_text. cbv zeta.
      set (self1 := if Dict.mem (items self) key then self
                    else store self key (Subtree (Config_empty None))).
      assert (Hok1 : config_ok false self1 = true).
      { subst self1. destruct (Dict.mem (items self) key); [exact Hok|].
        apply store_ok; auto. }
      destruct (Dict.get (items self1) key) as [val|] eqn:Eg.
      * destruct val;
          try (intros H; inversion H; subst; exact Hok1).
        destruct (setitem_with wrap c0 (String c t)) as [child' r'] eqn:Ec.
        intros H. inversion H; subst.
        apply store_ok; auto. simpl.
        apply (IH (String c t) c0 child' r); [simpl in *; lia| |exact Ec].
        apply (config_ok_get false self1 key (Subtree c0) Hok1 Eg).
      * intros H; inversion H; subst; exact Hok1.
    + destruct (wrap (Some (child_path self key))) as [val|e] eqn:Ew;
        intros H; inversion H; subst; [|exact Hok].
      apply store_ok; eauto.
Qed.

Lemma init_loop_ok (d : list (string * raw)) :
  Forall (fun kv => forall pp v,
            ConfigValue_get (snd kv) pp = Ok v -> value_ok false v = true) d ->
  forall self c,
    config_ok false self = true ->
    init_loop ConfigValue_get d self = Ok c ->
    config_ok false c = true.
Proof.
  induction 1 as [|[k v] d Hv _ IH]; intros self c Hok; simpl.
  - intros H. inversion H; subst. exact Hok.
  - destruct (setitem_with (ConfigValue_get v) self k) as [self' [e|]] eqn:Es;
      [discriminate|].
    apply IH.
    eapply (setitem_with_ok _ Hv (S (String.length k))); eauto.
Qed.

(** Whatever [ConfigValue.get] builds has slash-free, pairwise different
    keys in every node. *)
Lemma ConfigValue_get_ok :
  forall (value : raw) (pp : option string) (v : ConfigValue),
    ConfigValue_get value pp = Ok v -> value_ok false v = true.
Proof.
  induction value as [| | | |l _|d IH] using raw_induction; intros pp v;
    try (simpl; intros H; inversion H; reflexivity).
  rewrite ConfigValue_get_dict.
  destruct (init_loop ConfigValue_get d (Config_empty pp)) as [c|e] eqn:E;
    simpl; intros H; inversion H; subst.
  simpl. exact (init_loop_ok d IH (Config_empty pp) c eq_refl E).
Qed.

Lemma Config_init_ok (contents : option (list (string * raw)))
    (pp : option string) (c : Config) :
  Config_init contents pp = Ok c -> config_ok false c = true.
Proof.
  destruct contents as [d|]; simpl.
  - apply init_loop_ok; [|reflexivity].
    apply Forall_forall. intros kv _ pp' v. apply ConfigValue_get_ok.
  - intros H. inversion H. reflexivity.
Qed.

Lemma setitem_ok (self self' : Config) (raw_key : string) (value : raw)
    (r : option exn) :
  config_ok false self = true ->
  setitem self raw_key value = (self', r) ->
  config_ok false self' = true.
Proof.
  intros Hok H.
  eapply (setitem_with_ok _ (ConfigValue_get_ok value) (S (String.length raw_key)));
    eauto.
Qed.

(** ** Wrapping again what a tree holds *)

Lemma setitem_with_direct (wrap : option string -> result ConfigValue)
    (self : Config) (key : string) :
  Str.contains slash key = false ->
  setitem_with wrap self key =
  match wrap (Some (child_path self key)) with
  | Ok val => (store self key val, None)
  | Raise e => (self, Some e)
  end.
Proof.
  intros H. rewrite setitem_with_eq, (split1_clean _ _ H).
  simpl Str.truthy_opt. rewrite andb_false_r. reflexivity.
Qed.

Lemma key_ok_clean (strict : bool) (k : string) :
  key_ok strict k = true -> Str.contains slash k = false.
Proof.
  unfold key_ok. intros H. apply andb_true_iff in H. destruct H as [H _].
  apply negb_true_iff in H. exact H.
Qed.

(** The loop of [Config.__init__] over the entries of a tree of the right
    shape stores a new wrapping of each entry, in the same order. *)
Lemma rewrap_loop (d : list (string * ConfigValue)) :
  Forall (fun kv =>
            value_ok false (snd kv) = true ->
            forall pp, exists v',
              ConfigValue_get (plain (snd kv)) pp = Ok v' /\
              plain v' = plain (snd kv)) d ->
  entries_ok false d = true ->
  forall (pp : option string) (acc : list (string * ConfigValue)),
    (forall k, In k (map fst d) -> Dict.mem acc k = false) ->
    exists d',
      init_loop ConfigValue_get (plain_items d) (MkConfig pp acc)
      = Ok (MkConfig pp (acc ++ d')) /\
      plain_items d' = plain_items d.
Proof.
  induction 1 as [|[k v] d Hv _ IH]; intros Hok pp acc Hfresh.
  - exists []. rewrite app_nil_r. split; reflexivity.
  - apply entries_ok_cons in Hok. destruct Hok as (Hk & Hm & Hvok & Hd).
    simpl in Hv. simpl plain_items. simpl init_loop.
    rewrite (setitem_with_direct _ _ _ (key_ok_clean _ _ Hk)).
    destruct (Hv Hvok (Some (child_path (MkConfig pp acc) k))) as (v' & -> & Hp).
    unfold store. simpl parental_path. simpl items.
    rewrite (dict_set_fresh acc k v') by (apply Hfresh; left; reflexivity).
    destruct (IH Hd pp (acc ++ [(k, v')])) as (d' & E & Hd').
    + intros k2 Hin. rewrite dict_mem_app, (Hfresh k2 (or_intror Hin)).
      unfold Dict.mem. simpl.
      destruct (String.eqb_spec k k2) as [->|_]; [|reflexivity].
      rewrite (dict_mem_in d k2 Hin) in Hm. discriminate Hm.
    + exists ((k, v') :: d'). split.
      * rewrite E, <- app_assoc. reflexivity.
      * simpl. rewrite Hp, Hd'. reflexivity.
Qed.

(** [ConfigValue.get] applied to the built-in value of a stored value
    succeeds and gives a value with the same built-in value: the same
    entries and leaves, with other parental paths. *)
Lemma rewrap_value :
  forall v, value_ok false v = true ->
  forall pp, exists v',
    ConfigValue_get (plain v) pp = Ok v' /\ plain v' = plain v.
Proof.
  apply (value_induction
           (fun v => value_ok false v = true ->
                     forall pp, exists v',
                       ConfigValue_get (plain v) pp = Ok v' /\ plain v' = plain v)
           (fun c => config_ok false c = true ->
                     forall pp, exists c',
                       init_loop ConfigValue_get (plain_items (items c))
                                 (Config_empty pp) = Ok c' /\
                       plain_config c' = plain_config c)).
  - intros v Hv _ pp. destruct v; try discriminate Hv; eexists; split; reflexivity.
  - intros c IH Hok pp. destruct c as [cp d].
    destruct (IH Hok pp) as (c' & E & Hp).
    exists (Subtree c').
    change (plain (Subtree (MkConfig cp d))) with (plain_config (MkConfig cp d)).
    change (plain (Subtree c')) with (plain_config c').
    rewrite plain_config_eq, ConfigValue_get_dict.
    simpl items in E. rewrite E. split; [reflexivity|].
    rewrite Hp, plain_config_eq. reflexivity.
  - intros cp d IH Hok pp. rewrite config_ok_eq in Hok.
    destruct (rewrap_loop d IH Hok pp []) as (d' & E & Hd').
    + intros k _. reflexivity.
    + exists (MkConfig pp d'). split; [exact E|].
      rewrite !plain_config_eq, Hd'. reflexivity.
Qed.

Lemma rewrap_config (c : Config) (pp : option string) :
  config_ok false c = true ->
  exists c',
    ConfigValue_get (plain_config c) pp = Ok (Subtree c') /\
    plain_config c' = plain_config c.
Proof.
  intros Hok. destruct (rewrap_value (Subtree c) Hok pp) as (v' & E & Hp).
  change (plain (Subtree c)) with (plain_config c) in E, Hp. destruct c as [cp d].
  rewrite plain_config_eq, ConfigValue_get_dict in E.
  destruct (init_loop ConfigValue_get (plain_items d) (Config_empty pp)) as [c'|e] eqn:El;
    simpl in E; inversion E; subst.
  exists c'. split.
  - rewrite plain_config_eq, ConfigValue_get_dict, El. reflexivity.
  - exact Hp.
Qed.

(** Trees with the same built-in value have the same leaves. *)
Lemma same_plain_leaves :
  forall c c', plain_config c = plain_config c' ->
               Forall2 same_leaf (leaves c) (leaves c').
Proof.
  apply (config_induction
           (fun v => forall c, v = Subtree c ->
                     forall c', plain_config c = plain_config c' ->
                                Forall2 same_leaf (leaves c) (leaves c'))
           (fun c => forall c', plain_config c = plain_config c' ->
                                Forall2 same_leaf (leaves c) (leaves c'))).
  - intros v Hv c ->. discriminate Hv.
  - intros c H c0 E. inversion E; subst. exact H.
  - intros pp d IH [pp' d']. rewrite !plain_config_eq. intros E.
    inversion E as [E']. clear E. revert d' E'.
    induction IH as [|[k v] d Hv _ IHd]; intros [|[k' v'] d'] E';
      try discriminate E'.
    + constructor.
    + simpl in E'. inversion E' as [[Ek Ev Ed]]. subst k'.
      rewrite !leaves_cons. apply Forall2_app; [|exact (IHd d' Ed)].
      destruct v as [| | | | |c]; destruct v' as [| | | | |c0];
        try discriminate Ev;
        try (destruct c0; discriminate Ev);
        try (destruct c; discriminate Ev);
        try (constructor; [split; [reflexivity|exact Ev]|constructor]).
      simpl in Hv. specialize (Hv c eq_refl c0 Ev).
      induction Hv as [|a b la lb [Hab1 Hab2] _ IHl]; simpl; constructor; auto.
      split; simpl; congruence.
Qed.

(** ** Serialisation round trip *)

Lemma split1_colon (head rest : string) :
  Str.contains colon head = false ->
  Str.split1 colon (head ++ ":" ++ rest)%string = (head, Some rest).
Proof. intros H. apply (split1_app colon head rest H). Qed.

(** A tree of the right shape whose parental path has no colon, and
    whose JSON text the codec reads back, comes back from
    [deserialise(serialise())] with the same built-in value. *)
Lemma serialise_round_trip
    (json_dumps : raw -> string) (json_loads : string -> option raw) (t : Config) :
  config_ok false t = true ->
  Str.contains colon (Str.format_opt (parental_path t)) = false ->
  json_loads (json_dumps (plain_config t)) = Some (plain_config t) ->
  exists t',
    deserialise json_loads (serialise json_dumps t) = Ok (Subtree t') /\
    plain_config t' = plain_config t.
Proof.
  intros Hok Hc Hj. unfold deserialise, serialise.
  rewrite (split1_colon _ _ Hc), Hj.
  apply rewrap_config. exact Hok.
Qed.

Lemma Config_init_path (contents : list (string * raw)) (pp : option string)
    (t : Config) :
  Config_init (Some contents) pp = Ok t -> parental_path t = pp.
Proof.
  simpl. change pp with (parental_path (Config_empty pp)) at 2.
  generalize (Config_empty pp). induction contents as [|[k v] d IH]; intros self; simpl.
  - intros H. inversion H. reflexivity.
  - destruct (setitem_with (ConfigValue_get v) self k) as [self' [e|]] eqn:Es;
      [discriminate|].
    intros H. rewrite (IH _ H). clear H IH.
    revert self self' Es. generalize (ConfigValue_get v) as wrap. intros wrap.
    assert (G : forall n raw_key self self' r,
               String.length raw_key < n ->
               setitem_with wrap self raw_key = (self', r) ->
               parental_path self' = parental_path self).
    { induction n as [|n IHn]; intros raw_key self self' r Hn; [lia|].
      rewrite setitem_with_eq.
      destruct (Str.split1 slash raw_key) as [key key_tail] eqn:E.
      destruct (negb (Str.truthy key) && Str.truthy_opt key_tail) eqn:Eskip.
      - apply andb_true_iff in Eskip. destruct Eskip as [_ Ht].
        destruct (truthy_opt_true _ Ht) as (c & t0 & ->).
        pose proof (split1_length _ _ _ _ E) as L. simpl tail_text.
        apply IHn. simpl in *; lia.
      - destruct (Str.truthy_opt key_tail) eqn:Ht; simpl negb; cbv iota.
        + cbv zeta.
          assert (H1 : parental_path
                         (if Dict.mem (items self) key then self
                          else store self key (Subtree (Config_empty None)))
                       = parental_path self)
            by (destruct (Dict.mem (items self) key); reflexivity).
          destruct (Dict.get _ key) as [val|];
            [|intros H; inversion H; subst; exact H1].
          destruct val; try (intros H; inversion H; subst; exact H1).
          destruct (setitem_with wrap c (tail_text key_tail)) as [child' r'].
          intros H; inversion H; subst. exact H1.
        + destruct (wrap (Some (child_path self key)));
            intros H; inversion H; subst; reflexivity. }
    intros self self' Es. eapply (G (S (String.length k))); eauto.
Qed.



(** ** Leaf paths *)

Lemma config_induction_simple (Q : Config -> Prop) :
  (forall pp d,
      Forall (fun kv => forall c, snd kv = Subtree c -> Q c) d ->
      Q (MkConfig pp d)) ->
  forall c, Q c.
Proof.
  intros H.
  apply (config_induction (fun v => forall c, v = Subtree c -> Q c) Q).
  - intros v Hv c ->. discriminate Hv.
  - intros c Hc c' E. inversion E; subst. exact Hc.
  - exact H.
Qed.

Lemma lookup_single (c : Config) (seg : string) :
  lookup c [seg] =
  match Dict.get (items c) seg with
  | None => Raise (KeyError seg)
  | Some val => Ok val
  end.
Proof. reflexivity. Qed.

Lemma lookup_cons (c : Config) (seg q : string) (rest : list string) :
  lookup c (seg :: q :: rest) =
  match Dict.get (items c) seg with
  | None => Raise (KeyError seg)
  | Some (Subtree child) => lookup child (q :: rest)
  | Some _ => Raise TypeError
  end.
Proof. simpl. destruct (Dict.get (items c) seg) as [[]|]; reflexivity. Qed.

(** On clean segments [__getitem__] is the lookup segment by segment. *)
Lemma getitem_lookup :
  forall (p : list string) (c : Config),
    Forall clean_segment p -> p <> [] ->
    getitem c (path_of p) = lookup c p.
Proof.
  induction p as [|seg rest IH]; intros c Hc Hne; [congruence|].
  inversion Hc as [|? ? Hseg Hrest]; subst.
  destruct rest as [|q rest].
  - rewrite (getitem_path_single _ _ Hseg), lookup_single. reflexivity.
  - inversion Hrest as [|? ? Hq _]; subst.
    rewrite (getitem_path_cons _ _ _ _ Hseg Hq), lookup_cons.
    destruct (Dict.get (items c) seg) as [[]|]; try reflexivity.
    apply IH; [assumption|discriminate].
Qed.

Lemma leaf_paths_nil (pp : option string) : leaf_paths (MkConfig pp []) = [].
Proof. reflexivity. Qed.

Lemma leaf_paths_cons (pp : option string) (k : string) (v : ConfigValue)
    (d : list (string * ConfigValue)) :
  leaf_paths (MkConfig pp ((k, v) :: d)) =
  match v with
  | Subtree c => map (cons k) (leaf_paths c)
  | _ => [[k]]
  end ++ leaf_paths (MkConfig pp d).
Proof. destruct v; reflexivity. Qed.

Lemma leaf_paths_nonempty (c : Config) (p : list string) :
  In p (leaf_paths c) -> p <> [].
Proof.
  destruct c as [pp d]. induction d as [|[k v] d IH].
  - simpl. tauto.
  - rewrite leaf_paths_cons. intros H. apply in_app_or in H.
    destruct H as [H|H]; [|exact (IH H)].
    destruct v; try (destruct H as [<-|[]]; discriminate).
    apply in_map_iff in H. destruct H as (q & <- & _). discriminate.
Qed.

Lemma path_of_cons (k : string) (p : list string) :
  p <> [] -> path_of (k :: p) = (k ++ "/" ++ path_of p)%string.
Proof. destruct p; [congruence|reflexivity]. Qed.

(** [keys] lists the leaf paths. *)
Lemma keys_leaf_paths : forall c, keys c = map path_of (leaf_paths c).
Proof.
  apply config_induction_simple. intros pp d H.
  induction H as [|[k v] d Hv _ IH].
  - reflexivity.
  - rewrite keys_cons, leaf_paths_cons, map_app, IH. f_equal.
    destruct v; try reflexivity.
    simpl in Hv. rewrite (Hv c eq_refl), !map_map.
    apply map_ext_in. intros q Hq.
    rewrite (path_of_cons k q (leaf_paths_nonempty _ _ Hq)). reflexivity.
Qed.

Lemma key_ok_strict (k : string) : key_ok true k = true -> clean_segment k.
Proof.
  unfold key_ok. intros H. apply andb_true_iff in H. destruct H as [H1 H2].
  apply negb_true_iff in H1. split; assumption.
Qed.

Lemma dict_get_in {V : Type} (d : list (string * V)) (k : string) (v : V) :
  Dict.get d k = Some v -> In (k, v) d.
Proof.
  induction d as [|[k' v'] d IH]; simpl; [discriminate|].
  destruct (String.eqb_spec k' k) as [->|_].
  - intros H. inversion H. left. reflexivity.
  - intros H. right. exact (IH H).
Qed.

Lemma dict_get_mem {V : Type} (d : list (string * V)) (k : string) (v : V) :
  Dict.get d k = Some v -> Dict.mem d k = true.
Proof. unfold Dict.mem. intros ->. reflexivity. Qed.

(** A leaf path starts with a key of the node; what follows is nothing,
    under a leaf, or a leaf path of the Config stored there. *)
Lemma leaf_paths_spec (pp : option string) (d : list (string * ConfigValue))
    (p : list string) :
  entries_ok true d = true ->
  In p (leaf_paths (MkConfig pp d)) ->
  exists k rest v,
    p = k :: rest /\ Dict.get d k = Some v /\ clean_segment k /\
    ((rest = [] /\ is_config v = false) \/
     (exists c, v = Subtree c /\ In rest (leaf_paths c))).
Proof.
  induction d as [|[k v] d IH]; intros Hok.
  - simpl. tauto.
  - apply entries_ok_cons in Hok. destruct Hok as (Hk & Hm & Hv & Hd).
    rewrite leaf_paths_cons. intros H. apply in_app_or in H.
    destruct H as [H|H].
    + assert (G : Dict.get ((k, v) :: d) k = Some v)
        by (simpl; rewrite String.eqb_refl; reflexivity).
      destruct v as [| | | | |c];
        try (destruct H as [<-|[]];
             eexists k, [], _; split; [reflexivity|]; split; [exact G|];
             split; [apply key_ok_strict; exact Hk|];
             left; split; reflexivity).
      apply in_map_iff in H. destruct H as (q & <- & Hq).
      exists k, q, (Subtree c).
      split; [reflexivity|]. split; [exact G|].
      split; [apply key_ok_strict; exact Hk|].
      right. exists c. split; [reflexivity|exact Hq].
    + destruct (IH Hd H) as (k2 & rest & v2 & -> & G & Hc & Hr).
      exists k2, rest, v2.
      split; [reflexivity|]. split; [|split; assumption].
      simpl. destruct (String.eqb_spec k k2) as [->|_]; [|exact G].
      rewrite (dict_get_mem _ _ _ G) in Hm. discriminate Hm.
Qed.

(** In a tree with clean keys every leaf path is made of clean segments
    and looks up to a leaf. *)
Lemma leaf_paths_lookup :
  forall c, config_ok true c = true ->
  forall p, In p (leaf_paths c) ->
            Forall clean_segment p /\
            exists v, lookup c p = Ok v /\ is_config v = false.
Proof.
  apply (config_induction_simple
           (fun c => config_ok true c = true ->
                     forall p, In p (leaf_paths c) ->
                               Forall clean_segment p /\
                               exists v, lookup c p = Ok v /\ is_config v = false)).
  intros pp d IH Hok p Hp. rewrite config_ok_eq in Hok.
  destruct (leaf_paths_spec pp d p Hok Hp) as (k & rest & v & -> & G & Hc & Hr).
  destruct Hr as [[-> Hleaf]|(c & -> & Hrest)].
  - split; [constructor; [exact Hc|constructor]|].
    exists v. rewrite lookup_single. simpl items. rewrite G. auto.
  - rewrite Forall_forall in IH.
    destruct (IH (k, Subtree c) (dict_get_in _ _ _ G) c eq_refl
                 (entries_ok_get true d k (Subtree c) Hok G) rest Hrest)
      as (Hcl & v & Hl & Hleaf).
    split; [constructor; assumption|].
    exists v. destruct rest as [|q rest];
      [exact (False_ind _ (leaf_paths_nonempty _ _ Hrest eq_refl))|].
    rewrite lookup_cons. simpl items. rewrite G. auto.
Qed.

Lemma comparable_sym (p q : list string) : comparable p q = comparable q p.
Proof.
  revert q. induction p as [|a p IH]; intros [|b q]; simpl; try reflexivity.
  rewrite IH, String.eqb_sym. reflexivity.
Qed.

Lemma prefix_free_app (l1 l2 : list (list string)) :
  prefix_free l1 -> prefix_free l2 ->
  (forall p q, In p l1 -> In q l2 -> comparable p q = false) ->
  prefix_free (l1 ++ l2).
Proof.
  induction l1 as [|p l1 IH]; simpl; intros H1 H2 H; [exact H2|].
  destruct H1 as [Hp H1]. split.
  - intros q Hq. apply in_app_or in Hq. destruct Hq as [Hq|Hq]; auto.
  - apply IH; auto.
Qed.

Lemma prefix_free_map_cons (k : string) (l : list (list string)) :
  prefix_free l -> prefix_free (map (cons k) l).
Proof.
  induction l as [|p l IH]; simpl; [tauto|].
  intros [Hp Hl]. split; [|exact (IH Hl)].
  intros q Hq. apply in_map_iff in Hq. destruct Hq as (q' & <- & Hq').
  simpl. rewrite String.eqb_refl. exact (Hp q' Hq').
Qed.

(** In a tree with clean keys no leaf path is a prefix of another. *)
Lemma leaf_paths_prefix_free :
  forall c, config_ok true c = true -> prefix_free (leaf_paths c).
Proof.
  apply (config_induction_simple
           (fun c => config_ok true c = true -> prefix_free (leaf_paths c))).
  intros pp d IH. rewrite config_ok_eq.
  induction IH as [|[k v] d Hv _ IHd]; intros Hok.
  - exact I.
  - apply entries_ok_cons in Hok. destruct Hok as (Hk & Hm & Hvok & Hd).
    rewrite leaf_paths_cons. apply prefix_free_app.
    + destruct v; try (split; [intros q []|exact I]).
      apply prefix_free_map_cons. exact (Hv c eq_refl Hvok).
    + exact (IHd Hd).
    + intros p q Hp Hq.
      destruct (leaf_paths_spec pp d q Hd Hq) as (k2 & rest & v2 & -> & G & _).
      assert (Hne : String.eqb k k2 = false).
      { destruct (String.eqb_spec k k2) as [->|_]; [|reflexivity].
        rewrite (dict_get_mem _ _ _ G) in Hm. discriminate Hm. }
      destruct v; try (destruct Hp as [<-|[]]; simpl; rewrite Hne; reflexivity).
      apply in_map_iff in Hp. destruct Hp as (p' & <- & _).
      simpl. rewrite Hne. reflexivity.
Qed.

(** ** Assignment at a path that exists *)

Lemma lookup_head (t t' : Config) (b : string) (q : list string) :
  Dict.get (items t') b = Dict.get (items t) b ->
  lookup t' (b :: q) = lookup t (b :: q).
Proof. intros H. simpl. rewrite H. reflexivity. Qed.

Lemma comparable_false_cons (p q : list string) :
  comparable p q = false ->
  exists a p' b q', p = a :: p' /\ q = b :: q' /\
                    (a <> b \/ (a = b /\ comparable p' q' = false)).
Proof.
  destruct p as [|a p']; [discriminate|].
  destruct q as [|b q']; [discriminate|].
  simpl. intros H. exists a, p', b, q'. split; [reflexivity|]. split; [reflexivity|].
  destruct (String.eqb_spec a b) as [->|N]; [right|left]; auto.
Qed.

(** An assignment at an existing path succeeds when the value can be
    wrapped. *)
Lemma update_succeeds (wrap : option string -> result ConfigValue) :
  (forall pp, exists v, wrap pp = Ok v) ->
  forall (p : list string) (t : Config) (vp : ConfigValue),
    Forall clean_segment p -> p <> [] ->
    lookup t p = Ok vp ->
    exists t', setitem_with wrap t (path_of p) = (t', None).
Proof.
  intros Hw. induction p as [|a rest IH]; intros t vp Hc Hne Hl; [congruence|].
  inversion Hc as [|? ? Ha Hrest]; subst.
  destruct rest as [|c rest].
  - rewrite (setitem_with_path_single _ _ _ Ha).
    destruct (Hw (Some (child_path t a))) as [v ->]. eauto.
  - inversion Hrest as [|? ? Hcq _]; subst.
    rewrite (setitem_with_path_cons _ _ _ _ _ Ha Hcq). cbv zeta.
    rewrite lookup_cons in Hl.
    destruct (Dict.get (items t) a) as [val|] eqn:G; [|discriminate].
    destruct val; try discriminate.
    unfold Dict.mem. rewrite G, G.
    destruct (IH c0 vp Hrest ltac:(discriminate) Hl) as [child' ->]. eauto.
Qed.

(** It leaves alone every path that is not comparable with its own. *)
Lemma update_frame (wrap : option string -> result ConfigValue) :
  forall (p : list string) (t t' : Config) (vp : ConfigValue) (q : list string),
    Forall clean_segment p ->
    lookup t p = Ok vp ->
    setitem_with wrap t (path_of p) = (t', None) ->
    comparable p q = false ->
    lookup t' q = lookup t q.
Proof.
  induction p as [|a rest IH]; intros t t' vp q Hc Hl Hset Hcmp; [discriminate|].
  destruct (comparable_false_cons _ _ Hcmp) as (a0 & p' & b & q' & E1 & -> & Hab).
  inversion E1; subst a0 p'. clear E1.
  inversion Hc as [|? ? Ha Hrest]; subst.
  destruct rest as [|c rest].
  - rewrite (setitem_with_path_single _ _ _ Ha) in Hset.
    destruct (wrap (Some (child_path t a))) as [val|e]; [|discriminate].
    inversion Hset; subst.
    destruct Hab as [N|[_ Hf]]; [|destruct q'; discriminate Hf].
    apply lookup_head. simpl. apply dict_get_set_other. exact N.
  - inversion Hrest as [|? ? Hcq _]; subst.
    rewrite (setitem_with_path_cons _ _ _ _ _ Ha Hcq) in Hset. cbv zeta in Hset.
    rewrite lookup_cons in Hl.
    destruct (Dict.get (items t) a) as [val|] eqn:G; [|discriminate].
    destruct val; try discriminate.
    unfold Dict.mem in Hset. rewrite G, G in Hset.
    destruct (setitem_with wrap c0 (path_of (c :: rest))) as [child' r] eqn:Ec.
    inversion Hset; subst.
    destruct Hab as [N|[<- Hf]].
    + apply lookup_head. simpl. apply dict_get_set_other. exact N.
    + destruct (comparable_false_cons _ _ Hf) as (? & ? & b' & q2 & _ & -> & _).
      rewrite !lookup_cons. simpl items. rewrite dict_get_set_same, G.
      exact (IH c0 child' vp (b' :: q2) Hrest Hl Ec Hf).
Qed.

Lemma update_lookup (wrap : option string -> result ConfigValue)
    (p : list string) (t t' : Config) :
  Forall clean_segment p -> p <> [] ->
  setitem_with wrap t (path_of p) = (t', None) ->
  exists pp v, wrap pp = Ok v /\ lookup t' p = Ok v.
Proof.
  intros Hc Hne Hset.
  destruct (getitem_setitem_with wrap (S (String.length (path_of p))) _ _ _
              (Nat.lt_succ_diag_r _) Hset) as (pp & v & Hw & Hg).
  rewrite (getitem_lookup _ _ Hc Hne) in Hg. eauto.
Qed.

Lemma lookup_ok (strict : bool) :
  forall (p : list string) (t : Config) (v : ConfigValue),
    config_ok strict t = true -> lookup t p = Ok v -> value_ok strict v = true.
Proof.
  induction p as [|a rest IH]; intros t v Hok Hl.
  - simpl in Hl. inversion Hl; subst. exact Hok.
  - destruct rest as [|c rest].
    + rewrite lookup_single in Hl.
      destruct (Dict.get (items t) a) as [val|] eqn:G; [|discriminate].
      inversion Hl; subst. exact (config_ok_get _ _ _ _ Hok G).
    + rewrite lookup_cons in Hl.
      destruct (Dict.get (items t) a) as [val|] eqn:G; [|discriminate].
      destruct val; try discriminate.
      exact (IH c0 v (config_ok_get _ _ _ _ Hok G) Hl).
Qed.

(** ** Applying entries at paths none of which is a prefix of another *)

Lemma apply_entries :
  forall (es : list pentry) (T : Config),
    (forall e, In e es ->
       Forall clean_segment (epath e) /\ epath e <> [] /\
       value_ok false (enew e) = true /\
       exists v, lookup T (epath e) = Ok v) ->
    prefix_free (map epath es) ->
    exists T',
      apply_diff T (map (fun e => entry_item (entry_of e)) es) = (T', None) /\
      (forall e, In e es ->
         exists w', lookup T' (epath e) = Ok w' /\ plain w' = plain (enew e)) /\
      (forall q, (forall e, In e es -> comparable (epath e) q = false) ->
                 lookup T' q = lookup T q).
Proof.
  induction es as [|[[p o] n] es IH]; intros T Hes Hpf.
  - exists T. split; [reflexivity|]. split; [intros e []|reflexivity].
  - destruct (Hes _ (or_introl eq_refl)) as (Hc & Hne & Hn & v & Hl).
    simpl in Hc, Hne, Hn, Hl. destruct Hpf as [Hp Hpf].
    assert (Hw : forall pp, exists v', ConfigValue_get (plain n) pp = Ok v').
    { intros pp. destruct (rewrap_value n Hn pp) as (v' & E & _). eauto. }
    destruct (update_succeeds _ Hw p T v Hc Hne Hl) as [T1 Hset].
    destruct (update_lookup _ p T T1 Hc Hne Hset) as (pp & w1 & Hw1 & Hl1).
    assert (Hplain : plain w1 = plain n).
    { destruct (rewrap_value n Hn pp) as (v' & E & Hp'). congruence. }
    destruct (IH T1) as (T' & Happ & Hin & Hout).
    + intros e He. destruct (Hes e (or_intror He)) as (Hc' & Hne' & Hn' & v' & Hl').
      repeat split; try assumption. exists v'.
      rewrite (update_frame _ p T T1 v (epath e) Hc Hl Hset); [exact Hl'|].
      apply Hp. apply in_map. exact He.
    + exact Hpf.
    + exists T'. split; [|split].
      * simpl. destruct p as [|a rest]; [exfalso; apply Hne; reflexivity|].
        inversion Hc as [|? ? Ha _]; subst.
        rewrite (path_of_cons_truthy a rest Ha).
        unfold setitem. rewrite Hset. exact Happ.
      * intros e [<-|He]; [|exact (Hin e He)].
        exists w1. simpl. split; [|exact Hplain].
        rewrite Hout; [exact Hl1|].
        intros e He. rewrite comparable_sym. apply Hp. apply in_map. exact He.
      * intros q Hq. rewrite Hout.
        -- apply (update_frame _ p T T1 v q Hc Hl Hset).
           exact (Hq _ (or_introl eq_refl)).
        -- intros e He. apply Hq. right. exact He.
Qed.

(** ** [diff] and [apply_diff] *)

(** When [diff] returns, it has emitted the entries of [diff_at] along
    the keys, in their order. *)
Lemma diff_loop_spec (A B : Config) :
  forall (ps : list (list string)) (acc entries : list diff_entry),
    (forall p, In p ps -> Forall clean_segment p /\ p <> []) ->
    diff_loop A B (map path_of ps) acc = Ok entries ->
    entries = acc ++ map entry_of (flat_map (diff_at A B) ps).
Proof.
  induction ps as [|p ps IH]; intros acc entries Hps.
  - simpl. intros H. inversion H. rewrite app_nil_r. reflexivity.
  - destruct (Hps p (or_introl eq_refl)) as [Hc Hne].
    assert (Hps' : forall q, In q ps -> Forall clean_segment q /\ q <> [])
      by (intros q Hq; apply Hps; right; exact Hq).
    simpl. rewrite !(getitem_lookup _ _ Hc Hne). unfold diff_at.
    destruct (lookup B p) as [n|e].
    + destruct (lookup A p) as [o|e'].
      * destruct (py_ne n o).
        -- intros H. rewrite (IH _ _ Hps' H). simpl.
           rewrite <- app_assoc. reflexivity.
        -- apply IH. exact Hps'.
      * destruct e'; try discriminate. apply IH. exact Hps'.
    + destruct e; try discriminate.
      destruct (lookup A p); apply IH; exact Hps'.
Qed.

Lemma diff_at_path (A B : Config) (p : list string) (e : pentry) :
  In e (diff_at A B p) ->
  epath e = p /\ lookup A p = Ok (snd (fst e)) /\ lookup B p = Ok (enew e) /\
  py_ne (enew e) (snd (fst e)) = true.
Proof.
  unfold diff_at. destruct (lookup B p) as [n|]; [|intros []].
  destruct (lookup A p) as [o|]; [|intros []].
  destruct (py_ne n o) eqn:Ene; [|intros []].
  intros [<-|[]]. simpl. auto.
Qed.

Lemma prefix_free_in (l : list (list string)) (p q : list string) :
  prefix_free l -> In p l -> In q l -> p <> q -> comparable p q = false.
Proof.
  induction l as [|a l IH]; simpl; [tauto|].
  intros [Ha Hl] [<-|Hp] [<-|Hq] N.
  - congruence.
  - exact (Ha q Hq).
  - rewrite comparable_sym. exact (Ha p Hp).
  - exact (IH Hl Hp Hq N).
Qed.

Lemma prefix_free_diff_at (A B : Config) (ps : list (list string)) :
  prefix_free ps -> prefix_free (map epath (flat_map (diff_at A B) ps)).
Proof.
  induction ps as [|p ps IH]; simpl; [tauto|].
  intros [Hp Hps]. rewrite map_app. apply prefix_free_app.
  - unfold diff_at. destruct (lookup B p); [|exact I].
    destruct (lookup A p); [|exact I].
    destruct (py_ne a a0); [|exact I]. simpl. split; [intros q []|exact I].
  - exact (IH Hps).
  - intros a b Ha Hb.
    apply in_map_iff in Ha. destruct Ha as (ea & <- & Hea).
    apply in_map_iff in Hb. destruct Hb as (eb & <- & Heb).
    apply in_flat_map in Heb. destruct Heb as (q & Hq & Heq).
    destruct (diff_at_path _ _ _ _ Hea) as [-> _].
    destruct (diff_at_path _ _ _ _ Heq) as [-> _].
    exact (Hp q Hq).
Qed.

(** What [diff] returns, when it returns, on a tree with clean keys: one
    entry for each key of [A] that [B] has with an unequal value. *)
Lemma diff_entries (A B : Config) (entries : list diff_entry) :
  config_ok true A = true ->
  diff A B = Ok entries ->
  forall k old new,
    In (k, old, new) entries <->
    exists p, In p (leaf_paths A) /\ k = path_of p /\
              getitem A k = Ok old /\ getitem B k = Ok new /\
              py_ne new old = true.
Proof.
  intros Hok Hd k old new. unfold diff in Hd. rewrite keys_leaf_paths in Hd.
  assert (Hps : forall p, In p (leaf_paths A) -> Forall clean_segment p /\ p <> []).
  { intros p Hp. split; [apply (leaf_paths_lookup A Hok p Hp)|].
    exact (leaf_paths_nonempty _ _ Hp). }
  rewrite (diff_loop_spec A B _ _ _ Hps Hd). simpl. split.
  - intros H. apply in_map_iff in H. destruct H as ([[p o] n] & E & He).
    simpl in E. inversion E; subst. clear E.
    apply in_flat_map in He. destruct He as (q & Hq & He).
    destruct (diff_at_path _ _ _ _ He) as (E & HA & HB & Hne). simpl in *. subst q.
    exists p. destruct (Hps p Hq) as [Hc Hn].
    rewrite !(getitem_lookup _ _ Hc Hn). auto.
  - intros (p & Hp & -> & HA & HB & Hne). destruct (Hps p Hp) as [Hc Hn].
    rewrite (getitem_lookup _ _ Hc Hn) in HA.
    rewrite (getitem_lookup _ _ Hc Hn) in HB.
    apply in_map_iff. exists (p, old, new). split; [reflexivity|].
    apply in_flat_map. exists p. split; [exact Hp|].
    unfold diff_at. rewrite HA, HB, Hne. left. reflexivity.
Qed.

Lemma lookup_raises :
  forall (p : list string) (t : Config) (e : exn),
    lookup t p = Raise e -> e = TypeError \/ exists k, e = KeyError k.
Proof.
  induction p as [|a rest IH]; intros t e; [discriminate|].
  destruct rest as [|c rest].
  - rewrite lookup_single. destruct (Dict.get (items t) a); [discriminate|].
    intros H. inversion H. eauto.
  - rewrite lookup_cons. destruct (Dict.get (items t) a) as [val|].
    + destruct val; try solve [intros H; inversion H; auto]. apply IH.
    + intros H. inversion H. eauto.
Qed.

(** [diff] returns unless the lookup of a key of [A] in [B] runs into a
    stored leaf. *)
Lemma diff_loop_returns (A B : Config) :
  forall (ps : list (list string)) (acc : list diff_entry),
    (forall p, In p ps ->
       Forall clean_segment p /\ p <> [] /\
       (exists v, lookup A p = Ok v) /\ lookup B p <> Raise TypeError) ->
    exists entries, diff_loop A B (map path_of ps) acc = Ok entries.
Proof.
  induction ps as [|p ps IH]; intros acc Hps.
  - simpl. eauto.
  - destruct (Hps p (or_introl eq_refl)) as (Hc & Hne & [v Hv] & HB).
    assert (Hps' : forall q, In q ps ->
              Forall clean_segment q /\ q <> [] /\
              (exists v, lookup A q = Ok v) /\ lookup B q <> Raise TypeError)
      by (intros q Hq; apply Hps; right; exact Hq).
    simpl. rewrite !(getitem_lookup _ _ Hc Hne), Hv.
    destruct (lookup B p) as [n|e] eqn:E.
    + destruct (py_ne n v); apply IH; exact Hps'.
    + destruct (lookup_raises _ _ _ E) as [->|[k ->]]; [congruence|].
      apply IH; exact Hps'.
Qed.

Lemma diff_returns (A B : Config) :
  config_ok true A = true ->
  (forall k, In k (keys A) -> getitem B k <> Raise TypeError) ->
  exists entries, diff A B = Ok entries.
Proof.
  intros Hok HB. unfold diff. rewrite keys_leaf_paths.
  apply diff_loop_returns. intros p Hp.
  destruct (leaf_paths_lookup A Hok p Hp) as (Hc & v & Hv & _).
  pose proof (leaf_paths_nonempty _ _ Hp) as Hne.
  repeat split; try assumption; [eauto|].
  rewrite <- (getitem_lookup _ _ Hc Hne). apply HB.
  rewrite keys_leaf_paths. apply in_map. exact Hp.
Qed.

(** Different paths of clean segments are different keys, so [diff] has
    at most one entry for a key. *)
Lemma path_of_inj :
  forall p q : list string,
    Forall clean_segment p -> Forall clean_segment q ->
    p <> [] -> q <> [] ->
    path_of p = path_of q -> p = q.
Proof.
  induction p as [|a rest IH]; intros q Hp Hq Hnp Hnq E; [congruence|].
  destruct q as [|b rest']; [congruence|].
  inversion Hp as [|? ? Ha Hrest]; subst.
  inversion Hq as [|? ? Hb Hrest']; subst.
  apply (f_equal (Str.split1 slash)) in E.
  destruct rest as [|c rest]; destruct rest' as [|c' rest'].
  - rewrite !split1_path_single in E by assumption. congruence.
  - inversion Hrest'; subst.
    rewrite split1_path_single, split1_path_cons in E by assumption. congruence.
  - inversion Hrest; subst.
    rewrite split1_path_single, split1_path_cons in E by assumption. congruence.
  - inversion Hrest; subst. inversion Hrest'; subst.
    rewrite !split1_path_cons in E by assumption.
    inversion E as [[Eab Er]]. f_equal.
    apply IH; auto; discriminate.
Qed.

Lemma comparable_refl (p : list string) : comparable p p = true.
Proof.
  induction p as [|a p IH]; simpl; [reflexivity|].
  rewrite String.eqb_refl. exact IH.
Qed.

Lemma diff_keys_nodup (A B : Config) (entries : list diff_entry) :
  config_ok true A = true ->
  diff A B = Ok entries ->
  NoDup (map (fun e : diff_entry => fst (fst e)) entries).
Proof.
  intros Hok Hd. unfold diff in Hd. rewrite keys_leaf_paths in Hd.
  assert (Hps : forall p, In p (leaf_paths A) -> Forall clean_segment p /\ p <> []).
  { intros p Hp. split; [apply (leaf_paths_lookup A Hok p Hp)|].
    exact (leaf_paths_nonempty _ _ Hp). }
  rewrite (diff_loop_spec A B _ _ _ Hps Hd). simpl app. rewrite map_map.
  pose proof (prefix_free_diff_at A B _ (leaf_paths_prefix_free A Hok)) as Hpf.
  assert (Hes : forall e, In e (flat_map (diff_at A B) (leaf_paths A)) ->
                          Forall clean_segment (epath e) /\ epath e <> []).
  { intros e He. apply in_flat_map in He. destruct He as (q & Hq & He).
    destruct (diff_at_path _ _ _ _ He) as [-> _]. exact (Hps q Hq). }
  induction (flat_map (diff_at A B) (leaf_paths A)) as [|[[p o] n] es IH];
    simpl; constructor.
  - destruct Hpf as [Hp _]. intros Hin.
    apply in_map_iff in Hin. destruct Hin as ([[q o'] n'] & E & Hq). simpl in E.
    destruct (Hes _ (or_introl eq_refl)) as [Hc Hne].
    destruct (Hes _ (or_intror Hq)) as [Hc' Hne']. simpl in *.
    apply path_of_inj in E; try assumption. subst q.
    specialize (Hp p (in_map epath _ _ Hq)).
    rewrite comparable_refl in Hp. discriminate Hp.
  - apply IH; [exact (proj2 Hpf)|].
    intros e He. apply Hes. right. exact He.
Qed.

(** The examples of the specification. *)
Lemma diff_examples :
  diff (tree_of [("x", RInt 5)]) (tree_of [("x", RInt 6)])
  = Ok [("x", ConfigInt 5 (Some "x"), ConfigInt 6 (Some "x"))] /\
  diff (tree_of [("x", RInt 5); ("q", RInt 1)]) (tree_of [("x", RInt 6); ("z", RInt 0)])
  = Ok [("x", ConfigInt 5 (Some "x"), ConfigInt 6 (Some "x"))] /\
  diff (tree_of [("x", RInt 12)]) (tree_of [("x", RStr "12")])
  = Ok [("x", ConfigInt 12 (Some "x"), ConfigString "12" (Some "x"))].
Proof. repeat split; reflexivity. Qed.

(** C6. With [A = {a: {b: 1}}] and [B = {a: 5}] the key [a/b] of [A] is
    not in [B]; the lookup [B["a/b"]] subscripts the stored integer and
    raises [TypeError], which the [except KeyError] of [diff] lets
    through: [diff] raises instead of returning no entry. *)
Theorem C6_diff_raises_when_a_leaf_is_in_the_way :
  keys (tree_of [("a", RDict [("b", RInt 1)])]) = ["a/b"] /\
  getitem (tree_of [("a", RInt 5)]) "a/b" = Raise TypeError /\
  getitem (tree_of [("a", RInt 5)]) "c" = Raise (KeyError "c") /\
  diff (tree_of [("a", RDict [("b", RInt 1)])]) (tree_of [("a", RInt 5)])
  = Raise TypeError.
Proof. repeat split; reflexivity. Qed.

(** C7, counterexample: with [A = {x: 5, y: 1}] and [B = {x: 6}] the
    result keeps [y], which [B] restricted to the keys of [A] has not. *)
Lemma C7_counterexample : ~ apply_diff_gives_restriction.
Proof.
  intros H.
  specialize (H (tree_of [("x", RInt 5); ("y", RInt 1)])
                (tree_of [("x", RInt 6)])
                (tree_of [("x", RInt 6); ("y", RInt 1)])
                (tree_of [("x", RInt 6)])
                [("x", ConfigInt 5 (Some "x"), ConfigInt 6 (Some "x"))]
                eq_refl eq_refl eq_refl eq_refl eq_refl).
  discriminate H.
Qed.

(** C7, amended. For [A] with clean keys and [B] of the shape the
    assignments make, when [A.diff(B)] returns, applying it to [A]
    succeeds and gives a tree [A'] in which every key of [A] that [B] has
    holds [B]'s value (a new wrapping of it, or the value of [A] where the
    two compared equal) and every key of [A] that [B] lacks holds the
    value of [A] still; a path that is not comparable with any leaf path
    of [A] looks up in [A'] as in [A]. *)
Theorem C7_apply_diff_of_diff :
  forall (A B : Config) (entries : list diff_entry),
    config_ok true A = true ->
    config_ok false B = true ->
    diff A B = Ok entries ->
    exists A',
      apply_diff A (map entry_item entries) = (A', None) /\
      (forall k, In k (keys A) ->
         exists v, getitem A k = Ok v /\
           match getitem B k with
           | Ok w =>
               if py_ne w v
               then exists w', getitem A' k = Ok w' /\ plain w' = plain w
               else getitem A' k = Ok v
           | Raise _ => getitem A' k = Ok v
           end) /\
      (forall q, Forall clean_segment q -> q <> [] ->
         (forall p, In p (leaf_paths A) -> comparable p q = false) ->
         getitem A' (path_of q) = getitem A (path_of q)).
Proof.
  intros A B entries HA HB Hd.
  pose proof (leaf_paths_prefix_free A HA) as Hpf.
  assert (Hps : forall p, In p (leaf_paths A) -> Forall clean_segment p /\ p <> []).
  { intros p Hp. split; [apply (leaf_paths_lookup A HA p Hp)|].
    exact (leaf_paths_nonempty _ _ Hp). }
  unfold diff in Hd. rewrite keys_leaf_paths in Hd.
  rewrite (diff_loop_spec A B _ _ _ Hps Hd). simpl app. rewrite map_map.
  set (es := flat_map (diff_at A B) (leaf_paths A)).
  assert (Hes : forall e, In e es ->
            In (epath e) (leaf_paths A) /\ In e (diff_at A B (epath e))).
  { intros e He. apply in_flat_map in He. destruct He as (q & Hq & He).
    destruct (diff_at_path _ _ _ _ He) as [E _]. rewrite E. auto. }
  destruct (apply_entries es A) as (A' & Happ & Hin & Hout).
  - intros e He. destruct (Hes e He) as [Hp Hat].
    destruct (Hps _ Hp) as [Hc Hne].
    destruct (diff_at_path _ _ _ _ Hat) as (_ & HlA & HlB & _).
    repeat split; try assumption.
    + exact (lookup_ok false _ _ _ HB HlB).
    + eauto.
  - exact (prefix_free_diff_at A B _ Hpf).
  - exists A'. split; [exact Happ|]. split.
    + intros k Hk. rewrite keys_leaf_paths in Hk.
      apply in_map_iff in Hk. destruct Hk as (p & <- & Hp).
      destruct (Hps p Hp) as [Hc Hne].
      destruct (leaf_paths_lookup A HA p Hp) as (_ & v & Hl & _).
      exists v. rewrite !(getitem_lookup _ _ Hc Hne). split; [exact Hl|].
      assert (Hkeep : diff_at A B p = [] -> lookup A' p = Ok v).
      { intros Hnil. rewrite Hout; [exact Hl|].
        intros e He. destruct (Hes e He) as [Hpe Hat].
        apply (prefix_free_in _ _ _ Hpf Hpe Hp).
        intros E. rewrite E, Hnil in Hat. exact Hat. }
      destruct (lookup B p) as [w|e] eqn:HlB.
      * destruct (py_ne w v) eqn:Hne'.
        -- destruct (Hin (p, v, w)) as (w' & Hl' & Hp').
           ++ apply in_flat_map. exists p. split; [exact Hp|].
              unfold diff_at. rewrite HlB, Hl, Hne'. left. reflexivity.
           ++ exists w'. split; assumption.
        -- apply Hkeep. unfold diff_at. rewrite HlB, Hl, Hne'. reflexivity.
      * apply Hkeep. unfold diff_at. rewrite HlB. reflexivity.
    + intros q Hc Hne Hq. rewrite !(getitem_lookup _ _ Hc Hne).
      apply Hout. intros e He. apply Hq. apply (Hes e He).
Qed.

(** A tree with a nested key that changes, a key that [B] lacks and keys
    that only [B] has. *)
Lemma C7_witness :
  exists A',
    apply_diff plant_old
      (map entry_item
         [("x", ConfigInt 5 (Some "x"), ConfigInt 6 (Some "x"));
          ("s/t", ConfigString "old" (Some "s/t"), ConfigString "new" (Some "s/t"))])
    = (A', None) /\
    (forall k, In k (keys plant_old) ->
       exists v, getitem plant_old k = Ok v /\
         match getitem plant_new k with
         | Ok w =>
             if py_ne w v
             then exists w', getitem A' k = Ok w' /\ plain w' = plain w
             else getitem A' k = Ok v
         | Raise _ => getitem A' k = Ok v
         end) /\
    (forall q, Forall clean_segment q -> q <> [] ->
       (forall p, In p (leaf_paths plant_old) -> comparable p q = false) ->
       getitem A' (path_of q) = getitem plant_old (path_of q)).
Proof.
  exact (C7_apply_diff_of_diff plant_old plant_new _ eq_refl eq_refl eq_refl).
Defined.

(** ** Parental paths *)

(** What [ConfigValue.get] returns carries the path it was given. *)
Lemma ConfigValue_get_path (value : raw) (pp : option string) (v : ConfigValue) :
  ConfigValue_get value pp = Ok v ->
  v = NoneValue \/ value_path v = Some pp.
Proof.
  destruct value as [| | | | |d];
    try (simpl; intros H; inversion H; subst;
         first [left; reflexivity | right; reflexivity]).
  rewrite ConfigValue_get_dict.
  destruct (init_loop ConfigValue_get d (Config_empty pp)) as [c|e] eqn:E;
    simpl; intros H; inversion H; subst.
  right. simpl. f_equal. exact (Config_init_path d pp c E).
Qed.

(** An assignment at a single segment stores a value whose parental path
    is the path of [self], a slash and the key, or the key alone when
    [self] has no path. *)
Lemma setitem_single_path (self self' : Config) (key : string) (value : raw) :
  clean_segment key ->
  setitem self key value = (self', None) ->
  exists v,
    Dict.get (items self') key = Some v /\
    (v = NoneValue \/ value_path v = Some (Some (child_path self key))).
Proof.
  intros [_ Hk]. unfold setitem. rewrite (setitem_with_direct _ _ _ Hk).
  destruct (ConfigValue_get value (Some (child_path self key))) as [v|e] eqn:E;
    intros H; inversion H; subst.
  exists v. simpl. rewrite dict_get_set_same. split; [reflexivity|].
  exact (ConfigValue_get_path _ _ _ E).
Qed.

(** C4. [set("a/b", 1)] on the empty tree makes the node [a] by [Config()],
    without a parental path, so [a] has none (not [a]) and the leaf below
    it gets [b] (not [a/b]); the same tree built from the nested mapping
    has the paths [a] and [a/b]. *)
Theorem C4_created_nodes_have_no_path :
  setitem (Config_empty None) "a/b" (RInt 1)
  = (MkConfig None
       [("a", Subtree (MkConfig None [("b", ConfigInt 1 (Some "b"))]))],
     None) /\
  Config_init (Some [("a", RDict [("b", RInt 1)])]) None
  = Ok (MkConfig None
          [("a", Subtree (MkConfig (Some "a") [("b", ConfigInt 1 (Some "a/b"))]))]).
Proof. split; reflexivity. Qed.

(** ** Flattening *)

(** C5. On a tree three levels deep, [deep_items] goes one level down and
    returns the pair of [a/b] and the Subtree stored there, where [keys]
    returns the leaf path [a/b/c]. *)
Theorem C5_deep_items_stops_after_one_level :
  keys (tree_of [("a", RDict [("b", RDict [("c", RInt 1)])])]) = ["a/b/c"] /\
  leaves (tree_of [("a", RDict [("b", RDict [("c", RInt 1)])])])
  = [("a/b/c", ConfigInt 1 (Some "a/b/c"))] /\
  deep_items (tree_of [("a", RDict [("b", RDict [("c", RInt 1)])])])
  = [("a/b", Subtree (MkConfig (Some "a/b") [("c", ConfigInt 1 (Some "a/b/c"))]))].
Proof. repeat split; reflexivity. Qed.

(** Down to the second level [deep_items] does return the leaves. *)
Lemma leaves_flat (c : Config) : flat c = true -> leaves c = items c.
Proof.
  destruct c as [pp d]. unfold flat. simpl items.
  induction d as [|[k v] d IH]; intros H; [reflexivity|].
  simpl in H. apply andb_true_iff in H. destruct H as [Hv Hd].
  rewrite leaves_cons, (IH Hd).
  destruct v; try reflexivity. discriminate Hv.
Qed.

Lemma deep_items_two_levels (t : Config) :
  two_levels t = true -> deep_items t = leaves t.
Proof.
  destruct t as [pp d]. unfold two_levels, deep_items. simpl items.
  induction d as [|[k v] d IH]; intros H; [reflexivity|].
  simpl in H. apply andb_true_iff in H. destruct H as [Hv Hd].
  rewrite leaves_cons. simpl deep_items_loop. rewrite (IH Hd).
  destruct v; try reflexivity.
  rewrite (leaves_flat c Hv). reflexivity.
Qed.

(** * Further properties of the tree *)

(** ** Assignment and lookup at any key *)

(** X1. For every key, also one with empty segments or a slash at the
    end, a successful [self[raw_key] = value] is followed by a lookup
    [self[raw_key]] that returns the value [ConfigValue.get] made of
    [value]; a second assignment at the key replaces the first. *)
Theorem X1_lookup_returns_last_assignment :
  forall (self self1 self2 : Config) (raw_key : string) (first second : raw),
    setitem self raw_key first = (self1, None) ->
    setitem self1 raw_key second = (self2, None) ->
    (exists pp v, ConfigValue_get first pp = Ok v /\ getitem self1 raw_key = Ok v) /\
    (exists pp v, ConfigValue_get second pp = Ok v /\ getitem self2 raw_key = Ok v).
Proof.
  intros self self1 self2 raw_key first second H1 H2. split.
  - exact (getitem_after_setitem _ _ _ _ H1).
  - exact (getitem_after_setitem _ _ _ _ H2).
Qed.

(** The key [a//] stores under the empty key of the node [a]. *)
Lemma X1_witness :
  (exists pp v,
      ConfigValue_get (RInt 1) pp = Ok v /\
      getitem (fst (setitem (Config_empty None) "a//" (RInt 1))) "a//" = Ok v) /\
  (exists pp v,
      ConfigValue_get (RStr "two") pp = Ok v /\
      getitem (fst (setitem (fst (setitem (Config_empty None) "a//" (RInt 1)))
                            "a//" (RStr "two"))) "a//" = Ok v).
Proof.
  exact (X1_lookup_returns_last_assignment (Config_empty None) _ _ "a//"
           (RInt 1) (RStr "two") eq_refl eq_refl).
Defined.

(** What an assignment leaves alone: a value found at a path that is not
    comparable with the path assigned is found there afterwards, whether
    the assignment succeeds or raises. *)
Lemma setitem_preserves_lookup (wrap : option string -> result ConfigValue) :
  forall (p : list string) (t t' : Config) (r : option exn)
         (q : list string) (v : ConfigValue),
    Forall clean_segment p ->
    setitem_with wrap t (path_of p) = (t', r) ->
    comparable p q = false ->
    lookup t q = Ok v ->
    lookup t' q = Ok v.
Proof.
  induction p as [|a rest IH]; intros t t' r q v Hc Hset Hcmp Hl; [discriminate|].
  destruct (comparable_false_cons _ _ Hcmp) as (a0 & p' & b & q' & E1 & -> & Hab).
  inversion E1; subst a0 p'. clear E1.
  inversion Hc as [|? ? Ha Hrest]; subst.
  assert (Hother : a <> b ->
            forall val, lookup (store t a val) (b :: q') = lookup t (b :: q')).
  { intros N val. apply lookup_head. simpl. apply dict_get_set_other. exact N. }
  destruct rest as [|c rest].
  - rewrite (setitem_with_path_single _ _ _ Ha) in Hset.
    destruct Hab as [N|[_ Hf]]; [|destruct q'; discriminate Hf].
    destruct (wrap (Some (child_path t a))) as [val|e];
      inversion Hset; subst; [|exact Hl].
    rewrite (Hother N). exact Hl.
  - inversion Hrest as [|? ? Hcq _]; subst.
    rewrite (setitem_with_path_cons _ _ _ _ _ Ha Hcq) in Hset. cbv zeta in Hset.
    destruct Hab as [N|[<- Hf]].
    + assert (H1 : lookup (if Dict.mem (items t) a then t
                           else store t a (Subtree (Config_empty None))) (b :: q')
                   = Ok v).
      { destruct (Dict.mem (items t) a); [exact Hl|]. rewrite (Hother N). exact Hl. }
      destruct (Dict.get _ a) as [val|] in Hset;
        [|inversion Hset; subst; exact H1].
      destruct val; try (inversion Hset; subst; exact H1).
      destruct (setitem_with wrap c0 (path_of (c :: rest))) as [child' r'].
      inversion Hset; subst.
      rewrite <- H1. apply lookup_head. simpl.
      rewrite dict_get_set_other by exact N. reflexivity.
    + destruct (comparable_false_cons _ _ Hf) as (? & ? & b' & q2 & _ & -> & _).
      rewrite lookup_cons in Hl.
      destruct (Dict.get (items t) a) as [val|] eqn:G; [|discriminate].
      destruct val; try discriminate.
      unfold Dict.mem in Hset. rewrite G, G in Hset.
      destruct (setitem_with wrap c0 (path_of (c :: rest))) as [child' r'] eqn:Ec.
      inversion Hset; subst.
      rewrite lookup_cons. simpl items. rewrite dict_get_set_same.
      exact (IH c0 child' r (b' :: q2) v Hrest Ec Hf Hl).
Qed.

(** X2. An assignment at a path of clean segments, successful or not,
    does not touch what a lookup finds at a path of which the assigned
    path is no prefix and which is no prefix of it. *)
Theorem X2_assignment_leaves_other_paths :
  forall (self self' : Config) (r : option exn) (p q : list string)
         (value : raw) (found : ConfigValue),
    Forall clean_segment p -> Forall clean_segment q ->
    comparable p q = false ->
    setitem self (path_of p) value = (self', r) ->
    getitem self (path_of q) = Ok found ->
    getitem self' (path_of q) = Ok found.
Proof.
  intros self self' r p q value found Hp Hq Hcmp Hset Hget.
  assert (Hne : q <> []) by (destruct p, q; discriminate).
  rewrite (getitem_lookup _ _ Hq Hne) in Hget.
  rewrite (getitem_lookup _ _ Hq Hne).
  exact (setitem_preserves_lookup _ p self self' r q found Hp Hset Hcmp Hget).
Qed.

(** An assignment that makes new nodes next to [limits/low], and one that
    raises on the leaf [name]. *)
Lemma X2_witness :
  getitem (fst (setitem (tree_of [("name", RStr "n"); ("limits/low", RInt 1)])
                        "limits/high/max" (RInt 9)))
          (path_of ["limits"; "low"]) = Ok (ConfigInt 1 (Some "low")) /\
  getitem (fst (setitem (tree_of [("name", RStr "n"); ("limits/low", RInt 1)])
                        "name/first" (RInt 9)))
          (path_of ["limits"; "low"]) = Ok (ConfigInt 1 (Some "low")).
Proof.
  split.
  - refine (X2_assignment_leaves_other_paths _ _ _ ["limits"; "high"; "max"]
              ["limits"; "low"] (RInt 9) _ _ _ _ _ _).
    + repeat constructor.
    + repeat constructor.
    + reflexivity.
    + apply surjective_pairing.
    + reflexivity.
  - refine (X2_assignment_leaves_other_paths _ _ _ ["name"; "first"]
              ["limits"; "low"] (RInt 9) _ _ _ _ _ _).
    + repeat constructor.
    + repeat constructor.
    + reflexivity.
    + apply surjective_pairing.
    + reflexivity.
Defined.

(** ** Empty segments *)

Lemma getitem_skip (self : Config) (tail : string) :
  Str.truthy tail = true ->
  getitem self (String slash tail) = getitem self tail.
Proof.
  intros Ht. rewrite getitem_eq at 1. simpl. rewrite Ht. reflexivity.
Qed.

Lemma getitem_descend (self : Config) (s tail : string) :
  Str.contains slash s = false -> Str.truthy s = true -> Str.truthy tail = true ->
  getitem self (s ++ String slash tail)%string =
  match Dict.get (items self) s with
  | None => Raise (KeyError s)
  | Some (Subtree child) => getitem child tail
  | Some _ => Raise TypeError
  end.
Proof.
  intros Hs Hts Ht. rewrite getitem_eq at 1. rewrite (split1_app _ _ _ Hs).
  simpl. rewrite Hts, Ht. simpl.
  destruct (Dict.get (items self) s) as [[]|]; reflexivity.
Qed.

Lemma setitem_with_skip (wrap : option string -> result ConfigValue)
    (self : Config) (tail : string) :
  Str.truthy tail = true ->
  setitem_with wrap self (String slash tail) = setitem_with wrap self tail.
Proof.
  intros Ht. rewrite setitem_with_eq at 1. simpl. rewrite Ht. reflexivity.
Qed.

Lemma setitem_with_descend (wrap : option string -> result ConfigValue)
    (self : Config) (s tail : string) :
  Str.contains slash s = false -> Str.truthy s = true -> Str.truthy tail = true ->
  setitem_with wrap self (s ++ String slash tail)%string =
  let self1 :=
    if Dict.mem (items self) s then self
    else store self s (Subtree (Config_empty None)) in
  match Dict.get (items self1) s with
  | Some (Subtree child) =>
      let (child', r) := setitem_with wrap child tail in
      (store self1 s (Subtree child'), r)
  | Some _ => (self1, Some TypeError)
  | None => (self1, Some (KeyError s))
  end.
Proof.
  intros Hs Hts Ht. rewrite setitem_with_eq at 1. rewrite (split1_app _ _ _ Hs).
  simpl. rewrite Hts, Ht. reflexivity.
Qed.

Lemma append_empty_r (s : string) : (s ++ EmptyString)%string = s.
Proof. induction s as [|c s IH]; simpl; [reflexivity|]. rewrite IH. reflexivity. Qed.

Lemma append_assoc (s t u : string) :
  ((s ++ t) ++ u)%string = (s ++ (t ++ u))%string.
Proof. induction s as [|c s IH]; simpl; [reflexivity|]. rewrite IH. reflexivity. Qed.

Lemma truthy_append (s t : string) :
  Str.truthy s = true -> Str.truthy (s ++ t) = true.
Proof. destruct s; [discriminate|reflexivity]. Qed.

Lemma path_of_truthy_last (segs : list string) :
  Str.truthy (last segs EmptyString) = true -> Str.truthy (path_of segs) = true.
Proof.
  destruct segs as [|s [|r rest]]; simpl; intros H.
  - discriminate.
  - exact H.
  - destruct s; reflexivity.
Qed.

Lemma path_of_cons_slash (s r : string) (rest : list string) :
  path_of (s :: r :: rest) = (s ++ String slash (path_of (r :: rest)))%string.
Proof. reflexivity. Qed.

Lemma path_of_cons_slash_suffix (s r : string) (rest : list string) (sfx : string) :
  (path_of (s :: r :: rest) ++ sfx)%string
  = (s ++ String slash (path_of (r :: rest) ++ sfx))%string.
Proof. rewrite path_of_cons_slash, append_assoc. reflexivity. Qed.

Lemma split_clean (sep : ascii) (s : string) :
  Str.contains sep s = false -> Str.split sep s = [s].
Proof.
  induction s as [|c s IH]; simpl; intros H; [reflexivity|].
  apply orb_false_iff in H. destruct H as [Hc Hs].
  rewrite Hc, (IH Hs). reflexivity.
Qed.

Lemma split_app (sep : ascii) (h t : string) :
  Str.contains sep h = false ->
  Str.split sep (h ++ String sep t) = h :: Str.split sep t.
Proof.
  induction h as [|c h IH]; simpl; intros H.
  - rewrite Ascii.eqb_refl. reflexivity.
  - apply orb_false_iff in H. destruct H as [Hc Hs].
    rewrite Hc, (IH Hs). reflexivity.
Qed.

(** [path.split('/')] gives back the segments a path was made of. *)
Lemma split_path_of (segs : list string) :
  Forall (fun s => Str.contains slash s = false) segs -> segs <> [] ->
  Str.split slash (path_of segs) = segs.
Proof.
  induction 1 as [|s segs Hs Hrest IH]; intros Hne; [congruence|].
  destruct segs as [|r rest].
  - apply split_clean. exact Hs.
  - rewrite path_of_cons_slash, (split_app _ _ _ Hs), IH; [reflexivity|discriminate].
Qed.

Lemma filter_truthy_clean (segs : list string) :
  Forall (fun s => Str.contains slash s = false) segs ->
  Forall clean_segment (filter Str.truthy segs).
Proof.
  induction 1 as [|s segs Hs _ IH]; simpl; [constructor|].
  destruct (Str.truthy s) eqn:Ht; [|exact IH].
  constructor; [split; assumption|exact IH].
Qed.

Lemma filter_truthy_last (segs : list string) :
  Str.truthy (last segs EmptyString) = true -> filter Str.truthy segs <> [].
Proof.
  induction segs as [|s [|r rest] IH]; simpl; intros H.
  - discriminate.
  - rewrite H. discriminate.
  - destruct (Str.truthy s); [discriminate|]. exact (IH H).
Qed.

(** A slash at the end of a key whose last segment is not empty leaves an
    empty [key_tail], which both methods treat as none. *)
Lemma getitem_last_segment (self : Config) (s sfx : string) :
  Str.contains slash s = false -> Str.truthy s = true ->
  sfx = EmptyString \/ sfx = "/" ->
  getitem self (s ++ sfx) = lookup self [s].
Proof.
  intros Hs Ht [->| ->].
  - rewrite append_empty_r. apply (getitem_lookup [s]); [|discriminate].
    constructor; [split; assumption|constructor].
  - rewrite getitem_eq. change "/" with (String slash EmptyString).
    rewrite (split1_app _ _ _ Hs). simpl. rewrite Ht. reflexivity.
Qed.

Lemma setitem_with_last_segment (wrap : option string -> result ConfigValue)
    (self : Config) (s sfx : string) :
  Str.contains slash s = false -> Str.truthy s = true ->
  sfx = EmptyString \/ sfx = "/" ->
  setitem_with wrap self (s ++ sfx) = setitem_with wrap self s.
Proof.
  intros Hs Ht [->| ->].
  - rewrite append_empty_r. reflexivity.
  - rewrite (setitem_with_direct _ _ _ Hs), setitem_with_eq.
    change "/" with (String slash EmptyString).
    rewrite (split1_app _ _ _ Hs). simpl. rewrite Ht. reflexivity.
Qed.

Lemma getitem_ignores_empty_segments (sfx : string) :
  sfx = EmptyString \/ sfx = "/" ->
  forall (segs : list string) (self : Config),
    Forall (fun s => Str.contains slash s = false) segs ->
    Str.truthy (last segs EmptyString) = true ->
    getitem self (path_of segs ++ sfx) = lookup self (filter Str.truthy segs).
Proof.
  intros Hsfx.
  induction segs as [|s rest IH]; intros self Hc Hl; [discriminate|].
  inversion Hc as [|? ? Hs Hrest]; subst.
  destruct rest as [|r rest].
  - simpl in Hl. simpl filter. rewrite Hl.
    apply getitem_last_segment; assumption.
  - assert (Hl' : Str.truthy (last (r :: rest) EmptyString) = true) by exact Hl.
    pose proof (truthy_append _ sfx (path_of_truthy_last _ Hl')) as Ht.
    rewrite path_of_cons_slash_suffix.
    change (filter Str.truthy (s :: r :: rest))
      with (if Str.truthy s then s :: filter Str.truthy (r :: rest)
            else filter Str.truthy (r :: rest)).
    destruct (Str.truthy s) eqn:Hts.
    + rewrite (getitem_descend _ _ _ Hs Hts Ht).
      destruct (filter Str.truthy (r :: rest)) as [|f fs] eqn:Ef;
        [exact (False_ind _ (filter_truthy_last _ Hl' Ef))|].
      rewrite lookup_cons.
      destruct (Dict.get (items self) s) as [[]|]; try reflexivity.
      apply IH; assumption.
    + apply truthy_false in Hts. subst s.
      change (EmptyString ++ String slash (path_of (r :: rest) ++ sfx))%string
        with (String slash (path_of (r :: rest) ++ sfx)).
      rewrite (getitem_skip _ _ Ht). apply IH; assumption.
Qed.

Lemma setitem_ignores_empty_segments (wrap : option string -> result ConfigValue)
    (sfx : string) :
  sfx = EmptyString \/ sfx = "/" ->
  forall (segs : list string) (self : Config),
    Forall (fun s => Str.contains slash s = false) segs ->
    Str.truthy (last segs EmptyString) = true ->
    setitem_with wrap self (path_of segs ++ sfx)
    = setitem_with wrap self (path_of (filter Str.truthy segs)).
Proof.
  intros Hsfx.
  induction segs as [|s rest IH]; intros self Hc Hl; [discriminate|].
  inversion Hc as [|? ? Hs Hrest]; subst.
  destruct rest as [|r rest].
  - simpl in Hl. simpl filter. rewrite Hl.
    apply setitem_with_last_segment; assumption.
  - assert (Hl' : Str.truthy (last (r :: rest) EmptyString) = true) by exact Hl.
    pose proof (truthy_append _ sfx (path_of_truthy_last _ Hl')) as Ht.
    rewrite path_of_cons_slash_suffix.
    change (filter Str.truthy (s :: r :: rest))
      with (if Str.truthy s then s :: filter Str.truthy (r :: rest)
            else filter Str.truthy (r :: rest)).
    destruct (Str.truthy s) eqn:Hts.
    + pose proof (filter_truthy_clean _ Hrest) as Hfc.
      destruct (filter Str.truthy (r :: rest)) as [|f fs] eqn:Ef;
        [exact (False_ind _ (filter_truthy_last _ Hl' Ef))|].
      inversion Hfc as [|? ? Hf _]; subst.
      rewrite path_of_cons_slash.
      rewrite (setitem_with_descend _ _ _ _ Hs Hts Ht).
      rewrite (setitem_with_descend _ _ _ _ Hs Hts (path_of_cons_truthy f fs Hf)).
      cbv zeta.
      destruct (Dict.get _ s) as [[]|]; try reflexivity.
      rewrite (IH c Hrest Hl'). reflexivity.
    + apply truthy_false in Hts. subst s.
      change (EmptyString ++ String slash (path_of (r :: rest) ++ sfx))%string
        with (String slash (path_of (r :: rest) ++ sfx)).
      rewrite (setitem_with_skip _ _ _ Ht). apply IH; assumption.
Qed.

(** ** What the tree operations raise *)

Lemma setitem_with_raises (wrap : option string -> result ConfigValue) :
  (forall pp e, wrap pp = Raise e -> e = TypeError) ->
  forall (n : nat) (raw_key : string) (self self' : Config) (e : exn),
    String.length raw_key < n ->
    setitem_with wrap self raw_key = (self', Some e) ->
    e = TypeError.
Proof.
  intros Hw. induction n as [|n IH]; intros raw_key self self' e Hn; [lia|].
  rewrite setitem_with_eq.
  destruct (Str.split1 slash raw_key) as [key key_tail] eqn:E.
  destruct (negb (Str.truthy key) && Str.truthy_opt key_tail) eqn:Eskip.
  - apply andb_true_iff in Eskip. destruct Eskip as [_ Ht].
    destruct (truthy_opt_true _ Ht) as (c & t & ->).
    pose proof (split1_length _ _ _ _ E) as L. simpl tail_text.
    apply IH. simpl in *; lia.
  - destruct (Str.truthy_opt key_tail) eqn:Ht; simpl negb; cbv iota.
    + destruct (truthy_opt_true _ Ht) as (c & t & ->).
      pose proof (split1_length _ _ _ _ E) as L. simpl tail_text. cbv zeta.
      assert (G : exists val,
                 Dict.get (items (if Dict.mem (items self) key then self
                                  else store self key (Subtree (Config_empty None))))
                          key = Some val).
      { destruct (Dict.mem (items self) key) eqn:Hm.
        - exact (dict_mem_get _ _ Hm).
        - simpl. rewrite dict_get_set_same. eauto. }
      destruct G as [val ->].
      destruct val; try (intros H; inversion H; reflexivity).
      destruct (setitem_with wrap c0 (String c t)) as [child' r'] eqn:Ec.
      intros H. inversion H; subst.
      apply (IH (String c t) c0 child' e); [simpl in *; lia|exact Ec].
    + destruct (wrap (Some (child_path self key))) as [val|e'] eqn:Ew;
        intros H; inversion H; subst.
      exact (Hw _ _ Ew).
Qed.

Lemma init_loop_raises (d : list (string * raw)) :
  Forall (fun kv => forall pp e,
            ConfigValue_get (snd kv) pp = Raise e -> e = TypeError) d ->
  forall self e, init_loop ConfigValue_get d self = Raise e -> e = TypeError.
Proof.
  induction 1 as [|[k v] d Hv _ IH]; intros self e; simpl; [discriminate|].
  destruct (setitem_with (ConfigValue_get v) self k) as [self' [e'|]] eqn:Es.
  - intros H. inversion H; subst.
    exact (setitem_with_raises _ Hv (S (String.length k)) k self self' e
             (Nat.lt_succ_diag_r _) Es).
  - apply IH.
Qed.

Lemma ConfigValue_get_raises :
  forall (value : raw) (pp : option string) (e : exn),
    ConfigValue_get value pp = Raise e -> e = TypeError.
Proof.
  induction value as [| | | |l _|d IH] using raw_induction; intros pp e;
    try (simpl; discriminate).
  rewrite ConfigValue_get_dict.
  destruct (init_loop ConfigValue_get d (Config_empty pp)) as [c|e'] eqn:E;
    simpl; intros H; inversion H; subst.
  exact (init_loop_raises d IH _ _ E).
Qed.

Lemma getitem_raises :
  forall (n : nat) (raw_key : string) (self : Config) (e : exn),
    String.length raw_key < n ->
    getitem self raw_key = Raise e ->
    e = TypeError \/
    exists key, e = KeyError key /\ Str.contains slash key = false.
Proof.
  induction n as [|n IH]; intros raw_key self e Hn; [lia|].
  rewrite getitem_eq.
  destruct (Str.split1 slash raw_key) as [key key_tail] eqn:E.
  pose proof (split1_head_clean _ _ _ _ E) as Hkey.
  destruct (negb (Str.truthy key) && Str.truthy_opt key_tail) eqn:Eskip.
  - apply andb_true_iff in Eskip. destruct Eskip as [_ Ht].
    destruct (truthy_opt_true _ Ht) as (c & t & ->).
    pose proof (split1_length _ _ _ _ E) as L. simpl tail_text.
    apply IH. simpl in *; lia.
  - destruct (Dict.get (items self) key) as [val|].
    + destruct (Str.truthy_opt key_tail) eqn:Ht; [|discriminate].
      destruct (truthy_opt_true _ Ht) as (c & t & ->).
      pose proof (split1_length _ _ _ _ E) as L. simpl tail_text.
      destruct val; try (intros H; inversion H; left; reflexivity).
      apply IH. simpl in *; lia.
    + intros H. inversion H. right. eauto.
Qed.

(** ** Under the limit on nested calls *)

Lemma split1_split (sep : ascii) (s h t : string) :
  Str.split1 sep s = (h, Some t) -> Str.split sep s = h :: Str.split sep t.
Proof.
  revert h t. induction s as [|c s IH]; simpl; intros h t E; [discriminate|].
  destruct (Ascii.eqb c sep).
  - inversion E; subst. reflexivity.
  - destruct (Str.split1 sep s) as [h' t'] eqn:E'.
    inversion E; subst. rewrite (IH h' t eq_refl). reflexivity.
Qed.

Lemma key_calls_tail (raw_key h t : string) :
  Str.split1 slash raw_key = (h, Some t) -> key_calls raw_key = S (key_calls t).
Proof.
  intros E. unfold key_calls. rewrite (split1_split _ _ _ _ E). reflexivity.
Qed.

Lemma key_calls_pos (raw_key : string) : 0 < key_calls raw_key.
Proof.
  unfold key_calls. pose proof (split_not_nil slash raw_key) as H.
  destruct (Str.split slash raw_key); [congruence|simpl; lia].
Qed.

Lemma key_calls_cons (c : ascii) (s : string) :
  key_calls (String c s)
  = (if Ascii.eqb c slash then 1 else 0) + key_calls s.
Proof.
  unfold key_calls. simpl. pose proof (split_not_nil slash s) as H.
  destruct (Ascii.eqb c slash); [reflexivity|].
  destruct (Str.split slash s); [congruence|reflexivity].
Qed.

Lemma key_calls_append (s t : string) : key_calls s <= key_calls (s ++ t).
Proof.
  induction s as [|c s IH].
  - simpl. exact (key_calls_pos t).
  - change (String c s ++ t)%string with (String c (s ++ t)).
    rewrite !key_calls_cons. lia.
Qed.

Lemma key_calls_path_of (segs : list string) :
  Forall (fun s => Str.contains slash s = false) segs -> segs <> [] ->
  key_calls (path_of segs) = length segs.
Proof.
  intros Hc Hne. unfold key_calls. rewrite (split_path_of _ Hc Hne). reflexivity.
Qed.

(** The key without its empty segments needs no more calls. *)
Lemma key_calls_filter (segs : list string) (sfx : string) :
  Forall (fun s => Str.contains slash s = false) segs ->
  Str.truthy (last segs EmptyString) = true ->
  key_calls (path_of (filter Str.truthy segs)) <= key_calls (path_of segs ++ sfx).
Proof.
  intros Hc Hl.
  assert (Hne : segs <> []) by (intros ->; discriminate Hl).
  pose proof (key_calls_append (path_of segs) sfx) as Ha.
  rewrite (key_calls_path_of _ Hc Hne) in Ha.
  rewrite key_calls_path_of.
  - pose proof (filter_length_le Str.truthy segs). lia.
  - eapply Forall_impl; [|exact (filter_truthy_clean _ Hc)]. intros s [_ H]. exact H.
  - exact (filter_truthy_last _ Hl).
Qed.

(** With a call left for every piece of the key the lookup is the one of
    the equations. *)
Lemma getitem_within_enough :
  forall (depth : nat) (self : Config) (raw_key : string),
    key_calls raw_key <= depth ->
    getitem_within depth self raw_key = getitem self raw_key.
Proof.
  unfold getitem_within.
  induction depth as [|d IH]; intros self raw_key H.
  - pose proof (key_calls_pos raw_key). lia.
  - rewrite getitem_eq. simpl.
    destruct (Str.split1 slash raw_key) as [key key_tail] eqn:E.
    destruct key_tail as [t|]; simpl.
    + pose proof (key_calls_tail _ _ _ E) as L.
      destruct (negb (Str.truthy key) && Str.truthy t).
      * apply IH. lia.
      * destruct (Dict.get (items self) key) as [val|]; [|reflexivity].
        destruct (Str.truthy t); [|reflexivity].
        destruct val; try reflexivity. apply IH. lia.
    + rewrite andb_false_r. reflexivity.
Qed.

Lemma getitem_within_raises :
  forall (depth : nat) (self : Config) (raw_key : string) (e : exn),
    getitem_within depth self raw_key = Raise e ->
    e = TypeError \/
    (exists key, e = KeyError key /\ Str.contains slash key = false) \/
    e = RecursionError.
Proof.
  unfold getitem_within.
  induction depth as [|d IH]; intros self raw_key e; simpl.
  - intros H. inversion H. auto.
  - destruct (Str.split1 slash raw_key) as [key key_tail] eqn:E.
    pose proof (split1_head_clean _ _ _ _ E) as Hkey.
    destruct (negb (Str.truthy key) && Str.truthy_opt key_tail); [apply IH|].
    destruct (Dict.get (items self) key) as [val|].
    + destruct (Str.truthy_opt key_tail); [|discriminate].
      destruct val; try (intros H; inversion H; left; reflexivity).
      apply IH.
    + intros H. inversion H. right. left. eauto.
Qed.

Lemma truthy_slashes (n : nat) (s : string) :
  Str.truthy s = true -> Str.truthy (slashes n ++ s) = true.
Proof. intros H. destruct n; [exact H|reflexivity]. Qed.

(** As many slashes in front of a key as there are calls left use them
    up. *)
Lemma getitem_within_slashes :
  forall (depth n : nat) (self : Config) (raw_key : string),
    depth <= n -> Str.truthy raw_key = true ->
    getitem_within depth self (slashes n ++ raw_key) = Raise RecursionError.
Proof.
  unfold getitem_within.
  induction depth as [|d IH]; intros n self raw_key Hn H; [reflexivity|].
  destruct n as [|n]; [lia|].
  simpl. rewrite (truthy_slashes n _ H). simpl. apply IH; [lia|exact H].
Qed.

Lemma setitem_rec_within_slashes (wrap : nat -> option string -> result ConfigValue) :
  forall (depth n : nat) (self : Config) (raw_key : string),
    depth <= n -> Str.truthy raw_key = true ->
    setitem_rec_within wrap depth self (slashes n ++ raw_key)
    = (self, Some RecursionError).
Proof.
  induction depth as [|d IH]; intros n self raw_key Hn H; [reflexivity|].
  destruct n as [|n]; [lia|].
  simpl. rewrite (truthy_slashes n _ H). simpl. apply IH; [lia|exact H].
Qed.

(** With calls left for the key and for the value the assignment is the
    one of the equations. *)
Lemma setitem_rec_within_enough
    (wrapw : nat -> option string -> result ConfigValue)
    (wrap : option string -> result ConfigValue) (calls : nat) :
  (forall d pp, calls <= d -> wrapw d pp = wrap pp) ->
  forall (depth : nat) (self : Config) (raw_key : string),
    key_calls raw_key + calls <= depth ->
    setitem_rec_within wrapw depth self raw_key = setitem_with wrap self raw_key.
Proof.
  intros Hw. induction depth as [|d IH]; intros self raw_key H.
  - pose proof (key_calls_pos raw_key). lia.
  - rewrite setitem_with_eq. simpl.
    destruct (Str.split1 slash raw_key) as [key key_tail] eqn:E.
    destruct key_tail as [t|]; simpl.
    + pose proof (key_calls_tail _ _ _ E) as L.
      pose proof (key_calls_pos t) as Lt.
      destruct (negb (Str.truthy key) && Str.truthy t).
      * apply IH. lia.
      * destruct (Str.truthy t); simpl.
        -- destruct d as [|d']; [lia|].
           match goal with |- match Dict.get ?m key with _ => _ end = _ =>
             destruct (Dict.get m key) as [val|]; [|reflexivity] end.
           destruct val; try reflexivity.
           rewrite (IH c t) by lia. reflexivity.
        -- rewrite Hw by lia. reflexivity.
    + pose proof (key_calls_pos raw_key) as L.
      rewrite andb_false_r. simpl. rewrite Hw by lia. reflexivity.
Qed.

Lemma setitem_rec_within_raises
    (wrap : nat -> option string -> result ConfigValue) :
  (forall d pp e, wrap d pp = Raise e -> e = TypeError \/ e = RecursionError) ->
  forall (depth : nat) (self self' : Config) (raw_key : string) (e : exn),
    setitem_rec_within wrap depth self raw_key = (self', Some e) ->
    e = TypeError \/ e = RecursionError.
Proof.
  intros Hw. induction depth as [|d IH]; intros self self' raw_key e; simpl.
  - intros H. inversion H. auto.
  - destruct (Str.split1 slash raw_key) as [key key_tail] eqn:E.
    destruct (negb (Str.truthy key) && Str.truthy_opt key_tail); [apply IH|].
    destruct (Str.truthy_opt key_tail); simpl negb; cbv iota.
    + destruct d as [|d']; [intros H; inversion H; auto|]. cbv zeta.
      assert (G : exists val,
                 Dict.get (items (if Dict.mem (items self) key then self
                                  else store self key (Subtree (Config_empty None))))
                          key = Some val).
      { destruct (Dict.mem (items self) key) eqn:Hm.
        - exact (dict_mem_get _ _ Hm).
        - simpl. rewrite dict_get_set_same. eauto. }
      destruct G as [val ->].
      destruct val; try solve [intros H; inversion H; auto].
      destruct (setitem_rec_within wrap (S d') c (tail_text key_tail))
        as [child' r'] eqn:Ec.
      intros H. inversion H; subst.
      exact (IH _ _ _ _ Ec).
    + destruct (wrap d (Some (child_path self key))) as [val|e'] eqn:Ew;
        intros H; inversion H; subst.
      exact (Hw _ _ _ Ew).
Qed.

Lemma ConfigValue_get_within_dict (d : list (string * raw)) (depth : nat)
    (pp : option string) :
  ConfigValue_get_within (RDict d) (S (S depth)) pp =
  (c <- init_loop_within ConfigValue_get_within depth d (Config_empty pp) ;;
   Ok (Subtree c)).
Proof.
  simpl. f_equal. generalize (Config_empty pp).
  induction d as [|[k v] d IH]; intros self; simpl; [reflexivity|].
  destruct (setitem_rec_within (ConfigValue_get_within v) depth self k)
    as [self' [e|]]; [reflexivity|apply IH].
Qed.

Lemma value_calls_dict (d : list (string * raw)) :
  value_calls (RDict d) = 2 + contents_calls d.
Proof. reflexivity. Qed.

Lemma init_loop_within_enough (depth : nat) (d : list (string * raw)) :
  Forall (fun kv => forall n pp,
            value_calls (snd kv) <= n ->
            ConfigValue_get_within (snd kv) n pp = ConfigValue_get (snd kv) pp) d ->
  contents_calls d <= depth ->
  forall self,
    init_loop_within ConfigValue_get_within depth d self
    = init_loop ConfigValue_get d self.
Proof.
  induction 1 as [|[k v] d Hv _ IH]; intros Hd self; simpl; [reflexivity|].
  simpl in Hd, Hv.
  rewrite (setitem_rec_within_enough _ (ConfigValue_get v) (value_calls v)
             (fun n pp Hn => Hv n pp Hn) depth self k) by lia.
  destruct (setitem_with (ConfigValue_get v) self k) as [self' [e|]];
    [reflexivity|].
  apply IH. lia.
Qed.

Lemma ConfigValue_get_within_enough :
  forall (value : raw) (depth : nat) (pp : option string),
    value_calls value <= depth ->
    ConfigValue_get_within value depth pp = ConfigValue_get value pp.
Proof.
  induction value as [| | | |l _|d IH] using raw_induction; intros depth pp H;
    try (simpl in H; destruct depth as [|[|depth]]; [lia|lia|reflexivity]).
  - destruct depth; [simpl in H; lia|reflexivity].
  - rewrite value_calls_dict in H.
    destruct depth as [|[|depth]]; [lia|lia|].
    rewrite ConfigValue_get_within_dict, ConfigValue_get_dict.
    rewrite (init_loop_within_enough depth d IH) by lia. reflexivity.
Qed.

Lemma init_loop_within_raises (depth : nat) (d : list (string * raw)) :
  Forall (fun kv => forall n pp e,
            ConfigValue_get_within (snd kv) n pp = Raise e ->
            e = TypeError \/ e = RecursionError) d ->
  forall self e,
    init_loop_within ConfigValue_get_within depth d self = Raise e ->
    e = TypeError \/ e = RecursionError.
Proof.
  induction 1 as [|[k v] d Hv _ IH]; intros self e; simpl; [discriminate|].
  destruct (setitem_rec_within (ConfigValue_get_within v) depth self k)
    as [self' [e'|]] eqn:Es.
  - intros H. inversion H; subst.
    exact (setitem_rec_within_raises _ Hv _ _ _ _ _ Es).
  - apply IH.
Qed.

Lemma ConfigValue_get_within_raises :
  forall (value : raw) (depth : nat) (pp : option string) (e : exn),
    ConfigValue_get_within value depth pp = Raise e ->
    e = TypeError \/ e = RecursionError.
Proof.
  induction value as [| | | |l _|d IH] using raw_induction; intros depth pp e;
    try (destruct depth as [|[|depth]]; simpl; intros H; inversion H; auto; fail).
  destruct depth as [|[|depth]]; try (simpl; intros H; inversion H; auto; fail).
  rewrite ConfigValue_get_within_dict.
  destruct (init_loop_within ConfigValue_get_within depth d (Config_empty pp))
    as [c|e'] eqn:E; simpl; intros H; inversion H; subst.
  exact (init_loop_within_raises depth d IH _ _ E).
Qed.







(** ** The shape every operation keeps *)

Lemma apply_diff_ok :
  forall (entries : list diff_item) (self self' : Config) (r : option exn),
    config_ok false self = true ->
    apply_diff self entries = (self', r) ->
    config_ok false self' = true.
Proof.
  induction entries as [|item rest IH]; intros self self' r Hok; simpl.
  - intros H. inversion H; subst. exact Hok.
  - assert (Hstep : forall key new,
              (if Str.truthy key
               then match setitem self key new with
                    | (s1, None) => apply_diff s1 rest
                    | (s1, Some e) => (s1, Some e)
                    end
               else apply_diff self rest) = (self', r) ->
              config_ok false self' = true).
    { intros key new. destruct (Str.truthy key); [|apply IH; exact Hok].
      destruct (setitem self key new) as [s1 [e|]] eqn:Es.
      - intros H. inversion H; subst. exact (setitem_ok _ _ _ _ _ Hok Es).
      - apply IH. exact (setitem_ok _ _ _ _ _ Hok Es). }
    destruct item as [key new|key old new|]; [apply Hstep|apply Hstep|].
    apply IH. exact Hok.
Qed.

(** X6. In every node of a tree that [Config(contents)] builds from
    [None] or from a [dict], that [ConfigValue.get] builds from a [dict]
    (as [deserialise] does) or that [from_kvlist] builds, no key has a
    slash in it, and assignments and [apply_diff] keep it so, also when
    they raise. A tree the constructor is handed as a sequence of pairs is
    stored as given, slashes and all; it is not among these. *)
Theorem X6_keys_are_free_of_slashes :
  (forall (contents : option (list (string * raw))) (pp : option string)
          (t : Config),
      Config_init contents pp = Ok t -> config_ok false t = true) /\
  (forall (contents : list (string * raw)) (pp : option string) (t : Config),
      ConfigValue_get (RDict contents) pp = Ok (Subtree t) ->
      config_ok false t = true) /\
  (forall kv_list t, from_kvlist kv_list = Ok t -> config_ok false t = true) /\
  (forall self self' raw_key value r,
      config_ok false self = true ->
      setitem self raw_key value = (self', r) ->
      config_ok false self' = true) /\
  (forall self self' entries r,
      config_ok false self = true ->
      apply_diff self entries = (self', r) ->
      config_ok false self' = true).
Proof.
  split; [|split; [|split; [|split]]].
  - exact Config_init_ok.
  - intros contents pp t H. exact (ConfigValue_get_ok _ _ _ H).
  - intros kv_list t. exact (Config_init_ok (Some kv_list) None t).
  - intros self self' raw_key value r. apply setitem_ok.
  - intros self self' entries r Hok H. exact (apply_diff_ok _ _ _ _ Hok H).
Qed.

(** A tree built from pairs, an assignment that raises on it and a list
    of entries applied to it. *)
Lemma X6_witness :
  config_ok false (tree_of [("a/b", RInt 1); ("c", RStr "x")]) = true /\
  config_ok false
    (fst (setitem (tree_of [("a/b", RInt 1); ("c", RStr "x")]) "c/d//e" (RInt 2)))
  = true /\
  config_ok false
    (fst (apply_diff (tree_of [("a/b", RInt 1); ("c", RStr "x")])
                     [Item2 "p//q" (RInt 1); ItemOther; Item3 "a/b/" RNone (RInt 3)]))
  = true.
Proof.
  destruct X6_keys_are_free_of_slashes as (H1 & _ & _ & H3 & H4).
  split; [|split].
  - exact (H1 (Some [("a/b", RInt 1); ("c", RStr "x")]) None _ eq_refl).
  - refine (H3 (tree_of [("a/b", RInt 1); ("c", RStr "x")]) _ "c/d//e" (RInt 2)
               _ eq_refl _).
    apply surjective_pairing.
  - refine (H4 (tree_of [("a/b", RInt 1); ("c", RStr "x")]) _
               [Item2 "p//q" (RInt 1); ItemOther; Item3 "a/b/" RNone (RInt 3)]
               _ eq_refl _).
    apply surjective_pairing.
Defined.

(** ** [keys] and the lookup *)

Lemma prefix_free_nodup (l : list (list string)) : prefix_free l -> NoDup l.
Proof.
  induction l as [|p l IH]; simpl; intros H; constructor.
  - intros Hin. destruct H as [H _]. specialize (H p Hin).
    rewrite comparable_refl in H. discriminate H.
  - apply IH. exact (proj2 H).
Qed.

Lemma nodup_map_path_of (l : list (list string)) :
  (forall p, In p l -> Forall clean_segment p /\ p <> []) ->
  NoDup l -> NoDup (map path_of l).
Proof.
  intros Hl Hn. induction Hn as [|p l Hp _ IH]; simpl; constructor.
  - intros Hin. apply in_map_iff in Hin. destruct Hin as (q & E & Hq).
    destruct (Hl p (or_introl eq_refl)) as [Hc Hne].
    destruct (Hl q (or_intror Hq)) as [Hc' Hne'].
    apply path_of_inj in E; try assumption. subst q. exact (Hp Hq).
  - apply IH. intros q Hq. apply Hl. right. exact Hq.
Qed.

(** A path that looks up to a leaf is a leaf path. *)
Lemma lookup_leaf_path :
  forall (p : list string) (c : Config) (v : ConfigValue),
    p <> [] -> lookup c p = Ok v -> is_config v = false -> In p (leaf_paths c).
Proof.
  assert (Hd : forall pp d k v,
             Dict.get d k = Some v ->
             (is_config v = false -> In [k] (leaf_paths (MkConfig pp d))) /\
             (forall ch rest, v = Subtree ch -> In rest (leaf_paths ch) ->
                              In (k :: rest) (leaf_paths (MkConfig pp d)))).
  { intros pp d k v. induction d as [|[k' v'] d IH]; simpl Dict.get; [discriminate|].
    rewrite leaf_paths_cons.
    destruct (String.eqb_spec k' k) as [->|N]; intros G.
    - inversion G; subst. split.
      + intros Hv. apply in_or_app. left.
        destruct v; try discriminate Hv; left; reflexivity.
      + intros ch rest -> Hr. apply in_or_app. left. apply in_map. exact Hr.
    - destruct (IH G) as [H1 H2]. split.
      + intros Hv. apply in_or_app. right. exact (H1 Hv).
      + intros ch rest E Hr. apply in_or_app. right. exact (H2 ch rest E Hr). }
  induction p as [|a rest IH]; intros c v Hne Hl Hv; [congruence|].
  destruct c as [pp d]. destruct rest as [|b rest].
  - rewrite lookup_single in Hl. simpl items in Hl.
    destruct (Dict.get d a) as [val|] eqn:G; [|discriminate].
    inversion Hl; subst. exact (proj1 (Hd pp d a v G) Hv).
  - rewrite lookup_cons in Hl. simpl items in Hl.
    destruct (Dict.get d a) as [val|] eqn:G; [|discriminate].
    destruct val; try discriminate.
    apply (proj2 (Hd pp d a (Subtree c) G) c (b :: rest) eq_refl).
    apply (IH c v); [discriminate|exact Hl|exact Hv].
Qed.

(** X7. In a tree whose keys are not empty, [keys()] has no key twice,
    every key it lists looks up to a leaf, and every path of clean
    segments that looks up to a leaf is listed. *)
Theorem X7_keys_are_the_paths_that_reach_a_leaf :
  forall c : Config,
    config_ok true c = true ->
    NoDup (keys c) /\
    (forall k, In k (keys c) ->
               exists v, getitem c k = Ok v /\ is_config v = false) /\
    (forall p v, Forall clean_segment p -> p <> [] ->
                 getitem c (path_of p) = Ok v -> is_config v = false ->
                 In (path_of p) (keys c)).
Proof.
  intros c Hok.
  assert (Hps : forall p, In p (leaf_paths c) -> Forall clean_segment p /\ p <> []).
  { intros p Hp. split; [apply (leaf_paths_lookup c Hok p Hp)|].
    exact (leaf_paths_nonempty _ _ Hp). }
  rewrite keys_leaf_paths. split; [|split].
  - apply nodup_map_path_of; [exact Hps|].
    apply prefix_free_nodup. exact (leaf_paths_prefix_free c Hok).
  - intros k Hk. apply in_map_iff in Hk. destruct Hk as (p & <- & Hp).
    destruct (Hps p Hp) as [Hc Hne].
    destruct (leaf_paths_lookup c Hok p Hp) as (_ & v & Hl & Hv).
    exists v. rewrite (getitem_lookup _ _ Hc Hne). auto.
  - intros p v Hc Hne Hg Hv. rewrite (getitem_lookup _ _ Hc Hne) in Hg.
    apply in_map. exact (lookup_leaf_path p c v Hne Hg Hv).
Qed.

(** The keys of a tree with an empty node, and a tree with an empty key
    whose listed key does not look up. *)
Lemma X7_witness :
  NoDup (keys plant_new) /\
  (forall k, In k (keys plant_new) ->
             exists v, getitem plant_new k = Ok v /\ is_config v = false) /\
  keys (tree_of [("", RDict [("b", RInt 1)])]) = ["/b"] /\
  getitem (tree_of [("", RDict [("b", RInt 1)])]) "/b" = Raise (KeyError "b").
Proof.
  destruct (X7_keys_are_the_paths_that_reach_a_leaf plant_new eq_refl)
    as (H1 & H2 & _).
  split; [exact H1|]. split; [exact H2|]. split; reflexivity.
Defined.

(** ** [must_get] and the lookup *)

Lemma must_get_loop_walk (self : Config) (path : list string) :
  forall (todo : list string) (current v : ConfigValue),
    must_get_loop self path current todo = Ok v <-> walk current todo = Some v.
Proof.
  induction todo as [|element todo IH]; intros current v; simpl.
  - split; intros H; inversion H; reflexivity.
  - unfold step. destruct current; try (split; discriminate).
    destruct (Dict.get (items c) element) as [[]|]; try (split; discriminate);
      apply IH.
Qed.

Lemma walk_lookup :
  forall (todo : list string) (t : Config) (v : ConfigValue),
    todo <> [] ->
    (walk (Subtree t) todo = Some v <-> lookup t todo = Ok v /\ v <> NoneValue).
Proof.
  induction todo as [|a rest IH]; intros t v Hne; [congruence|].
  destruct rest as [|b rest].
  - rewrite lookup_single. simpl.
    destruct (Dict.get (items t) a) as [[]|]; split;
      try (intros [H _]; discriminate H); try discriminate;
      try (intros H; inversion H; split; [reflexivity|discriminate]);
      try (intros [H _]; inversion H; reflexivity).
    intros [H N]. inversion H; subst. congruence.
  - rewrite lookup_cons.
    change (walk (Subtree t) (a :: b :: rest))
      with (match step (Subtree t) a with
            | Some next => walk next (b :: rest)
            | None => None
            end).
    simpl step.
    destruct (Dict.get (items t) a) as [[]|];
      try (split; [discriminate|intros [H _]; discriminate H]).
    apply IH. discriminate.
Qed.

Lemma lookup_none_walk :
  forall (p : list string) (t : Config),
    p <> [] -> lookup t p = Ok NoneValue ->
    exists current,
      walk (Subtree t) (removelast p) = Some current /\
      step current (last p EmptyString) = None.
Proof.
  induction p as [|a rest IH]; intros t Hne Hl; [congruence|].
  destruct rest as [|b rest].
  - rewrite lookup_single in Hl. exists (Subtree t). split; [reflexivity|].
    simpl. destruct (Dict.get (items t) a); inversion Hl. reflexivity.
  - rewrite lookup_cons in Hl.
    destruct (Dict.get (items t) a) as [val|] eqn:G; [|discriminate].
    destruct val; try discriminate.
    destruct (IH c ltac:(discriminate) Hl) as (current & Hw & Hs).
    exists current. split; [|exact Hs].
    change (removelast (a :: b :: rest)) with (a :: removelast (b :: rest)).
    simpl walk. rewrite G. exact Hw.
Qed.

(** Whatever [must_get] raises is a [ConfigNotFoundError] for the segment
    at which its loop stopped. *)
Lemma must_get_loop_raises (self : Config) (path : list string) :
  forall (todo : list string) (current : ConfigValue) (e : exn),
    must_get_loop self path current todo = Raise e ->
    exists (done : list string) (element : string) (rest : list string)
           (cur : ConfigValue),
      todo = done ++ element :: rest /\
      walk current done = Some cur /\
      step cur element = None /\
      e = ConfigNotFoundError self (Str.join "/" path) element.
Proof.
  induction todo as [|a todo IH]; intros current e; simpl; [discriminate|].
  assert (Hstop : step current a = None ->
            exists done element rest cur,
              a :: todo = done ++ element :: rest /\
              walk current done = Some cur /\
              step cur element = None /\
              ConfigNotFoundError self (Str.join "/" path) a
              = ConfigNotFoundError self (Str.join "/" path) element).
  { intros Hs. exists [], a, todo, current.
    split; [reflexivity|]. split; [reflexivity|]. split; [exact Hs|reflexivity]. }
  assert (Hgo : forall next,
            step current a = Some next ->
            must_get_loop self path next todo = Raise e ->
            exists done element rest cur,
              a :: todo = done ++ element :: rest /\
              walk current done = Some cur /\
              step cur element = None /\
              e = ConfigNotFoundError self (Str.join "/" path) element).
  { intros next Hs H.
    destruct (IH next e H) as (done & element & rest & cur & -> & Hw & Hst & ->).
    exists (a :: done), element, rest, cur. simpl walk. rewrite Hs. auto. }
  destruct current;
    try (intros H; inversion H; subst; apply Hstop; reflexivity).
  unfold step in Hstop, Hgo.
  destruct (Dict.get (items c) a) as [[]|];
    try (intros H; inversion H; subst; apply Hstop; reflexivity);
    apply Hgo; reflexivity.
Qed.

(** The lookup of a path in two parts. *)
Lemma lookup_app :
  forall (done : list string) (self : Config) (cur : ConfigValue)
         (q : list string),
    done <> [] -> q <> [] ->
    lookup self done = Ok cur ->
    lookup self (done ++ q) =
    match cur with
    | Subtree c => lookup c q
    | _ => Raise TypeError
    end.
Proof.
  induction done as [|a rest IH]; intros self cur q Hne Hq Hl; [congruence|].
  destruct q as [|b q]; [congruence|].
  destruct rest as [|a' rest].
  - rewrite lookup_single in Hl. change ([a] ++ b :: q) with (a :: b :: q).
    rewrite lookup_cons.
    destruct (Dict.get (items self) a) as [val|]; [|discriminate].
    inversion Hl; subst. destruct cur; reflexivity.
  - rewrite lookup_cons in Hl.
    change ((a :: a' :: rest) ++ b :: q) with (a :: (a' :: rest) ++ b :: q).
    change ((a' :: rest) ++ b :: q) with (a' :: rest ++ b :: q).
    rewrite lookup_cons.
    destruct (Dict.get (items self) a) as [val|]; [|discriminate].
    destruct val; try discriminate.
    apply (IH c cur (b :: q)); [discriminate|discriminate|exact Hl].
Qed.

(** Where the loop of [must_get] stops on a path of clean segments whose
    lookup fails: at the segment at which the lookup fails, or at one that
    holds a stored [None], through which the lookup fails next. *)
Lemma must_get_stops_where_lookup_fails (self : Config) :
  forall (done : list string) (element : string) (rest : list string)
         (cur : ConfigValue) (e : exn),
    walk (Subtree self) done = Some cur ->
    step cur element = None ->
    lookup self (done ++ element :: rest) = Raise e ->
    (done = [] \/ lookup self done = Ok cur /\ cur <> NoneValue) /\
    (lookup self (done ++ [element]) = Raise e \/
     lookup self (done ++ [element]) = Ok NoneValue).
Proof.
  intros done element rest cur e Hw Hs Hl.
  assert (Hat : forall c : Config,
            step (Subtree c) element = None ->
            lookup c (element :: rest) = Raise e ->
            lookup c [element] = Raise e \/ lookup c [element] = Ok NoneValue).
  { intros c Hsc Hlc. rewrite lookup_single. simpl in Hsc.
    destruct rest as [|b rest].
    - rewrite lookup_single in Hlc.
      destruct (Dict.get (items c) element) as [[]|]; try discriminate; auto.
    - rewrite lookup_cons in Hlc.
      destruct (Dict.get (items c) element) as [[]|]; try discriminate; auto. }
  destruct done as [|a done].
  - simpl in Hw. inversion Hw; subst. split; [left; reflexivity|].
    apply Hat; assumption.
  - assert (Hne : a :: done <> []) by discriminate.
    apply (walk_lookup _ self cur Hne) in Hw. destruct Hw as [Hd Hn].
    split; [right; split; assumption|].
    rewrite (lookup_app _ _ _ (element :: rest) Hne ltac:(discriminate) Hd) in Hl.
    rewrite (lookup_app _ _ _ [element] Hne ltac:(discriminate) Hd).
    destruct cur; try (left; exact Hl).
    apply Hat; assumption.
Qed.


(** What the two calls do on keys with an empty segment and on a stored
    [None]. *)
Lemma must_get_empty_segments :
  getitem (tree_of [(EmptyString, RDict [("b", RInt 1)])]) "/b"
  = Raise (KeyError "b") /\
  must_get (tree_of [(EmptyString, RDict [("b", RInt 1)])]) "/b"
  = Ok (ConfigInt 1 (Some "b")) /\
  getitem (tree_of [("a", RDict [])]) "/a/missing" = Raise (KeyError "missing") /\
  must_get (tree_of [("a", RDict [])]) "/a/missing"
  = Raise (ConfigNotFoundError (tree_of [("a", RDict [])]) "/a/missing" EmptyString) /\
  getitem (tree_of [("a", RNone)]) "a/b" = Raise TypeError /\
  must_get (tree_of [("a", RNone)]) "a/b"
  = Raise (ConfigNotFoundError (tree_of [("a", RNone)]) "a/b" "a").
Proof. repeat split; reflexivity. Qed.



(** X8. On a path of clean segments [must_get] returns a value exactly
    when the lookup [self[path]] returns it and it is not [None]; where
    the lookup returns a stored [None], [must_get] reports the last
    segment as not found. *)
Theorem X8_must_get_agrees_with_lookup :
  forall (self : Config) (p : list string),
    Forall clean_segment p -> p <> [] ->
    (forall v, must_get self (path_of p) = Ok v <->
               getitem self (path_of p) = Ok v /\ v <> NoneValue) /\
    (getitem self (path_of p) = Ok NoneValue ->
     must_get self (path_of p)
     = Raise (ConfigNotFoundError self (path_of p) (last p EmptyString))).
Proof.
  intros self p Hc Hne.
  assert (Hs : Str.split slash (path_of p) = p).
  { apply split_path_of; [|exact Hne].
    eapply Forall_impl; [|exact Hc]. intros s [_ H]. exact H. }
  rewrite (getitem_lookup _ _ Hc Hne). split.
  - intros v. unfold must_get. rewrite Hs, must_get_loop_walk.
    apply walk_lookup. exact Hne.
  - intros Hl. destruct (lookup_none_walk p self Hne Hl) as (current & Hw & Hst).
    apply (must_get_fails self (path_of p) (removelast p) (last p EmptyString) []
             current); [|exact Hw|exact Hst].
    rewrite Hs. apply app_removelast_last. exact Hne.
Qed.

(** A tree with a stored [None]: the lookup returns it, [must_get] does
    not find it. *)
Lemma X8_witness :
  (forall v, must_get (tree_of [("a/b", RInt 1); ("a/n", RNone)]) (path_of ["a"; "b"]) = Ok v <->
             getitem (tree_of [("a/b", RInt 1); ("a/n", RNone)]) (path_of ["a"; "b"]) = Ok v
             /\ v <> NoneValue) /\
  must_get (tree_of [("a/b", RInt 1); ("a/n", RNone)]) (path_of ["a"; "n"])
  = Raise (ConfigNotFoundError (tree_of [("a/b", RInt 1); ("a/n", RNone)]) "a/n" "n").
Proof.
  split.
  - refine (proj1 (X8_must_get_agrees_with_lookup _ ["a"; "b"] _ _)).
    + repeat constructor.
    + discriminate.
  - refine (proj2 (X8_must_get_agrees_with_lookup _ ["a"; "n"] _ _) _).
    + repeat constructor.
    + discriminate.
    + reflexivity.
Defined.

(** ** Parental paths of constructed trees *)

Lemma opt_eqb_eq (a b : option string) : opt_eqb a b = true -> a = b.
Proof.
  destruct a as [x|], b as [y|]; simpl; try discriminate; [|reflexivity].
  intros H. apply String.eqb_eq in H. congruence.
Qed.

Lemma opt_eqb_refl (a : option string) : opt_eqb a a = true.
Proof. destruct a; simpl; [apply String.eqb_refl|reflexivity]. Qed.

Lemma config_paths_ok_eq (pp : option string) (d : list (string * ConfigValue)) :
  config_paths_ok (MkConfig pp d) = entries_paths_ok pp d.
Proof.
  simpl. induction d as [|[k v] d IH]; simpl; [reflexivity|].
  rewrite IH. reflexivity.
Qed.

Lemma entries_paths_ok_set (pp : option string) (d : list (string * ConfigValue))
    (k : string) (v : ConfigValue) :
  entries_paths_ok pp d = true ->
  value_paths_ok (Some (child_path (MkConfig pp []) k)) v = true ->
  entries_paths_ok pp (Dict.set d k v) = true.
Proof.
  intros Hd Hv. induction d as [|[k' v'] d IH]; simpl.
  - rewrite Hv. reflexivity.
  - simpl in Hd. apply andb_true_iff in Hd. destruct Hd as [Hv' Hd].
    destruct (String.eqb_spec k' k) as [->|N]; simpl.
    + rewrite Hv, Hd. reflexivity.
    + rewrite Hv', (IH Hd). reflexivity.
Qed.

Lemma raw_keys_ok_cons (k : string) (v : raw) (d : list (string * raw)) :
  raw_keys_ok (RDict ((k, v) :: d)) = true ->
  Str.contains slash k = false /\ raw_keys_ok v = true /\
  raw_keys_ok (RDict d) = true.
Proof.
  simpl. intros H.
  apply andb_true_iff in H. destruct H as [H H3].
  apply andb_true_iff in H. destruct H as [H1 H2].
  apply negb_true_iff in H1. auto.
Qed.

Lemma init_loop_paths (d : list (string * raw)) :
  Forall (fun kv =>
            raw_keys_ok (snd kv) = true ->
            forall pp, exists v,
              ConfigValue_get (snd kv) pp = Ok v /\ value_paths_ok pp v = true) d ->
  raw_keys_ok (RDict d) = true ->
  forall (pp : option string) (acc : list (string * ConfigValue)),
    entries_paths_ok pp acc = true ->
    exists acc',
      init_loop ConfigValue_get d (MkConfig pp acc) = Ok (MkConfig pp acc') /\
      entries_paths_ok pp acc' = true.
Proof.
  induction 1 as [|[k v] d Hv _ IH]; intros Hok pp acc Hacc.
  - exists acc. split; [reflexivity|exact Hacc].
  - apply raw_keys_ok_cons in Hok. destruct Hok as (Hk & Hvok & Hd).
    simpl in Hv. simpl init_loop. rewrite (setitem_with_direct _ _ _ Hk).
    destruct (Hv Hvok (Some (child_path (MkConfig pp acc) k))) as (v' & -> & Hp).
    unfold store. simpl parental_path. simpl items.
    apply (IH Hd). apply entries_paths_ok_set; assumption.
Qed.

Lemma ConfigValue_get_paths :
  forall value : raw,
    raw_keys_ok value = true ->
    forall pp, exists v,
      ConfigValue_get value pp = Ok v /\ value_paths_ok pp v = true.
Proof.
  induction value as [| | | |l _|d IH] using raw_induction; intros Hok pp;
    try (eexists; split; [reflexivity|]; simpl; try apply opt_eqb_refl; reflexivity).
  rewrite ConfigValue_get_dict. unfold Config_empty.
  destruct (init_loop_paths d IH Hok pp [] eq_refl) as (acc' & -> & Hacc).
  eexists. split; [reflexivity|]. simpl bind.
  change (value_paths_ok pp (Subtree (MkConfig pp acc')))
    with (opt_eqb pp pp && config_paths_ok (MkConfig pp acc')).
  rewrite opt_eqb_refl, config_paths_ok_eq. exact Hacc.
Qed.



(** ** Serialisation of values and of trees with their paths *)

Lemma rewrap_exact_loop (d : list (string * ConfigValue)) :
  Forall (fun kv =>
            value_ok false (snd kv) = true ->
            forall expected,
              value_paths_ok expected (snd kv) = true ->
              ConfigValue_get (plain (snd kv)) expected = Ok (snd kv)) d ->
  entries_ok false d = true ->
  forall (pp : option string) (acc : list (string * ConfigValue)),
    entries_paths_ok pp d = true ->
    (forall k, In k (map fst d) -> Dict.mem acc k = false) ->
    init_loop ConfigValue_get (plain_items d) (MkConfig pp acc)
    = Ok (MkConfig pp (acc ++ d)).
Proof.
  induction 1 as [|[k v] d Hv _ IH]; intros Hok pp acc Hp Hfresh.
  - rewrite app_nil_r. reflexivity.
  - apply entries_ok_cons in Hok. destruct Hok as (Hk & Hm & Hvok & Hd).
    simpl in Hp. apply andb_true_iff in Hp. destruct Hp as [Hpv Hpd].
    simpl in Hv. simpl plain_items. simpl init_loop.
    rewrite (setitem_with_direct _ _ _ (key_ok_clean _ _ Hk)).
    change (child_path (MkConfig pp acc) k) with (child_path (MkConfig pp []) k).
    rewrite (Hv Hvok _ Hpv).
    unfold store. simpl parental_path. simpl items.
    rewrite (dict_set_fresh acc k v) by (apply Hfresh; left; reflexivity).
    change (map (fun kv => (fst kv, plain (snd kv))) d) with (plain_items d).
    rewrite (IH Hd pp (acc ++ [(k, v)]) Hpd).
    + rewrite <- app_assoc. reflexivity.
    + intros k2 Hin. rewrite dict_mem_app, (Hfresh k2 (or_intror Hin)).
      unfold Dict.mem. simpl.
      destruct (String.eqb_spec k k2) as [->|_]; [|reflexivity].
      rewrite (dict_mem_in d k2 Hin) in Hm. discriminate Hm.
Qed.

(** [ConfigValue.get] applied to the built-in value of a stored value
    whose paths are the computed ones, with the same path, gives the
    stored value back. *)
Lemma rewrap_exact :
  forall v, value_ok false v = true ->
  forall expected, value_paths_ok expected v = true ->
                   ConfigValue_get (plain v) expected = Ok v.
Proof.
  apply (value_induction
           (fun v => value_ok false v = true ->
                     forall expected, value_paths_ok expected v = true ->
                                      ConfigValue_get (plain v) expected = Ok v)
           (fun c => config_ok false c = true ->
                     config_paths_ok c = true ->
                     init_loop ConfigValue_get (plain_items (items c))
                               (Config_empty (parental_path c)) = Ok c)).
  - intros v Hv _ expected Hp.
    destruct v; try discriminate Hv; simpl in Hp |- *;
      try (apply opt_eqb_eq in Hp; subst); reflexivity.
  - intros c IH Hok expected Hp.
    change (value_paths_ok expected (Subtree c))
      with (opt_eqb (parental_path c) expected && config_paths_ok c) in Hp.
    apply andb_true_iff in Hp. destruct Hp as [He Hp].
    apply opt_eqb_eq in He. subst expected.
    change (plain (Subtree c)) with (plain_config c).
    destruct c as [cp d]. rewrite plain_config_eq, ConfigValue_get_dict.
    simpl parental_path. simpl in IH. rewrite (IH Hok Hp). reflexivity.
  - intros cp d IH Hok Hp. rewrite config_ok_eq in Hok.
    rewrite config_paths_ok_eq in Hp. simpl.
    apply (rewrap_exact_loop d IH Hok cp [] Hp). intros k _. reflexivity.
Qed.

(** X10. For a stored string, number or list whose parental path has no
    colon in it, and a codec that reads back the JSON text of the value,
    [deserialise] of its [serialise()] is the value itself, path
    included; for a tree of the constructed shape whose paths are the
    computed ones, it is the tree itself. *)
Theorem X10_serialise_round_trip_with_paths :
  forall (json_dumps : raw -> string) (json_loads : string -> option raw)
         (v : ConfigValue) (p : string),
    value_ok false v = true ->
    value_paths_ok (Some p) v = true ->
    v <> NoneValue ->
    Str.contains colon p = false ->
    json_loads (json_dumps (plain v)) = Some (plain v) ->
    exists text,
      ConfigValue_serialise json_dumps v = Ok text /\
      deserialise json_loads text = Ok v.
Proof.
  intros json_dumps json_loads v p Hok Hp Hne Hc Hj.
  assert (Hpath : value_path v = Some (Some p)).
  { destruct v; try congruence; simpl in Hp |- *;
      try (apply opt_eqb_eq in Hp; congruence).
    apply andb_true_iff in Hp. destruct Hp as [Hp _].
    apply opt_eqb_eq in Hp. congruence. }
  assert (Hd : deserialise json_loads (p ++ ":" ++ json_dumps (plain v))%string = Ok v).
  { unfold deserialise. rewrite (split1_colon _ _ Hc), Hj.
    exact (rewrap_exact v Hok (Some p) Hp). }
  destruct v; try congruence; simpl in Hpath; inversion Hpath; subst;
    eexists; (split; [reflexivity|]); try exact Hd.
  unfold serialise.
  match goal with H : parental_path _ = Some _ |- _ => rewrite H end.
  exact Hd.
Qed.

Lemma X10_witness :
  (exists text,
      ConfigValue_serialise Json.dumps (ConfigList [RInt 1; RStr "a:b"] (Some "svc/tags"))
      = Ok text /\
      deserialise Json.loads text = Ok (ConfigList [RInt 1; RStr "a:b"] (Some "svc/tags"))) /\
  (exists text,
      ConfigValue_serialise Json.dumps
        (Subtree (MkConfig (Some "svc")
                    [("host", ConfigString "h" (Some "svc/host"));
                     ("tls", Subtree (MkConfig (Some "svc/tls")
                                        [("on", ConfigInt 1 (Some "svc/tls/on"))]))]))
      = Ok text /\
      deserialise Json.loads text
      = Ok (Subtree (MkConfig (Some "svc")
                       [("host", ConfigString "h" (Some "svc/host"));
                        ("tls", Subtree (MkConfig (Some "svc/tls")
                                           [("on", ConfigInt 1 (Some "svc/tls/on"))]))]))).
Proof.
  split.
  - refine (X10_serialise_round_trip_with_paths Json.dumps Json.loads _ "svc/tags"
              _ _ _ _ _); try reflexivity. discriminate.
  - refine (X10_serialise_round_trip_with_paths Json.dumps Json.loads _ "svc"
              _ _ _ _ _); try reflexivity. discriminate.
Defined.

(** X11. [deserialise] cuts its argument at the first colon: a text
    without a colon raises [ValueError]; otherwise what is before the
    first colon is the parental path and everything after it, further
    colons included, is what [json.loads] gets, [JSONDecodeError] if it
    rejects it. A parental path with a colon in it therefore does not come
    back from [serialise]: its part after the colon goes to [json.loads]. *)
Theorem X11_deserialise_cuts_at_first_colon :
  forall (json_dumps : raw -> string) (json_loads : string -> option raw),
    (forall text, Str.contains colon text = false ->
                  deserialise json_loads text = Raise ValueError) /\
    (forall head rest,
        Str.contains colon head = false ->
        deserialise json_loads (head ++ ":" ++ rest)
        = match json_loads rest with
          | Some decoded => ConfigValue_get decoded (Some head)
          | None => Raise JSONDecodeError
          end) /\
    (forall (d : list (string * ConfigValue)) (head rest : string),
        Str.contains colon head = false ->
        json_loads
          (rest ++ ":" ++
           json_dumps (plain_config (MkConfig (Some (head ++ ":" ++ rest)%string) d)))%string
        = None ->
        deserialise json_loads
          (serialise json_dumps (MkConfig (Some (head ++ ":" ++ rest)%string) d))
        = Raise JSONDecodeError).
Proof.
  intros json_dumps json_loads. split; [|split].
  - intros text H. unfold deserialise. rewrite (split1_clean _ _ H). reflexivity.
  - intros head rest H. unfold deserialise. rewrite (split1_colon _ _ H). reflexivity.
  - intros d head rest H Hj.
    set (t := MkConfig (Some (head ++ ":" ++ rest)%string) d) in *.
    assert (E : serialise json_dumps t
                = (head ++ String colon (rest ++ ":" ++ json_dumps (plain_config t)))%string).
    { unfold serialise. subst t. simpl parental_path. simpl Str.format_opt.
      rewrite append_assoc. reflexivity. }
    unfold deserialise. rewrite E, (split1_app _ _ _ H), Hj. reflexivity.
Qed.

Lemma X11_witness :
  deserialise Json.loads "no separator" = Raise ValueError /\
  deserialise Json.loads "a/b:[1, {" = Raise JSONDecodeError /\
  deserialise Json.loads
    (serialise Json.dumps (MkConfig (Some "opc:tcp") [("x", ConfigInt 1 (Some "x"))]))
  = Raise JSONDecodeError.
Proof.
  destruct (X11_deserialise_cuts_at_first_colon Json.dumps Json.loads)
    as (H1 & H2 & H3).
  split; [|split].
  - apply H1. reflexivity.
  - change "a/b:[1, {" with ("a/b" ++ ":" ++ "[1, {")%string.
    rewrite (H2 "a/b" "[1, {" eq_refl). reflexivity.
  - apply (H3 [("x", ConfigInt 1 (Some "x"))] "opc" "tcp"); reflexivity.
Defined.

(** ** When [diff] returns and what it returns *)

Lemma diff_loop_raises (A B : Config) :
  forall (ps : list (list string)) (acc : list diff_entry) (e : exn),
    (forall p, In p ps ->
       Forall clean_segment p /\ p <> [] /\ exists v, lookup A p = Ok v) ->
    diff_loop A B (map path_of ps) acc = Raise e ->
    e = TypeError /\ exists p, In p ps /\ lookup B p = Raise TypeError.
Proof.
  induction ps as [|p ps IH]; intros acc e Hps; [discriminate|].
  destruct (Hps p (or_introl eq_refl)) as (Hc & Hne & [v Hv]).
  assert (Hps' : forall q, In q ps ->
            Forall clean_segment q /\ q <> [] /\ exists v, lookup A q = Ok v)
    by (intros q Hq; apply Hps; right; exact Hq).
  assert (Hrest : forall acc',
            diff_loop A B (map path_of ps) acc' = Raise e ->
            e = TypeError /\
            exists q, In q (p :: ps) /\ lookup B q = Raise TypeError).
  { intros acc' H. destruct (IH acc' e Hps' H) as (He & q & Hq & Hl).
    split; [exact He|]. exists q. split; [right; exact Hq|exact Hl]. }
  simpl. rewrite !(getitem_lookup _ _ Hc Hne), Hv.
  destruct (lookup B p) as [n|e'] eqn:E.
  - destruct (py_ne n v); apply Hrest.
  - destruct (lookup_raises _ _ _ E) as [->|[k ->]]; [|apply Hrest].
    intros H. inversion H; subst. split; [reflexivity|].
    exists p. split; [left; reflexivity|exact E].
Qed.

(** The first key of [A] whose lookup in [B] runs into a stored leaf
    ends the loop. *)
Lemma diff_loop_raises_at (A B : Config) :
  forall (ps : list (list string)) (acc : list diff_entry),
    (forall p, In p ps ->
       Forall clean_segment p /\ p <> [] /\ exists v, lookup A p = Ok v) ->
    (exists p, In p ps /\ lookup B p = Raise TypeError) ->
    diff_loop A B (map path_of ps) acc = Raise TypeError.
Proof.
  induction ps as [|p ps IH]; intros acc Hps [q [Hq Hl]]; [destruct Hq|].
  destruct (Hps p (or_introl eq_refl)) as (Hc & Hne & [v Hv]).
  assert (Hps' : forall q, In q ps ->
            Forall clean_segment q /\ q <> [] /\ exists v, lookup A q = Ok v)
    by (intros q' Hq'; apply Hps; right; exact Hq').
  simpl. rewrite !(getitem_lookup _ _ Hc Hne), Hv.
  destruct (lookup B p) as [n|e] eqn:E.
  - assert (Hin : exists p', In p' ps /\ lookup B p' = Raise TypeError).
    { destruct Hq as [<-|Hq]; [congruence|eauto]. }
    destruct (py_ne n v); apply IH; assumption.
  - destruct (lookup_raises _ _ _ E) as [->|[k ->]]; [reflexivity|].
    destruct Hq as [<-|Hq]; [congruence|]. apply IH; eauto.
Qed.

(** X12. For [A] with clean keys: [A.diff(B)] raises exactly when the
    lookup in [B] of some key of [A] raises [TypeError] (a stored leaf of
    [B] is on the way), and what it raises is [TypeError]; otherwise it
    returns. When no value stored in [A] has a nan in it, the list has at
    most one entry for a key and its entries are the [(k, A[k], B[k])] for
    the keys [k] of [A] that [B] has with [B[k] != A[k]]. (Two lists that
    hold the very same nan object are equal for [!=], two that hold
    different ones are not; the values of this model do not tell the two
    cases apart, whence the condition.) *)
Theorem X12_diff_returns_the_changed_keys :
  forall A B : Config,
    config_ok true A = true ->
    (forall e, diff A B = Raise e -> e = TypeError) /\
    ((exists e, diff A B = Raise e) <->
     (exists k, In k (keys A) /\ getitem B k = Raise TypeError)) /\
    ((forall k, In k (keys A) -> getitem B k <> Raise TypeError) ->
     exists entries, diff A B = Ok entries) /\
    (raw_regular (plain_config A) = true ->
     forall entries,
       diff A B = Ok entries ->
       NoDup (map (fun e : diff_entry => fst (fst e)) entries) /\
       forall k old new,
         In (k, old, new) entries <->
         In k (keys A) /\ getitem A k = Ok old /\ getitem B k = Ok new /\
         py_ne new old = true).
Proof.
  intros A B Hok.
  assert (Hps : forall p, In p (leaf_paths A) ->
            Forall clean_segment p /\ p <> [] /\ exists v, lookup A p = Ok v).
  { intros p Hp. destruct (leaf_paths_lookup A Hok p Hp) as (Hc & v & Hv & _).
    repeat split; [exact Hc|exact (leaf_paths_nonempty _ _ Hp)|eauto]. }
  assert (Hraise : forall e, diff A B = Raise e ->
            e = TypeError /\
            exists k, In k (keys A) /\ getitem B k = Raise TypeError).
  { intros e He. unfold diff in He. rewrite keys_leaf_paths in He.
    destruct (diff_loop_raises A B _ _ _ Hps He) as (-> & p & Hp & Hl).
    split; [reflexivity|]. exists (path_of p). rewrite keys_leaf_paths.
    split; [apply in_map; exact Hp|].
    destruct (Hps p Hp) as (Hc & Hne & _).
    rewrite (getitem_lookup _ _ Hc Hne). exact Hl. }
  split; [|split; [|split]].
  - intros e He. exact (proj1 (Hraise e He)).
  - split.
    + intros [e He]. exact (proj2 (Hraise e He)).
    + intros (k & Hk & Hl). exists TypeError.
      rewrite keys_leaf_paths in Hk. apply in_map_iff in Hk.
      destruct Hk as (p & <- & Hp). destruct (Hps p Hp) as (Hc & Hne & _).
      rewrite (getitem_lookup _ _ Hc Hne) in Hl.
      unfold diff. rewrite keys_leaf_paths.
      apply diff_loop_raises_at; [exact Hps|eauto].
  - exact (diff_returns A B Hok).
  - intros _ entries Hd.
    split; [exact (diff_keys_nodup A B entries Hok Hd)|].
    intros k old new. rewrite (diff_entries A B entries Hok Hd k old new).
    rewrite keys_leaf_paths. split.
    + intros (p & Hp & -> & H). split; [apply in_map; exact Hp|exact H].
    + intros (Hk & H). apply in_map_iff in Hk. destruct Hk as (p & <- & Hp).
      exists p. auto.
Qed.

(** Two trees that [diff] compares, and the two of C6, on which it
    raises. *)
Lemma X12_witness :
  (forall entries,
      diff plant_old plant_new = Ok entries ->
      NoDup (map (fun e : diff_entry => fst (fst e)) entries) /\
      forall k old new,
        In (k, old, new) entries <->
        In k (keys plant_old) /\ getitem plant_old k = Ok old /\
        getitem plant_new k = Ok new /\ py_ne new old = true) /\
  (exists e, diff (tree_of [("a", RDict [("b", RInt 1)])]) (tree_of [("a", RInt 5)])
             = Raise e).
Proof.
  split.
  - exact (proj2 (proj2 (proj2 (X12_diff_returns_the_changed_keys
                                  plant_old plant_new eq_refl))) eq_refl).
  - apply (proj1 (proj2 (X12_diff_returns_the_changed_keys
                           (tree_of [("a", RDict [("b", RInt 1)])])
                           (tree_of [("a", RInt 5)]) eq_refl))).
    exists "a/b". split; [left; reflexivity|reflexivity].
Defined.

(** ** A tree against itself *)

Lemma raw_regular_dict_cons (k : string) (v : raw) (d : list (string * raw)) :
  raw_regular (RDict ((k, v) :: d)) = true ->
  Dict.mem d k = false /\ raw_regular v = true /\ raw_regular (RDict d) = true.
Proof.
  simpl. intros H.
  apply andb_true_iff in H. destruct H as [H H3].
  apply andb_true_iff in H. destruct H as [H1 H2].
  apply negb_true_iff in H1. auto.
Qed.

Lemma raw_regular_dict_get (d : list (string * raw)) :
  raw_regular (RDict d) = true ->
  forall k v, In (k, v) d -> Dict.get d k = Some v /\ raw_regular v = true.
Proof.
  induction d as [|[k' v'] d IH]; intros Hr k v; [intros []|].
  apply raw_regular_dict_cons in Hr. destruct Hr as (Hm & Hv & Hd).
  intros [E|Hin].
  - inversion E; subst. simpl. rewrite String.eqb_refl. auto.
  - destruct (IH Hd k v Hin) as [G Hv2]. split; [|exact Hv2].
    simpl. destruct (String.eqb_spec k' k) as [->|_]; [|exact G].
    rewrite (dict_get_mem _ _ _ G) in Hm. discriminate Hm.
Qed.

Lemma py_eq_refl : forall r, raw_regular r = true -> py_eq r r = true.
Proof.
  induction r as [| | | |l IH|d IH] using raw_induction; intros Hr;
    try reflexivity.
  - simpl. apply String.eqb_refl.
  - simpl. apply Z.eqb_refl.
  - exact Hr.
  - simpl in Hr |- *. induction IH as [|x l Hx _ IHl]; [reflexivity|].
    apply andb_true_iff in Hr. destruct Hr as [Hrx Hrl].
    rewrite (Hx Hrx). exact (IHl Hrl).
  - pose proof (raw_regular_dict_get d Hr) as Hget.
    simpl. rewrite Nat.eqb_refl. simpl.
    assert (G : forall d',
               (forall k v, In (k, v) d' ->
                            Dict.get d k = Some v /\ py_eq v v = true) ->
               (fix each (d0 : list (string * raw)) : bool :=
                  match d0 with
                  | [] => true
                  | (k, v) :: d1 =>
                      match Dict.get d k with
                      | Some w => py_eq v w && each d1
                      | None => false
                      end
                  end) d' = true).
    { induction d' as [|[k v] d' IHd]; intros H; [reflexivity|].
      destruct (H k v (or_introl eq_refl)) as [-> ->].
      apply IHd. intros k2 v2 Hin. apply H. right. exact Hin. }
    apply G. intros k v Hin. destruct (Hget k v Hin) as [Hg Hv].
    split; [exact Hg|].
    rewrite Forall_forall in IH. exact (IH (k, v) Hin Hv).
Qed.

Lemma raw_regular_lookup :
  forall (p : list string) (t : Config) (v : ConfigValue),
    p <> [] ->
    raw_regular (plain_config t) = true ->
    lookup t p = Ok v ->
    raw_regular (plain v) = true.
Proof.
  assert (Hstep : forall t a val,
             raw_regular (plain_config t) = true ->
             Dict.get (items t) a = Some val ->
             raw_regular (plain val) = true).
  { intros [pp d] a val Hr G. rewrite plain_config_eq in Hr. simpl in G.
    apply (raw_regular_dict_get _ Hr a (plain val)).
    apply dict_get_in in G. unfold plain_items.
    apply in_map_iff. exists (a, val). split; [reflexivity|exact G]. }
  induction p as [|a rest IH]; intros t v Hne Hr Hl; [congruence|].
  destruct rest as [|b rest].
  - rewrite lookup_single in Hl.
    destruct (Dict.get (items t) a) as [val|] eqn:G; [|discriminate].
    inversion Hl; subst. exact (Hstep t a v Hr G).
  - rewrite lookup_cons in Hl.
    destruct (Dict.get (items t) a) as [val|] eqn:G; [|discriminate].
    destruct val; try discriminate.
    apply (IH c v); [discriminate|exact (Hstep t a (Subtree c) Hr G)|exact Hl].
Qed.

(** X13. The [diff] of a tree with clean keys against itself is empty,
    provided no stored value has a nan in it; a nan is unequal to itself
    and comes out as an entry. *)
Theorem X13_diff_with_itself_is_empty :
  forall A : Config,
    config_ok true A = true ->
    raw_regular (plain_config A) = true ->
    diff A A = Ok [].
Proof.
  intros A Hok Hr. unfold diff. rewrite keys_leaf_paths.
  assert (Hps : forall p, In p (leaf_paths A) ->
            Forall clean_segment p /\ p <> [] /\ exists v, lookup A p = Ok v).
  { intros p Hp. destruct (leaf_paths_lookup A Hok p Hp) as (Hc & v & Hv & _).
    repeat split; [exact Hc|exact (leaf_paths_nonempty _ _ Hp)|eauto]. }
  induction (leaf_paths A) as [|p ps IH]; [reflexivity|].
  destruct (Hps p (or_introl eq_refl)) as (Hc & Hne & [v Hv]).
  simpl. rewrite !(getitem_lookup _ _ Hc Hne), Hv.
  unfold py_ne. rewrite (py_eq_refl _ (raw_regular_lookup p A v Hne Hr Hv)). simpl.
  apply IH. intros q Hq. apply Hps. right. exact Hq.
Qed.

Lemma X13_witness :
  diff plant_new plant_new = Ok [] /\
  diff (tree_of [("x", RFloat S754_nan)]) (tree_of [("x", RFloat S754_nan)])
  = Ok [("x", ConfigFloat S754_nan (Some "x"), ConfigFloat S754_nan (Some "x"))].
Proof.
  split; [|reflexivity].
  exact (X13_diff_with_itself_is_empty plant_new eq_refl eq_refl).
Defined.

(** ** [deep_items] down to the second level *)

(** X14. On a tree in which no node below the root holds a node,
    [deep_items] returns the leaves with their paths, and these paths are
    [keys()]. *)
Theorem X14_deep_items_on_two_levels :
  forall t : Config,
    two_levels t = true ->
    deep_items t = leaves t /\ map fst (deep_items t) = keys t.
Proof.
  intros t H. rewrite (deep_items_two_levels t H), keys_leaves.
  split; reflexivity.
Qed.

Lemma X14_witness :
  deep_items plant_old = leaves plant_old /\
  map fst (deep_items plant_old) = ["x"; "y"; "s/t"].
Proof.
  exact (X14_deep_items_on_two_levels plant_old eq_refl).
Defined.

(** ** [from_kvlist] *)

Lemma init_loop_app (wrap : raw -> option string -> result ConfigValue)
    (l1 l2 : list (string * raw)) (self : Config) :
  init_loop wrap (l1 ++ l2) self =
  match init_loop wrap l1 self with
  | Ok s1 => init_loop wrap l2 s1
  | Raise e => Raise e
  end.
Proof.
  revert self. induction l1 as [|[k v] l1 IH]; intros self; simpl; [reflexivity|].
  destruct (setitem_with (wrap v) self k) as [s1 [e|]]; [reflexivity|apply IH].
Qed.

Lemma init_loop_preserves_lookup (p : list string) (w : ConfigValue) :
  forall (later : list (list string * raw)) (T T' : Config),
    Forall (fun e => Forall clean_segment (fst e) /\ comparable (fst e) p = false)
           later ->
    init_loop ConfigValue_get (map (fun e => (path_of (fst e), snd e)) later) T = Ok T' ->
    lookup T p = Ok w -> lookup T' p = Ok w.
Proof.
  induction later as [|[q v] later IH]; intros T T' Hl; simpl.
  - intros H. inversion H; subst. auto.
  - inversion Hl as [|? ? [Hq Hcmp] Hrest]; subst. simpl in Hq, Hcmp.
    destruct (setitem_with (ConfigValue_get v) T (path_of q)) as [T1 [e|]] eqn:Es;
      [discriminate|].
    intros H Hw. apply (IH T1 T' Hrest H).
    exact (setitem_preserves_lookup _ q T T1 None p w Hq Es Hcmp Hw).
Qed.

(** X15. [from_kvlist] assigns the pairs in order: when it returns a tree,
    the value of a pair at a path of clean segments is found at that path,
    unless a later pair assigns at that path, above it or below it. *)
Theorem X15_from_kvlist_keeps_each_pair :
  forall (before : list (string * raw)) (p : list string) (value : raw)
         (later : list (list string * raw)) (t : Config),
    Forall clean_segment p -> p <> [] ->
    Forall (fun e => Forall clean_segment (fst e) /\ comparable (fst e) p = false)
           later ->
    from_kvlist (before ++ (path_of p, value)
                   :: map (fun e => (path_of (fst e), snd e)) later) = Ok t ->
    exists pp v, ConfigValue_get value pp = Ok v /\ getitem t (path_of p) = Ok v.
Proof.
  intros before p value later t Hp Hne Hl. unfold from_kvlist.
  rewrite init_loop_app.
  destruct (init_loop ConfigValue_get before (Config_empty None)) as [T0|e];
    [|discriminate].
  simpl init_loop.
  destruct (setitem_with (ConfigValue_get value) T0 (path_of p)) as [T1 [e|]] eqn:Es;
    [discriminate|].
  intros H.
  destruct (update_lookup _ p T0 T1 Hp Hne Es) as (pp & v & Hv & Hl1).
  exists pp, v. split; [exact Hv|].
  rewrite (getitem_lookup _ _ Hp Hne).
  exact (init_loop_preserves_lookup p v later T1 t Hl H Hl1).
Qed.

Lemma X15_witness :
  exists pp v,
    ConfigValue_get (RInt 2) pp = Ok v /\
    getitem (tree_of [("a/b", RInt 1); ("a/c", RInt 2); ("a/b", RInt 3); ("d", RNone)])
            (path_of ["a"; "c"]) = Ok v.
Proof.
  refine (X15_from_kvlist_keeps_each_pair [("a/b", RInt 1)] ["a"; "c"] (RInt 2)
            [(["a"; "b"], RInt 3); (["d"], RNone)] _ _ _ _ _).
  - repeat constructor.
  - discriminate.
  - repeat constructor.
  - reflexivity.
Defined.

(** ** Polling for the endpoint *)

Lemma passes_succ (w : World) (n : nat) :
  passes w (S n) = passes w n ++ pass_events w n.
Proof.
  unfold passes. rewrite seq_S, map_app, concat_app. simpl.
  rewrite app_nil_r. reflexivity.
Qed.

(** The loop from pass [attempt] on, when the passes up to [attempt + n]
    are in time and find nothing. *)
Lemma discover_passes (w : World) (timeout : option Z) :
  forall (n fuel attempt reads : nat) (trace : list event),
    (timeout = None \/ reads = S attempt) ->
    (forall i, i < n -> in_time w timeout (attempt + i) = true /\
                        found_at w (attempt + i) = None) ->
    discover (n + fuel) w timeout (clock w 0) attempt reads trace
    = discover fuel w timeout (clock w 0) (attempt + n)
               (match timeout with None => reads | Some _ => reads + n end)
               (trace ++ concat (map (pass_events w) (seq attempt n))).
Proof.
  induction n as [|n IH]; intros fuel attempt reads trace Hr Hq.
  - simpl. rewrite Nat.add_0_r, app_nil_r.
    destruct timeout; [rewrite Nat.add_0_r|]; reflexivity.
  - destruct (Hq 0 (Nat.lt_0_succ n)) as [Ht Hf]. rewrite Nat.add_0_r in Ht, Hf.
    change (S n + fuel) with (S (n + fuel)). simpl discover.
    assert (Hgo : match timeout with
                  | Some t => Z.ltb (clock w reads) (clock w 0 + t)
                  | None => true
                  end = true).
    { unfold in_time in Ht. destruct timeout as [t|]; [|reflexivity].
      destruct Hr as [Hr|Hr]; [discriminate|]. rewrite Hr. exact Ht. }
    rewrite Hgo. unfold found_at in Hf.
    assert (Hev : pass_events w attempt
                  = match environ w attempt with
                    | Some _ => [ReadEnviron; Sleep]
                    | None => [ReadEnviron; OpenFile; Sleep]
                    end) by reflexivity.
    destruct (environ w attempt) as [e|] eqn:Ee; [discriminate|].
    rewrite Hf.
    rewrite (IH fuel (S attempt) _ ((trace ++ [ReadEnviron; OpenFile]) ++ [Sleep])).
    + replace (S attempt + n) with (attempt + S n) by lia.
      simpl seq. simpl map. simpl concat. rewrite Hev.
      rewrite <- !app_assoc. simpl.
      destruct timeout; [|reflexivity].
      replace (S reads + n) with (reads + S n) by lia. reflexivity.
    + destruct timeout; [right|left; reflexivity].
      destruct Hr as [Hr|Hr]; [discriminate|]. rewrite Hr. reflexivity.
    + intros i Hi. replace (S attempt + i) with (attempt + S i) by lia.
      apply Hq. lia.
Qed.

Lemma discover_found (w : World) (timeout : option Z) (fuel attempt reads : nat)
    (trace : list event) (e : string) :
  (timeout = None \/ reads = S attempt) ->
  in_time w timeout attempt = true ->
  found_at w attempt = Some e ->
  discover (S fuel) w timeout (clock w 0) attempt reads trace
  = Some (Some e, trace ++ pass_events w attempt).
Proof.
  intros Hr Ht Hf. simpl discover.
  assert (Hgo : match timeout with
                | Some t => Z.ltb (clock w reads) (clock w 0 + t)
                | None => true
                end = true).
  { unfold in_time in Ht. destruct timeout as [t|]; [|reflexivity].
    destruct Hr as [Hr|Hr]; [discriminate|]. rewrite Hr. exact Ht. }
  rewrite Hgo. unfold found_at in Hf. unfold pass_events.
  destruct (environ w attempt) as [e0|].
  - inversion Hf; subst. rewrite <- app_assoc. reflexivity.
  - rewrite Hf, <- app_assoc. reflexivity.
Qed.

Lemma discover_late (w : World) (timeout : option Z) (fuel attempt reads : nat)
    (trace : list event) :
  (timeout = None \/ reads = S attempt) ->
  in_time w timeout attempt = false ->
  discover (S fuel) w timeout (clock w 0) attempt reads trace = Some (None, trace).
Proof.
  intros Hr Ht. simpl discover. unfold in_time in Ht.
  destruct timeout as [t|]; [|discriminate].
  destruct Hr as [Hr|Hr]; [discriminate|]. rewrite Hr, Ht. reflexivity.
Qed.

Lemma reads_after (timeout : option Z) (n : nat) :
  timeout = None \/
  match timeout with None => 1 | Some _ => 1 + n end = S (0 + n).
Proof. destruct timeout; [right|left]; reflexivity. Qed.

(** X16. Without a cached endpoint, if the passes [0 .. n - 1] are in time
    and find neither the variable nor the file, and pass [n] is in time
    and finds an endpoint, the call returns it after pass [n] and keeps it
    in [self.endpoint]; the variable is looked at before the file, and
    every pass ends with a sleep, also the one that finds the endpoint. *)
Theorem X16_locate_polls_until_found :
  forall (w : World) (timeout : option Z) (cache : option string)
         (n fuel : nat) (e : string),
    Str.truthy_opt cache = false ->
    (forall i, i < n -> in_time w timeout i = true /\ found_at w i = None) ->
    in_time w timeout n = true ->
    found_at w n = Some e ->
    get_manager_endpoint (n + S fuel) cache w timeout
    = Some (Some e, passes w (S n), Ok e).
Proof.
  intros w timeout cache n fuel e Hc Hq Ht Hf.
  unfold get_manager_endpoint. rewrite Hc.
  rewrite (discover_passes w timeout n (S fuel) 0 1 []).
  - rewrite (discover_found w timeout fuel (0 + n) _ _ e (reads_after timeout n) Ht Hf).
    rewrite passes_succ. reflexivity.
  - destruct timeout; [right|left]; reflexivity.
  - intros i Hi. simpl. apply Hq. exact Hi.
Qed.

(** The file appears at the third pass; the variable, set at the same
    pass, would be taken first. *)
Lemma X16_witness :
  get_manager_endpoint 5 None
    {| environ := fun _ => None;
       endpoint_file := fun i => if Nat.leb 2 i then Some "tcp://file:1" else None;
       clock := fun i => Z.of_nat i;
       poll_events := 0;
       reply := [] |} (Some 10%Z)
  = Some (Some "tcp://file:1",
          [ReadEnviron; OpenFile; Sleep; ReadEnviron; OpenFile; Sleep;
           ReadEnviron; OpenFile; Sleep],
          Ok "tcp://file:1").
Proof.
  refine (X16_locate_polls_until_found _ (Some 10%Z) None 2 2 "tcp://file:1" _ _ _ _).
  - reflexivity.
  - intros i Hi. destruct i as [|[|i]]; [split; reflexivity|split; reflexivity|lia].
  - reflexivity.
  - reflexivity.
Defined.

(** X17. Without a cached endpoint and with a timeout, if the passes
    [0 .. n - 1] are in time and find nothing and the clock is past the
    timeout before pass [n], the call raises [TimeoutError] after [n]
    passes and leaves [self.endpoint] as it was. *)
Theorem X17_locate_times_out :
  forall (w : World) (t : Z) (cache : option string) (n fuel : nat),
    Str.truthy_opt cache = false ->
    (forall i, i < n -> in_time w (Some t) i = true /\ found_at w i = None) ->
    in_time w (Some t) n = false ->
    get_manager_endpoint (n + S fuel) cache w (Some t)
    = Some (cache, passes w n,
            Raise (TimeoutError
                     "Timed out while trying to find config manager endpoint")).
Proof.
  intros w t cache n fuel Hc Hq Ht.
  unfold get_manager_endpoint. rewrite Hc.
  rewrite (discover_passes w (Some t) n (S fuel) 0 1 []).
  - rewrite (discover_late w (Some t) fuel (0 + n) _ _ (reads_after (Some t) n) Ht).
    reflexivity.
  - right. reflexivity.
  - intros i Hi. simpl. apply Hq. exact Hi.
Qed.

(** A clock that advances by one at every reading and a timeout of 3. *)
Lemma X17_witness :
  get_manager_endpoint 4 None
    {| environ := fun _ => None;
       endpoint_file := fun _ => None;
       clock := fun i => Z.of_nat i;
       poll_events := 0;
       reply := [] |} (Some 3%Z)
  = Some (None,
          [ReadEnviron; OpenFile; Sleep; ReadEnviron; OpenFile; Sleep],
          Raise (TimeoutError
                   "Timed out while trying to find config manager endpoint")).
Proof.
  refine (X17_locate_times_out _ 3%Z None 2 1 _ _ _).
  - reflexivity.
  - intros i Hi. destruct i as [|[|i]]; [split; reflexivity|split; reflexivity|lia].
  - reflexivity.
Defined.

(** X18. Without a cached endpoint and without a timeout, as long as
    neither the variable nor the file gives an endpoint the call does not
    return: no number of passes is enough. *)
Theorem X18_locate_without_timeout_keeps_polling :
  forall (w : World) (cache : option string) (fuel : nat),
    Str.truthy_opt cache = false ->
    (forall i, found_at w i = None) ->
    get_manager_endpoint fuel cache w None = None.
Proof.
  intros w cache fuel Hc Hq. unfold get_manager_endpoint. rewrite Hc.
  replace fuel with (fuel + 0) by lia.
  rewrite (discover_passes w None fuel 0 0 1 []).
  - reflexivity.
  - left. reflexivity.
  - intros i _. split; [reflexivity|apply Hq].
Qed.

Lemma X18_witness :
  get_manager_endpoint 1000 (Some EmptyString) (still_world None None 0 0 []) None
  = None.
Proof.
  refine (X18_locate_without_timeout_keeps_polling _ _ 1000 _ _).
  - reflexivity.
  - intros i. reflexivity.
Defined.

(** ** [apply_diff] entry after entry *)

Lemma apply_diff_app :
  forall (es1 es2 : list diff_item) (self : Config),
    apply_diff self (es1 ++ es2) =
    match apply_diff self es1 with
    | (s1, None) => apply_diff s1 es2
    | (s1, Some e) => (s1, Some e)
    end.
Proof.
  induction es1 as [|item es1 IH]; intros es2 self; simpl.
  - destruct (apply_diff self es2) as [s [e|]]; reflexivity.
  - destruct item as [key new|key old new|]; try apply IH;
      (destruct (Str.truthy key); [|apply IH];
       destruct (setitem self key new) as [s1 [e|]]; [reflexivity|apply IH]).
Qed.

Lemma apply_diff_raises :
  forall (es : list diff_item) (self self' : Config) (e : exn),
    apply_diff self es = (self', Some e) -> e = TypeError.
Proof.
  induction es as [|item es IH]; intros self self' e; simpl; [discriminate|].
  assert (Hstep : forall key new,
            (if Str.truthy key
             then match setitem self key new with
                  | (s1, None) => apply_diff s1 es
                  | (s1, Some e0) => (s1, Some e0)
                  end
             else apply_diff self es) = (self', Some e) -> e = TypeError).
  { intros key new. destruct (Str.truthy key); [|apply IH].
    destruct (setitem self key new) as [s1 [e0|]] eqn:Es; [|apply IH].
    intros H. inversion H; subst.
    exact (setitem_with_raises _ (ConfigValue_get_raises new)
             (S (String.length key)) key self self' e (Nat.lt_succ_diag_r _) Es). }
  destruct item as [key new|key old new|]; [apply Hstep|apply Hstep|apply IH].
Qed.



(** ** The order of [keys] *)

Lemma keys_app (pp : option string) (d e : list (string * ConfigValue)) :
  keys (MkConfig pp (d ++ e)) = keys (MkConfig pp d) ++ keys (MkConfig pp e).
Proof.
  induction d as [|[k v] d IH]; [reflexivity|].
  change (((k, v) :: d) ++ e) with ((k, v) :: (d ++ e)).
  rewrite (keys_cons pp k v (d ++ e)), (keys_cons pp k v d), IH.
  apply app_assoc.
Qed.

Lemma keys_path (pp pp' : option string) (d : list (string * ConfigValue)) :
  keys (MkConfig pp d) = keys (MkConfig pp' d).
Proof. reflexivity. Qed.

Lemma keys_set_leaf (pp : option string) (d : list (string * ConfigValue))
    (a : string) (old new : ConfigValue) :
  Dict.get d a = Some old -> is_config old = false -> is_config new = false ->
  keys (MkConfig pp (Dict.set d a new)) = keys (MkConfig pp d).
Proof.
  intros G Ho Hn. induction d as [|[k v] d IH]; [discriminate|].
  simpl in G.
  change (Dict.set ((k, v) :: d) a new)
    with (if String.eqb k a then (k, new) :: d else (k, v) :: Dict.set d a new).
  destruct (String.eqb_spec k a) as [->|N].
  - inversion G; subst. rewrite !keys_cons.
    destruct old; try discriminate Ho; destruct new; try discriminate Hn;
      reflexivity.
  - rewrite !keys_cons, (IH G). reflexivity.
Qed.

Lemma keys_set_subtree (pp : option string) (d : list (string * ConfigValue))
    (a : string) (c c' : Config) :
  Dict.get d a = Some (Subtree c) -> keys c' = keys c ->
  keys (MkConfig pp (Dict.set d a (Subtree c'))) = keys (MkConfig pp d).
Proof.
  intros G Hk. induction d as [|[k v] d IH]; [discriminate|].
  simpl in G.
  change (Dict.set ((k, v) :: d) a (Subtree c'))
    with (if String.eqb k a then (k, Subtree c') :: d
          else (k, v) :: Dict.set d a (Subtree c')).
  destruct (String.eqb_spec k a) as [->|N].
  - inversion G; subst. rewrite !keys_cons, Hk. reflexivity.
  - rewrite !keys_cons, (IH G). reflexivity.
Qed.

Lemma setitem_keeps_keys (wrap : option string -> result ConfigValue) :
  (forall pp v, wrap pp = Ok v -> is_config v = false) ->
  forall (p : list string) (t t' : Config) (old : ConfigValue),
    Forall clean_segment p ->
    lookup t p = Ok old -> is_config old = false ->
    setitem_with wrap t (path_of p) = (t', None) ->
    keys t' = keys t.
Proof.
  intros Hw. induction p as [|a rest IH]; intros t t' old Hc Hl Ho Hset.
  - simpl in Hl. inversion Hl; subst. discriminate Ho.
  - inversion Hc as [|? ? Ha Hrest]; subst. destruct t as [pp d].
    destruct rest as [|c rest].
    + rewrite (setitem_with_path_single _ _ _ Ha) in Hset.
      rewrite lookup_single in Hl. simpl items in Hl.
      destruct (Dict.get d a) as [val|] eqn:G; [|discriminate].
      inversion Hl; subst val.
      destruct (wrap (Some (child_path (MkConfig pp d) a))) as [v|e] eqn:Ew;
        [|discriminate].
      inversion Hset; subst. unfold store. simpl.
      exact (keys_set_leaf pp d a old v G Ho (Hw _ _ Ew)).
    + inversion Hrest as [|? ? Hcq _]; subst.
      rewrite (setitem_with_path_cons _ _ _ _ _ Ha Hcq) in Hset. cbv zeta in Hset.
      rewrite lookup_cons in Hl. simpl items in Hl, Hset.
      destruct (Dict.get d a) as [val|] eqn:G; [|discriminate].
      destruct val; try discriminate.
      unfold Dict.mem in Hset. rewrite G in Hset. simpl items in Hset.
      rewrite G in Hset.
      destruct (setitem_with wrap c0 (path_of (c :: rest))) as [child' r] eqn:Ec.
      inversion Hset; subst. unfold store. simpl.
      apply (keys_set_subtree pp d a c0 child' G).
      exact (IH c0 child' old Hrest Hl Ho Ec).
Qed.

(** X20. Assignments keep the order of [keys()]: a value that is no
    mapping assigned at a key [keys()] lists leaves [keys()] as it was,
    and assigned at a new key directly under the root puts the key at the
    end. *)
Theorem X20_assignment_keeps_the_order_of_keys :
  forall (self self' : Config) (value : raw),
    (forall d, value <> RDict d) ->
    (forall p old,
        Forall clean_segment p -> p <> [] ->
        getitem self (path_of p) = Ok old -> is_config old = false ->
        setitem self (path_of p) value = (self', None) ->
        keys self' = keys self) /\
    (forall key,
        clean_segment key -> Dict.mem (items self) key = false ->
        setitem self key value = (self', None) ->
        keys self' = keys self ++ [key]).
Proof.
  intros self self' value Hv.
  assert (Hw : forall pp v, ConfigValue_get value pp = Ok v -> is_config v = false).
  { intros pp v. destruct value as [| | | | |d];
      try (simpl; intros H; inversion H; reflexivity).
    exfalso. exact (Hv d eq_refl). }
  split.
  - intros p old Hc Hne Hg Ho Hset.
    rewrite (getitem_lookup _ _ Hc Hne) in Hg.
    exact (setitem_keeps_keys _ Hw p self self' old Hc Hg Ho Hset).
  - intros key Hk Hm. unfold setitem.
    rewrite (setitem_with_direct _ _ _ (proj2 Hk)).
    destruct (ConfigValue_get value (Some (child_path self key))) as [v|e] eqn:E;
      [|discriminate].
    intros H. inversion H; subst. destruct self as [pp d]. unfold store.
    simpl parental_path. simpl items. simpl in Hm.
    rewrite (dict_set_fresh d key v Hm), keys_app, keys_cons.
    pose proof (Hw _ _ E) as Hleaf.
    destruct v; try discriminate Hleaf; reflexivity.
Qed.

Lemma X20_witness :
  keys (fst (setitem plant_old "s/t" (RStr "new"))) = ["x"; "y"; "s/t"] /\
  keys (fst (setitem plant_old "w" (RInt 0))) = ["x"; "y"; "s/t"; "w"].
Proof.
  split.
  - assert (Hv : forall d, RStr "new" <> RDict d) by (intros d; discriminate).
    refine (proj1 (X20_assignment_keeps_the_order_of_keys plant_old _ (RStr "new") Hv)
              ["s"; "t"] (ConfigString "old" (Some "s/t")) _ _ eq_refl eq_refl eq_refl).
    + repeat constructor.
    + discriminate.
  - assert (Hv : forall d, RInt 0 <> RDict d) by (intros d; discriminate).
    refine (proj2 (X20_assignment_keeps_the_order_of_keys plant_old _ (RInt 0) Hv)
              "w" _ eq_refl eq_refl).
    split; reflexivity.
Defined.
